(** * Astring: a JavaScript code generator from an ESTree AST

    A shallow embedding of [src/astring.js] and the properties of its
    emitter: the parenthesization oracle, the statement-head rule, the
    dispatch table, the indentation and semicolon flags, and the comment
    formatter.

    The embedding has three layers:
    - [JS]: the fragment of the JavaScript runtime the program relies on
      (JSON-like values, property access, the coercions [ToString],
      [ToBoolean], [ToNumber], the string methods [trim], [split], [join],
      [repeat], and [JSON.stringify] on primitives);
    - the emission state and a state-and-exception monad [M];
    - the program: helpers, the formatters of [defaultGenerator], the
      [State] constructor and [astring]. *)

From Stdlib Require Import String Ascii List ZArith Lia Bool DecimalString.
Import ListNotations.
Open Scope list_scope.
Open Scope string_scope.

Set Implicit Arguments.
Set Warnings "-register-all".

(* ===================================================================== *)
(** * The JavaScript fragment *)
(* ===================================================================== *)

Module JS.

(** AST nodes are plain data objects, as a JSON text describes them.
    Numbers are the integers that print in decimal (of magnitude below
    10^21); strings are sequences of 8-bit code units. *)
Inductive value : Type :=
| VUndefined
| VNull
| VBool (b : bool)
| VNum (n : Z)
| VStr (s : string)
| VArr (elems : list value)
| VObj (props : list (string * value)).

(** What a run of the program can end in.  [Throw] is a JavaScript
    exception.  [Unmodelled] marks the few runtime behaviours left outside
    this fragment; [OutOfFuel] is the recursion budget of [dispatch]
    running out. *)
Inductive js_error : Type := TypeError | RangeError.

Inductive outcome (A : Type) : Type :=
| Ok (a : A)
| Throw (e : js_error)
| Unmodelled
| OutOfFuel.

Arguments Ok {A} a.
Arguments Throw {A} e.
Arguments Unmodelled {A}.
Arguments OutOfFuel {A}.

(** ** Strings *)

Definition string_of_Z (n : Z) : string :=
  NilZero.string_of_int (Z.to_int n).

Definition string_of_nat (n : nat) : string :=
  string_of_Z (Z.of_nat n).

Definition newline : ascii := ascii_of_nat 10.
Definition tab : ascii := ascii_of_nat 9.
Definition space : ascii := ascii_of_nat 32.

Definition LF : string := String newline "".
Definition TAB : string := String tab "".

(** White space and line terminators as [String.prototype.trim] sees them,
    among 8-bit code units: TAB, LF, VT, FF, CR, SP and NBSP. *)
Definition is_white (c : ascii) : bool :=
  let n := nat_of_ascii c in
  ((9 <=? n) && (n <=? 13) || (n =? 32) || (n =? 160))%nat.

Fixpoint trimLeft (s : string) : string :=
  match s with
  | "" => ""
  | String c s' => if is_white c then trimLeft s' else s
  end.

Fixpoint all_white (s : string) : bool :=
  match s with
  | "" => true
  | String c s' => is_white c && all_white s'
  end.

Fixpoint trimRight (s : string) : string :=
  match s with
  | "" => ""
  | String c s' => if all_white s then "" else String c (trimRight s')
  end.

Definition trim (s : string) : string := trimLeft (trimRight s).

(** [s.split(sep)]: [skip] counts the code units of a separator occurrence
    still to be passed over, [cur] is the piece being collected. *)
Fixpoint split_from (sep : string) (skip : nat) (cur : string) (s : string)
  : list string :=
  match s with
  | "" => [cur]
  | String c s' =>
      match skip with
      | S k => split_from sep k cur s'
      | O =>
          if prefix sep s
          then cur :: split_from sep (String.length sep - 1) "" s'
          else split_from sep 0 (cur ++ String c "") s'
      end
  end.

Fixpoint chars (s : string) : list string :=
  match s with
  | "" => []
  | String c s' => String c "" :: chars s'
  end.

Definition split (sep : string) (s : string) : list string :=
  match sep with
  | "" => chars s
  | _ => split_from sep 0 "" s
  end.

Definition join (sep : string) (l : list string) : string :=
  String.concat sep l.

Fixpoint repeat_nat (s : string) (n : nat) : string :=
  match n with
  | O => ""
  | S k => s ++ repeat_nat s k
  end.

(** [s.repeat(count)] throws a [RangeError] on a negative count. *)
Definition repeat (s : string) (count : Z) : outcome string :=
  if (count <? 0)%Z then Throw RangeError
  else Ok (repeat_nat s (Z.to_nat count)).

(** ** Coercions *)

(** [ToString]; an array prints as its elements joined by commas, with
    [null] and [undefined] elements empty. *)
Fixpoint to_str (v : value) : string :=
  match v with
  | VUndefined => "undefined"
  | VNull => "null"
  | VBool true => "true"
  | VBool false => "false"
  | VNum n => string_of_Z n
  | VStr s => s
  | VArr l =>
      join "," (map (fun e => match e with
                              | VUndefined | VNull => ""
                              | _ => to_str e
                              end) l)
  | VObj _ => "[object Object]"
  end.

(** [ToBoolean]. *)
Definition truthy (v : value) : bool :=
  match v with
  | VUndefined | VNull => false
  | VBool b => b
  | VNum n => negb (n =? 0)%Z
  | VStr s => negb (s =? "")
  | VArr _ | VObj _ => true
  end.

(** [v == null]. *)
Definition nullish (v : value) : bool :=
  match v with
  | VUndefined | VNull => true
  | _ => false
  end.

(** [ToNumber], with [None] for NaN.  Numeric strings and objects are left
    out. *)
Definition to_number (v : value) : outcome (option Z) :=
  match v with
  | VUndefined => Ok None
  | VNull => Ok (Some 0%Z)
  | VBool b => Ok (Some (if b then 1 else 0)%Z)
  | VNum n => Ok (Some n)
  | VStr _ | VArr _ | VObj _ => Unmodelled
  end.

(** [v === "s"] and [v === n]. *)
Definition is_str (v : value) (s : string) : bool :=
  match v with
  | VStr s' => s' =? s
  | _ => false
  end.

Definition is_num (v : value) (n : Z) : bool :=
  match v with
  | VNum n' => (n' =? n)%Z
  | _ => false
  end.

(** [a === b]; whether two object references are the same object is not
    recorded in a [value]. *)
Definition strict_eq (a b : value) : outcome bool :=
  match a, b with
  | VUndefined, VUndefined | VNull, VNull => Ok true
  | VBool x, VBool y => Ok (Bool.eqb x y)
  | VNum x, VNum y => Ok (x =? y)%Z
  | VStr x, VStr y => Ok (x =? y)
  | (VArr _ | VObj _), (VArr _ | VObj _) => Unmodelled
  | _, _ => Ok false
  end.

(** ** Property access *)

Fixpoint assoc {A : Type} (k : string) (l : list (string * A)) : option A :=
  match l with
  | [] => None
  | (k', a) :: l' => if k' =? k then Some a else assoc k l'
  end.

(** [v.k] for the fixed property names the program reads; none of them is
    a member of a built-in prototype other than [length]. *)
Definition get (v : value) (k : string) : outcome value :=
  match v with
  | VUndefined | VNull => Throw TypeError
  | VObj ps => Ok (match assoc k ps with Some x => x | None => VUndefined end)
  | VArr l => Ok (if k =? "length" then VNum (Z.of_nat (List.length l))
                  else VUndefined)
  | VStr s => Ok (if k =? "length" then VNum (Z.of_nat (String.length s))
                  else VUndefined)
  | VBool _ | VNum _ => Ok VUndefined
  end.

(** [v[i]] for a non-negative integer [i]. *)
Definition idx (v : value) (i : nat) : outcome value :=
  match v with
  | VUndefined | VNull => Throw TypeError
  | VObj ps => Ok (match assoc (string_of_nat i) ps with
                   | Some x => x
                   | None => VUndefined
                   end)
  | VArr l => Ok (nth i l VUndefined)
  | VStr s => Ok (match String.get i s with
                  | Some c => VStr (String c "")
                  | None => VUndefined
                  end)
  | VBool _ | VNum _ => Ok VUndefined
  end.

(** The receiver of a string method ([trim], [trimRight]): anything but a
    string has no such method, and the call throws. *)
Definition as_string (v : value) : outcome string :=
  match v with
  | VStr s => Ok s
  | _ => Throw TypeError
  end.

(** ** Object literals used as tables

    [OPERATOR_PRECEDENCE], [EXPRESSIONS_PRECEDENCE] and the generator are
    object literals indexed by a computed key, so a key that is not an own
    property may still be found on [Object.prototype]. *)
Inductive slot (A : Type) : Type :=
| Own (a : A)
| Inherited (name : string)
| Missing.

Arguments Own {A} a.
Arguments Inherited {A} name.
Arguments Missing {A}.

Definition Object_prototype : list string :=
  [ "constructor"; "__defineGetter__"; "__defineSetter__"; "hasOwnProperty";
    "__lookupGetter__"; "__lookupSetter__"; "isPrototypeOf";
    "propertyIsEnumerable"; "toString"; "valueOf"; "__proto__";
    "toLocaleString" ].

Definition mem (k : string) (l : list string) : bool :=
  existsb (String.eqb k) l.

Definition lookup {A : Type} (tbl : list (string * A)) (k : string) : slot A :=
  match assoc k tbl with
  | Some a => Own a
  | None => if mem k Object_prototype then Inherited k else Missing
  end.

(** Comparisons of table entries.  A number found in the table compares as
    a number; [undefined] and an inherited built-in turn into NaN against
    a number.  Two distinct built-ins compare by their source text, which
    is left out. *)
Definition slot_is (p : slot Z) (n : Z) : bool :=
  match p with
  | Own m => (m =? n)%Z
  | _ => false
  end.

Definition slot_neq (p q : slot Z) : bool :=
  match p, q with
  | Own m, Own n => negb (m =? n)%Z
  | Inherited a, Inherited b => negb (a =? b)
  | Missing, Missing => false
  | _, _ => true
  end.

Definition slot_lt (p q : slot Z) : outcome bool :=
  match p, q with
  | Own m, Own n => Ok (m <? n)%Z
  | Inherited a, Inherited b => if a =? b then Ok false else Unmodelled
  | _, _ => Ok false
  end.

Definition slot_le (p q : slot Z) : outcome bool :=
  match p, q with
  | Own m, Own n => Ok (m <=? n)%Z
  | Inherited a, Inherited b => if a =? b then Ok true else Unmodelled
  | _, _ => Ok false
  end.

Definition slot_truthy (p : slot Z) : bool :=
  match p with
  | Own m => negb (m =? 0)%Z
  | Inherited _ => true
  | Missing => false
  end.

(** ** [JSON.stringify] on primitives *)

Definition hex_digit (n : nat) : ascii :=
  if (n <? 10)%nat then ascii_of_nat (48 + n) else ascii_of_nat (87 + n).

Definition escape_char (c : ascii) : string :=
  let n := nat_of_ascii c in
  if (n =? 34)%nat then "\" ++ String c ""
  else if (n =? 92)%nat then "\\"
  else if (n =? 8)%nat then "\b"
  else if (n =? 9)%nat then "\t"
  else if (n =? 10)%nat then "\n"
  else if (n =? 12)%nat then "\f"
  else if (n =? 13)%nat then "\r"
  else if (n <? 32)%nat
       then "\u00" ++ String (hex_digit (n / 16)) (String (hex_digit (n mod 16)) "")
  else String c "".

Fixpoint escape (s : string) : string :=
  match s with
  | "" => ""
  | String c s' => escape_char c ++ escape s'
  end.

Definition quote : string := String (ascii_of_nat 34) "".

Definition stringify (v : value) : outcome value :=
  match v with
  | VUndefined => Ok VUndefined
  | VNull => Ok (VStr "null")
  | VBool b => Ok (VStr (to_str v))
  | VNum n => Ok (VStr (string_of_Z n))
  | VStr s => Ok (VStr (quote ++ escape s ++ quote))
  | VArr _ | VObj _ => Unmodelled
  end.

End JS.

Import JS.
Coercion VStr : string >-> value.

(* ===================================================================== *)
(** * The emission state *)
(* ===================================================================== *)

(** [state.output] is a string buffer, or the stream given in the options;
    a stream receives each written value as it is. *)
Inductive sink : Type :=
| Buffer (text : string)
| Stream (chunks : list value).

(** The text of a sequence of written values. *)
Definition text_of (written : list value) : string :=
  String.concat "" (map to_str written).

Definition emitted (o : sink) : string :=
  match o with
  | Buffer text => text
  | Stream chunks => text_of chunks
  end.

(** The fields [State.constructor] sets, but for two.  [output] is only
    ever appended to by [write] and read by [astring] at the end, so the
    values written are kept as the log of the monad [M] below.  Every
    formatter is called as a method of [state.generator], so that table is
    passed along as [this] (see [Dispatch]). *)
Record State : Type := mkState {
  sourceMap : bool;
  line : Z;
  column : Z;
  indent : string;
  lineEnd : string;
  indentLevel : Z;
  writeComments : bool;
  noTrailingSemicolon : bool
}.

Definition set_indentLevel (n : Z) (st : State) : State :=
  mkState (sourceMap st) (line st) (column st) (indent st)
          (lineEnd st) n (writeComments st) (noTrailingSemicolon st).

Definition set_noTrailingSemicolon (b : bool) (st : State) : State :=
  mkState (sourceMap st) (line st) (column st) (indent st)
          (lineEnd st) (indentLevel st) (writeComments st) b.

(** ** The monad of formatters

    A computation reads and updates the state, appends to the output, and
    may throw. *)
Definition M (A : Type) : Type := State -> outcome (A * State * list value).

Definition ret {A : Type} (a : A) : M A := fun st => Ok (a, st, []).

Definition bind {A B : Type} (m : M A) (k : A -> M B) : M B :=
  fun st =>
    match m st with
    | Ok (a, st1, w1) =>
        match k a st1 with
        | Ok (b, st2, w2) => Ok (b, st2, (w1 ++ w2)%list)
        | Throw e => Throw e
        | Unmodelled => Unmodelled
        | OutOfFuel => OutOfFuel
        end
    | Throw e => Throw e
    | Unmodelled => Unmodelled
    | OutOfFuel => OutOfFuel
    end.

Definition lift {A : Type} (o : outcome A) : M A :=
  fun st =>
    match o with
    | Ok a => Ok (a, st, [])
    | Throw e => Throw e
    | Unmodelled => Unmodelled
    | OutOfFuel => OutOfFuel
    end.

Definition throw {A : Type} (e : js_error) : M A := fun _ => Throw e.

Definition gets {A : Type} (f : State -> A) : M A :=
  fun st => Ok (f st, st, []).

Definition modify (f : State -> State) : M unit :=
  fun st => Ok (tt, f st, []).

Declare Scope js_scope.
Delimit Scope js_scope with js.
Bind Scope js_scope with M.

Notation "x <- m ;; k" := (bind m (fun x => k))
  (at level 61, m at next level, right associativity) : js_scope.
Notation "m ;; k" := (bind m (fun _ => k))
  (at level 61, right associativity) : js_scope.

Open Scope js_scope.

Definition when (b : bool) (m : M unit) : M unit :=
  if b then m else ret tt.

(** [state.write( string )]: [this.output += string], or
    [this.output.write( string )] on a stream. *)
Definition write (v : value) : M unit := fun st => Ok (tt, st, [v]).

Definition sink_write (o : sink) (written : list value) : sink :=
  match o with
  | Buffer text => Buffer (text ++ text_of written)
  | Stream chunks => Stream (chunks ++ written)%list
  end.

(** [state.indentLevel += d] *)
Definition add_indentLevel (d : Z) : M unit :=
  level <- gets indentLevel ;;
  modify (set_indentLevel (level + d)).

(** [v.k], [v[i]] and the comparisons of a value with a number. *)
Definition field (v : value) (k : string) : M value := lift (get v k).

Definition item (v : value) (i : nat) : M value := lift (idx v i).

Definition gt_num (v : value) (n : Z) : M bool :=
  x <- lift (to_number v) ;;
  ret (match x with Some z => (n <? z)%Z | None => false end).

(** [state.indent.repeat( state.indentLevel++ )] *)
Definition indent_then_increment : M string :=
  unit_ <- gets indent ;;
  level <- gets indentLevel ;;
  add_indentLevel 1 ;;
  lift (repeat unit_ level).

(** [for ( let i = start; i < length; i++ ) body( i )] *)
Fixpoint iterate (i count : nat) (body : nat -> M unit) : M unit :=
  match count with
  | O => ret tt
  | S c => body i ;; iterate (S i) c body
  end.

Definition for_loop (start : nat) (length : value) (body : nat -> M unit)
  : M unit :=
  n <- lift (to_number length) ;;
  match n with
  | Some z => iterate start (Z.to_nat (z - Z.of_nat start)) body
  | None => ret tt
  end.

(** [for ( let i = 0; ; ) { ...; if ( ++i < length ) ... else { ...; break } }],
    entered when [length > 0]: [step i more] is the body at index [i],
    [more] telling which branch of the final test is taken. *)
Fixpoint iterate_until (i further : nat) (step : nat -> bool -> M unit)
  : M unit :=
  match further with
  | O => step i false
  | S f => step i true ;; iterate_until (S i) f step
  end.

Definition loop_until (start : nat) (length : value)
           (step : nat -> bool -> M unit) : M unit :=
  n <- lift (to_number length) ;;
  match n with
  | Some z => iterate_until start (Z.to_nat (z - Z.of_nat start) - 1) step
  | None => step start false
  end.

(** ** Dispatch through the generator

    [this[ key ]( node, state )]: a formatter receives the table it was
    found in as [this], here as the function that looks a key up and calls
    the entry. *)
Definition Dispatch : Type := string -> value -> M unit.
Definition Formatter : Type := Dispatch -> value -> M unit.
Definition Generator : Type := list (string * Formatter).

(** [this[ node.type ]( node, state )] *)
Definition call (this : Dispatch) (node : value) : M unit :=
  type <- field node "type" ;;
  this (to_str type) node.

(** [this[ node.k.type ]( node.k, state )] *)
Definition emit (this : Dispatch) (node : value) (k : string) : M unit :=
  child <- field node k ;;
  call this child.

(* ===================================================================== *)
(** * The program *)
(* ===================================================================== *)

Definition OPERATOR_PRECEDENCE : list (string * Z) :=
  [ ("||", 3); ("&&", 4); ("|", 5); ("^", 6); ("&", 7);
    ("==", 8); ("!=", 8); ("===", 8); ("!==", 8);
    ("<", 9); (">", 9); ("<=", 9); (">=", 9); ("in", 9); ("instanceof", 9);
    ("<<", 10); (">>", 10); (">>>", 10);
    ("+", 11); ("-", 11);
    ("*", 12); ("%", 12); ("/", 12);
    ("**", 13) ]%Z.

Definition EXPRESSIONS_PRECEDENCE : list (string * Z) :=
  [ ("ArrayExpression", 20); ("TaggedTemplateExpression", 20);
    ("ThisExpression", 20); ("Identifier", 20); ("Literal", 18);
    ("TemplateLiteral", 20); ("Super", 20); ("SequenceExpression", 20);
    ("MemberExpression", 19); ("CallExpression", 19); ("NewExpression", 19);
    ("ArrowFunctionExpression", 18);
    ("ClassExpression", 17); ("FunctionExpression", 17);
    ("ObjectExpression", 17);
    ("UpdateExpression", 16); ("UnaryExpression", 15);
    ("BinaryExpression", 14); ("LogicalExpression", 13);
    ("ConditionalExpression", 4); ("AssignmentExpression", 3);
    ("YieldExpression", 2); ("RestElement", 1) ]%Z.

(** [EXPRESSIONS_PRECEDENCE[ node.type ]] *)
Definition precedence (type : value) : slot Z :=
  lookup EXPRESSIONS_PRECEDENCE (to_str type).

(** [OPERATOR_PRECEDENCE[ node.operator ]] *)
Definition operator_precedence (operator : value) : slot Z :=
  lookup OPERATOR_PRECEDENCE (to_str operator).

Definition formatSequence (generator : Dispatch) (nodes : value) : M unit :=
  write "(" ;;
  (if nullish nodes then ret tt
   else
     len <- field nodes "length" ;;
     nonempty <- gt_num len 0 ;;
     when nonempty
       (first <- item nodes 0 ;;
        call generator first ;;
        length <- field nodes "length" ;;
        for_loop 1 length (fun i =>
          param <- item nodes i ;;
          write ", " ;;
          call generator param))) ;;
  write ")".

Definition expressionNeedsParenthesis (node parentNode : value)
           (isRightHand : bool) : M bool :=
  type <- field node "type" ;;
  let nodePrecedence := precedence type in
  parentType <- field parentNode "type" ;;
  let parentNodePrecedence := precedence parentType in
  if slot_neq nodePrecedence parentNodePrecedence
  then lift (slot_lt nodePrecedence parentNodePrecedence)
  else if negb (slot_is nodePrecedence 13) && negb (slot_is nodePrecedence 14)
  then ret false
  else
    operator <- field node "operator" ;;
    parentOperator <- field parentNode "operator" ;;
    if is_str operator "**" && is_str parentOperator "**"
    then ret (negb isRightHand)
    else if isRightHand
    then lift (slot_le (operator_precedence operator)
                       (operator_precedence parentOperator))
    else lift (slot_lt (operator_precedence operator)
                       (operator_precedence parentOperator)).

Definition formatBinaryExpressionPart (generator : Dispatch)
           (node parentNode : value) (isRightHand : bool) : M unit :=
  parens <- expressionNeedsParenthesis node parentNode isRightHand ;;
  if parens
  then write "(" ;; call generator node ;; write ")"
  else call generator node.

(** The loop of [reindent] over the characters of the trimmed text: [Some]
    is the [return] inside the loop, with the value of [indents] there;
    [None] is the loop running to its end. *)
Fixpoint reindent_loop (text : string) (secondLine : bool) (indents : string)
  : option string :=
  match text with
  | "" => None
  | String char rest =>
      if secondLine then
        if Ascii.eqb char space || Ascii.eqb char tab
        then reindent_loop rest true (indents ++ String char "")
        else Some indents
      else
        if Ascii.eqb char newline
        then reindent_loop rest true indents
        else reindent_loop rest false indents
  end.

Definition reindent_text (text indentation : string) : string :=
  let text := trimRight text in
  match reindent_loop text false LF with
  | Some indents =>
      indentation ++ join (LF ++ indentation) (split indents (trimLeft text))
  | None => indentation ++ trimLeft text
  end.

Definition reindent (text : value) (indentation : string) : M string :=
  s <- lift (as_string text) ;;
  ret (reindent_text s indentation).

Definition formatComments (comments : value) (indent lineEnd : string)
  : M unit :=
  length <- field comments "length" ;;
  for_loop 0 length (fun i =>
    comment <- item comments i ;;
    write indent ;;
    type <- field comment "type" ;;
    initial <- item type 0 ;;
    if is_str initial "L"
    then
      v <- field comment "value" ;;
      s <- lift (as_string v) ;;
      write ("// " ++ trim s ++ LF)
    else
      v <- field comment "value" ;;
      body <- reindent v indent ;;
      write ("/*" ++ lineEnd ++ body ++ lineEnd ++ indent ++ "*/" ++ lineEnd)).

(** [if ( writeComments && node.k != null )
       formatComments( state, node.k, indent, lineEnd )] *)
Definition comments_at (writeComments : bool) (node : value) (k : string)
           (indent lineEnd : string) : M unit :=
  if writeComments then
    comments <- field node k ;;
    when (negb (nullish comments)) (formatComments comments indent lineEnd)
  else ret tt.

(** The loop of [hasCallExpression] follows [node.object], a property of
    the object at hand; [follow] finds it ([hasCallExpression_loop] below
    states the loop with [get]).  When the loop ends on a [null] node the
    function returns [undefined], which its caller reads as false. *)
Fixpoint hasCallExpression (node : value) : outcome bool :=
  match node with
  | VUndefined | VNull => Ok false
  | VObj props =>
      let type := match assoc "type" props with
                  | Some t => t
                  | None => VUndefined
                  end in
      match idx type 0, idx type 1, idx type 2 with
      | Ok c0, Ok c1, Ok c2 =>
          if is_str c0 "C" && is_str c1 "a" then Ok true
          else if is_str c0 "M" && is_str c1 "e" && is_str c2 "m" then
            (fix follow (ps : list (string * value)) : outcome bool :=
               match ps with
               | [] => Ok false
               | (k, v) :: ps' =>
                   if k =? "object" then hasCallExpression v
                   else follow ps'
               end) props
          else Ok false
      | _, _, _ => Throw TypeError
      end
  | VBool _ | VNum _ | VStr _ | VArr _ => Throw TypeError
  end.

(** ** The formatters of [defaultGenerator] *)

Definition Program (this : Dispatch) (node : value) : M unit :=
  unit_ <- gets indent ;;
  level <- gets indentLevel ;;
  indent <- lift (repeat unit_ level) ;;
  lineEnd <- gets lineEnd ;;
  writeComments <- gets writeComments ;;
  comments_at writeComments node "comments" indent lineEnd ;;
  statements <- field node "body" ;;
  length <- field statements "length" ;;
  for_loop 0 length (fun i =>
    statement <- item statements i ;;
    comments_at writeComments statement "comments" indent lineEnd ;;
    write indent ;;
    call this statement ;;
    write lineEnd) ;;
  comments_at writeComments node "trailingComments" indent lineEnd.

Definition BlockStatement (this : Dispatch) (node : value) : M unit :=
  unit_ <- gets indent ;;
  indent <- indent_then_increment ;;
  lineEnd <- gets lineEnd ;;
  writeComments <- gets writeComments ;;
  let statementIndent := indent ++ unit_ in
  write "{" ;;
  statements <- field node "body" ;;
  nonempty <- (if nullish statements then ret false
               else len <- field statements "length" ;; gt_num len 0) ;;
  (if nonempty then
     write lineEnd ;;
     comments_at writeComments node "comments" statementIndent lineEnd ;;
     length <- field statements "length" ;;
     for_loop 0 length (fun i =>
       statement <- item statements i ;;
       comments_at writeComments statement "comments" statementIndent lineEnd ;;
       write statementIndent ;;
       call this statement ;;
       write lineEnd) ;;
     write indent
   else if writeComments then
     comments <- field node "comments" ;;
     when (negb (nullish comments))
       (write lineEnd ;;
        formatComments comments statementIndent lineEnd ;;
        write indent)
   else ret tt) ;;
  comments_at writeComments node "trailingComments" statementIndent lineEnd ;;
  write "}" ;;
  add_indentLevel (-1).

Definition EmptyStatement (this : Dispatch) (node : value) : M unit :=
  write ";".

Definition ExpressionStatement (this : Dispatch) (node : value) : M unit :=
  expression <- field node "expression" ;;
  type <- field expression "type" ;;
  let precedence := precedence type in
  parens <- (if slot_is precedence 17 then ret true
             else if slot_is precedence 3 then
               left <- field expression "left" ;;
               leftType <- field left "type" ;;
               initial <- item leftType 0 ;;
               ret (is_str initial "O")
             else ret false) ;;
  (if parens
   then write "(" ;; call this expression ;; write ")"
   else call this expression) ;;
  write ";".

Definition IfStatement (this : Dispatch) (node : value) : M unit :=
  write "if (" ;;
  emit this node "test" ;;
  write ") " ;;
  emit this node "consequent" ;;
  alternate <- field node "alternate" ;;
  when (negb (nullish alternate))
    (write " else " ;; call this alternate).

Definition LabeledStatement (this : Dispatch) (node : value) : M unit :=
  emit this node "label" ;;
  write ": " ;;
  emit this node "body".

Definition BreakStatement (this : Dispatch) (node : value) : M unit :=
  write "break" ;;
  label <- field node "label" ;;
  when (negb (nullish label)) (write " " ;; call this label) ;;
  write ";".

Definition ContinueStatement (this : Dispatch) (node : value) : M unit :=
  write "continue" ;;
  label <- field node "label" ;;
  when (negb (nullish label)) (write " " ;; call this label) ;;
  write ";".

Definition WithStatement (this : Dispatch) (node : value) : M unit :=
  write "with (" ;;
  emit this node "object" ;;
  write ") " ;;
  emit this node "body".

Definition SwitchStatement (this : Dispatch) (node : value) : M unit :=
  unit_ <- gets indent ;;
  indent <- indent_then_increment ;;
  lineEnd <- gets lineEnd ;;
  writeComments <- gets writeComments ;;
  add_indentLevel 1 ;;
  let caseIndent := indent ++ unit_ in
  let statementIndent := caseIndent ++ unit_ in
  write "switch (" ;;
  emit this node "discriminant" ;;
  write (") {" ++ lineEnd) ;;
  occurences <- field node "cases" ;;
  occurencesCount <- field occurences "length" ;;
  for_loop 0 occurencesCount (fun i =>
    occurence <- item occurences i ;;
    comments_at writeComments occurence "comments" caseIndent lineEnd ;;
    test <- field occurence "test" ;;
    (if truthy test then
       write (caseIndent ++ "case ") ;;
       call this test ;;
       write (":" ++ lineEnd)
     else write (caseIndent ++ "default:" ++ lineEnd)) ;;
    consequent <- field occurence "consequent" ;;
    consequentCount <- field consequent "length" ;;
    for_loop 0 consequentCount (fun j =>
      statement <- item consequent j ;;
      comments_at writeComments statement "comments" statementIndent lineEnd ;;
      write statementIndent ;;
      call this statement ;;
      write lineEnd)) ;;
  add_indentLevel (-2) ;;
  write (indent ++ "}").

Definition ReturnStatement (this : Dispatch) (node : value) : M unit :=
  write "return" ;;
  argument <- field node "argument" ;;
  when (truthy argument) (write " " ;; call this argument) ;;
  write ";".

Definition ThrowStatement (this : Dispatch) (node : value) : M unit :=
  write "throw " ;;
  emit this node "argument" ;;
  write ";".

Definition TryStatement (this : Dispatch) (node : value) : M unit :=
  write "try " ;;
  emit this node "block" ;;
  handler <- field node "handler" ;;
  when (truthy handler)
    (write " catch (" ;;
     emit this handler "param" ;;
     write ") " ;;
     emit this handler "body") ;;
  finalizer <- field node "finalizer" ;;
  when (truthy finalizer) (write " finally " ;; call this finalizer).

Definition WhileStatement (this : Dispatch) (node : value) : M unit :=
  write "while (" ;;
  emit this node "test" ;;
  write ") " ;;
  emit this node "body".

Definition DoWhileStatement (this : Dispatch) (node : value) : M unit :=
  write "do " ;;
  emit this node "body" ;;
  write " while (" ;;
  emit this node "test" ;;
  write ");".

Definition ForStatement (this : Dispatch) (node : value) : M unit :=
  write "for (" ;;
  init <- field node "init" ;;
  when (negb (nullish init))
    (modify (set_noTrailingSemicolon true) ;;
     call this init ;;
     modify (set_noTrailingSemicolon false)) ;;
  write "; " ;;
  test <- field node "test" ;;
  when (truthy test) (call this test) ;;
  write "; " ;;
  update <- field node "update" ;;
  when (truthy update) (call this update) ;;
  write ") " ;;
  emit this node "body".

Definition ForInStatement (this : Dispatch) (node : value) : M unit :=
  write "for (" ;;
  left <- field node "left" ;;
  type <- field left "type" ;;
  modify (set_noTrailingSemicolon true) ;;
  this (to_str type) left ;;
  modify (set_noTrailingSemicolon false) ;;
  nodeType <- field node "type" ;;
  letter <- item nodeType 3 ;;
  write (if is_str letter "I" then " in " else " of ") ;;
  emit this node "right" ;;
  write ") " ;;
  emit this node "body".

Definition DebuggerStatement (this : Dispatch) (node : value) : M unit :=
  lineEnd <- gets lineEnd ;;
  write ("debugger;" ++ lineEnd).

Definition FunctionDeclaration (this : Dispatch) (node : value) : M unit :=
  async <- field node "async" ;;
  generator <- field node "generator" ;;
  id <- field node "id" ;;
  name <- (if truthy id then n <- field id "name" ;; ret (to_str n)
           else ret "") ;;
  write ((if truthy async then "async " else "") ++
         (if truthy generator then "function* " else "function ") ++
         name) ;;
  params <- field node "params" ;;
  formatSequence this params ;;
  write " " ;;
  emit this node "body".

Definition VariableDeclaration (this : Dispatch) (node : value) : M unit :=
  declarations <- field node "declarations" ;;
  kind <- field node "kind" ;;
  write (to_str kind ++ " ") ;;
  length <- field declarations "length" ;;
  nonempty <- gt_num length 0 ;;
  when nonempty
    (first <- item declarations 0 ;;
     this "VariableDeclarator" first ;;
     for_loop 1 length (fun i =>
       write ", " ;;
       declaration <- item declarations i ;;
       this "VariableDeclarator" declaration)) ;;
  flag <- gets noTrailingSemicolon ;;
  when (negb flag) (write ";").

Definition VariableDeclarator (this : Dispatch) (node : value) : M unit :=
  emit this node "id" ;;
  init <- field node "init" ;;
  when (negb (nullish init)) (write " = " ;; call this init).

Definition ClassDeclaration (this : Dispatch) (node : value) : M unit :=
  id <- field node "id" ;;
  name <- (if truthy id then n <- field id "name" ;; ret (to_str n)
           else ret " ") ;;
  write ("class " ++ name) ;;
  superClass <- field node "superClass" ;;
  when (truthy superClass)
    (write "extends " ;; call this superClass ;; write " ") ;;
  body <- field node "body" ;;
  this "ClassBody" body.

(** The [while] loop of [ImportDeclaration] over the default and namespace
    specifiers; it returns the index it stops at.  [todo] is
    [length - i]. *)
Fixpoint import_leading (specifiers : value) (i todo : nat) : M nat :=
  match todo with
  | O => ret i
  | S todo' =>
      when (0 <? i)%nat (write ", ") ;;
      specifier <- item specifiers i ;;
      specifierType <- field specifier "type" ;;
      type <- item specifierType 6 ;;
      if is_str type "D" then
        local <- field specifier "local" ;;
        name <- field local "name" ;;
        write name ;;
        import_leading specifiers (S i) todo'
      else if is_str type "N" then
        local <- field specifier "local" ;;
        name <- field local "name" ;;
        write ("* as " ++ to_str name) ;;
        import_leading specifiers (S i) todo'
      else ret i
  end.

Definition ImportDeclaration (this : Dispatch) (node : value) : M unit :=
  write "import " ;;
  specifiers <- field node "specifiers" ;;
  length <- field specifiers "length" ;;
  nonempty <- gt_num length 0 ;;
  when nonempty
    (n <- lift (to_number length) ;;
     let count := match n with Some z => Z.to_nat z | None => O end in
     i <- import_leading specifiers 0 count ;;
     when (i <? count)%nat
       (write "{" ;;
        iterate_until i (count - i - 1) (fun i more =>
          specifier <- item specifiers i ;;
          imported <- field specifier "imported" ;;
          name <- field imported "name" ;;
          write name ;;
          local <- field specifier "local" ;;
          localName <- field local "name" ;;
          same <- lift (strict_eq name localName) ;;
          when (negb same) (write (" as " ++ to_str localName)) ;;
          when more (write ", ")) ;;
        write "}") ;;
     write " from ") ;;
  source <- field node "source" ;;
  this "Literal" source ;;
  write ";".

Definition ExportDefaultDeclaration (this : Dispatch) (node : value)
  : M unit :=
  write "export default " ;;
  declaration <- field node "declaration" ;;
  call this declaration ;;
  type <- field declaration "type" ;;
  semicolon <- (if slot_truthy (precedence type)
                then initial <- item type 0 ;; ret (negb (is_str initial "F"))
                else ret false) ;;
  when semicolon (write ";").

Definition ExportNamedDeclaration (this : Dispatch) (node : value)
  : M unit :=
  write "export " ;;
  declaration <- field node "declaration" ;;
  if truthy declaration then call this declaration
  else
    write "{" ;;
    specifiers <- field node "specifiers" ;;
    length <- field specifiers "length" ;;
    nonempty <- gt_num length 0 ;;
    when nonempty
      (loop_until 0 length (fun i more =>
         specifier <- item specifiers i ;;
         local <- field specifier "local" ;;
         name <- field local "name" ;;
         write name ;;
         exported <- field specifier "exported" ;;
         exportedName <- field exported "name" ;;
         same <- lift (strict_eq name exportedName) ;;
         when (negb same) (write (" as " ++ to_str exportedName)) ;;
         when more (write ", "))) ;;
    write "}" ;;
    source <- field node "source" ;;
    when (truthy source) (write " from " ;; this "Literal" source) ;;
    write ";".

Definition ExportAllDeclaration (this : Dispatch) (node : value) : M unit :=
  write "export * from " ;;
  source <- field node "source" ;;
  this "Literal" source ;;
  write ";".

Definition MethodDefinition (this : Dispatch) (node : value) : M unit :=
  static <- field node "static" ;;
  when (truthy static) (write "static ") ;;
  nodeKind <- field node "kind" ;;
  kind <- item nodeKind 0 ;;
  when (is_str kind "g" || is_str kind "s") (write (to_str nodeKind ++ " ")) ;;
  value <- field node "value" ;;
  async <- field value "async" ;;
  when (truthy async) (write "async ") ;;
  generator <- field value "generator" ;;
  when (truthy generator) (write "*") ;;
  computed <- field node "computed" ;;
  (if truthy computed
   then write "[" ;; emit this node "key" ;; write "]"
   else emit this node "key") ;;
  params <- field value "params" ;;
  formatSequence this params ;;
  write " " ;;
  emit this value "body".

Definition ClassExpression (this : Dispatch) (node : value) : M unit :=
  this "ClassDeclaration" node.

Definition ArrowFunctionExpression (this : Dispatch) (node : value)
  : M unit :=
  params <- field node "params" ;;
  async <- field node "async" ;;
  when (truthy async) (write "async ") ;;
  when (negb (nullish params))
    (length <- field params "length" ;;
     single <- (if is_num length 1 then
                  first <- item params 0 ;;
                  type <- field first "type" ;;
                  initial <- item type 0 ;;
                  ret (is_str initial "I")
                else ret false) ;;
     if single then
       first <- item params 0 ;;
       name <- field first "name" ;;
       write name
     else formatSequence this params) ;;
  write " => " ;;
  body <- field node "body" ;;
  type <- field body "type" ;;
  initial <- item type 0 ;;
  if is_str initial "O"
  then write "(" ;; this "ObjectExpression" body ;; write ")"
  else call this body.

Definition ThisExpression (this : Dispatch) (node : value) : M unit :=
  write "this".

Definition Super (this : Dispatch) (node : value) : M unit :=
  write "super".

Definition RestElement (this : Dispatch) (node : value) : M unit :=
  write "..." ;;
  emit this node "argument".

Definition YieldExpression (this : Dispatch) (node : value) : M unit :=
  delegate <- field node "delegate" ;;
  write (if truthy delegate then "yield*" else "yield") ;;
  argument <- field node "argument" ;;
  when (truthy argument) (write " " ;; call this argument).

Definition AwaitExpression (this : Dispatch) (node : value) : M unit :=
  write "await " ;;
  argument <- field node "argument" ;;
  when (truthy argument) (call this argument).

(** [quasis[ quasis.length - 1 ]]: a negative or NaN index names an
    ordinary property, which an array or a string does not have. *)
Definition last_quasi (quasis : value) : M value :=
  length <- field quasis "length" ;;
  n <- lift (to_number length) ;;
  match n with
  | Some z =>
      if (1 <=? z)%Z then item quasis (Z.to_nat (z - 1))
      else field quasis (string_of_Z (z - 1))
  | None => field quasis "NaN"
  end.

Definition TemplateLiteral (this : Dispatch) (node : value) : M unit :=
  quasis <- field node "quasis" ;;
  expressions <- field node "expressions" ;;
  write "`" ;;
  length <- field expressions "length" ;;
  for_loop 0 length (fun i =>
    expression <- item expressions i ;;
    quasi <- item quasis i ;;
    quasiValue <- field quasi "value" ;;
    raw <- field quasiValue "raw" ;;
    write raw ;;
    write "${" ;;
    call this expression ;;
    write "}") ;;
  quasi <- last_quasi quasis ;;
  quasiValue <- field quasi "value" ;;
  raw <- field quasiValue "raw" ;;
  write raw ;;
  write "`".

Definition TaggedTemplateExpression (this : Dispatch) (node : value)
  : M unit :=
  emit this node "tag" ;;
  emit this node "quasi".

Definition ArrayExpression (this : Dispatch) (node : value) : M unit :=
  write "[" ;;
  elements <- field node "elements" ;;
  length <- field elements "length" ;;
  nonempty <- gt_num length 0 ;;
  when nonempty
    (loop_until 0 length (fun i more =>
       element <- item elements i ;;
       when (negb (nullish element)) (call this element) ;;
       if more then write ", "
       else when (nullish element) (write ", "))) ;;
  write "]".

Definition ObjectExpression (this : Dispatch) (node : value) : M unit :=
  unit_ <- gets indent ;;
  indent <- indent_then_increment ;;
  lineEnd <- gets lineEnd ;;
  writeComments <- gets writeComments ;;
  let propertyIndent := indent ++ unit_ in
  write "{" ;;
  properties <- field node "properties" ;;
  length <- field properties "length" ;;
  nonempty <- gt_num length 0 ;;
  (if nonempty then
     write lineEnd ;;
     comments_at writeComments node "comments" propertyIndent lineEnd ;;
     let comma := "," ++ lineEnd in
     loop_until 0 length (fun i more =>
       property <- item properties i ;;
       comments_at writeComments property "comments" propertyIndent lineEnd ;;
       write propertyIndent ;;
       this "Property" property ;;
       when more (write comma)) ;;
     write lineEnd ;;
     comments_at writeComments node "trailingComments" propertyIndent lineEnd ;;
     write (indent ++ "}")
   else if writeComments then
     comments <- field node "comments" ;;
     trailingComments <- field node "trailingComments" ;;
     if negb (nullish comments) then
       write lineEnd ;;
       formatComments comments propertyIndent lineEnd ;;
       when (negb (nullish trailingComments))
         (formatComments trailingComments propertyIndent lineEnd) ;;
       write (indent ++ "}")
     else if negb (nullish trailingComments) then
       write lineEnd ;;
       formatComments trailingComments propertyIndent lineEnd ;;
       write (indent ++ "}")
     else write "}"
   else write "}") ;;
  add_indentLevel (-1).

Definition Property (this : Dispatch) (node : value) : M unit :=
  method <- field node "method" ;;
  isMethod <- (if truthy method then ret true
               else
                 kind <- field node "kind" ;;
                 initial <- item kind 0 ;;
                 ret (negb (is_str initial "i"))) ;;
  if isMethod then this "MethodDefinition" node
  else
    shorthand <- field node "shorthand" ;;
    when (negb (truthy shorthand))
      (computed <- field node "computed" ;;
       (if truthy computed
        then write "[" ;; emit this node "key" ;; write "]"
        else emit this node "key") ;;
       write ": ") ;;
    emit this node "value".

Definition ObjectPattern (this : Dispatch) (node : value) : M unit :=
  write "{" ;;
  properties <- field node "properties" ;;
  length <- field properties "length" ;;
  nonempty <- gt_num length 0 ;;
  when nonempty
    (loop_until 0 length (fun i more =>
       property <- item properties i ;;
       call this property ;;
       when more (write ", "))) ;;
  write "}".

Definition SequenceExpression (this : Dispatch) (node : value) : M unit :=
  expressions <- field node "expressions" ;;
  formatSequence this expressions.

Definition UnaryExpression (this : Dispatch) (node : value) : M unit :=
  prefix <- field node "prefix" ;;
  if truthy prefix then
    operator <- field node "operator" ;;
    write operator ;;
    length <- field operator "length" ;;
    long <- gt_num length 1 ;;
    when long (write " ") ;;
    argument <- field node "argument" ;;
    type <- field argument "type" ;;
    parens <- lift (slot_lt (precedence type)
                            (precedence "UnaryExpression")) ;;
    if parens
    then write "(" ;; call this argument ;; write ")"
    else call this argument
  else
    emit this node "argument" ;;
    operator <- field node "operator" ;;
    write operator.

Definition UpdateExpression (this : Dispatch) (node : value) : M unit :=
  prefix <- field node "prefix" ;;
  if truthy prefix then
    operator <- field node "operator" ;;
    write operator ;;
    emit this node "argument"
  else
    emit this node "argument" ;;
    operator <- field node "operator" ;;
    write operator.

Definition AssignmentExpression (this : Dispatch) (node : value) : M unit :=
  emit this node "left" ;;
  operator <- field node "operator" ;;
  write (" " ++ to_str operator ++ " ") ;;
  emit this node "right".

Definition AssignmentPattern (this : Dispatch) (node : value) : M unit :=
  emit this node "left" ;;
  write " = " ;;
  emit this node "right".

Definition BinaryExpression (this : Dispatch) (node : value) : M unit :=
  operator <- field node "operator" ;;
  if is_str operator "in" then
    write "(" ;;
    left <- field node "left" ;;
    formatBinaryExpressionPart this left node false ;;
    write (" " ++ to_str operator ++ " ") ;;
    right <- field node "right" ;;
    formatBinaryExpressionPart this right node true ;;
    write ")"
  else
    left <- field node "left" ;;
    formatBinaryExpressionPart this left node false ;;
    write (" " ++ to_str operator ++ " ") ;;
    right <- field node "right" ;;
    formatBinaryExpressionPart this right node true.

Definition ConditionalExpression (this : Dispatch) (node : value) : M unit :=
  test <- field node "test" ;;
  type <- field test "type" ;;
  bare <- lift (slot_lt (precedence "ConditionalExpression")
                        (precedence type)) ;;
  (if bare
   then call this test
   else write "(" ;; call this test ;; write ")") ;;
  write " ? " ;;
  emit this node "consequent" ;;
  write " : " ;;
  emit this node "alternate".

Definition NewExpression (this : Dispatch) (node : value) : M unit :=
  write "new " ;;
  callee <- field node "callee" ;;
  type <- field callee "type" ;;
  lower <- lift (slot_lt (precedence type) (precedence "CallExpression")) ;;
  parens <- (if lower then ret true else lift (hasCallExpression callee)) ;;
  (if parens
   then write "(" ;; call this callee ;; write ")"
   else call this callee) ;;
  arguments <- field node "arguments" ;;
  formatSequence this arguments.

Definition CallExpression (this : Dispatch) (node : value) : M unit :=
  callee <- field node "callee" ;;
  type <- field callee "type" ;;
  parens <- lift (slot_lt (precedence type) (precedence "CallExpression")) ;;
  (if parens
   then write "(" ;; call this callee ;; write ")"
   else call this callee) ;;
  arguments <- field node "arguments" ;;
  formatSequence this arguments.

Definition MemberExpression (this : Dispatch) (node : value) : M unit :=
  object <- field node "object" ;;
  type <- field object "type" ;;
  parens <- lift (slot_lt (precedence type)
                          (precedence "MemberExpression")) ;;
  (if parens
   then write "(" ;; call this object ;; write ")"
   else call this object) ;;
  computed <- field node "computed" ;;
  if truthy computed
  then write "[" ;; emit this node "property" ;; write "]"
  else write "." ;; emit this node "property".

Definition MetaProperty (this : Dispatch) (node : value) : M unit :=
  meta <- field node "meta" ;;
  metaName <- field meta "name" ;;
  property <- field node "property" ;;
  propertyName <- field property "name" ;;
  write (to_str metaName ++ "." ++ to_str propertyName).

Definition Identifier (this : Dispatch) (node : value) : M unit :=
  name <- field node "name" ;;
  write name.

Definition Literal (this : Dispatch) (node : value) : M unit :=
  raw <- field node "raw" ;;
  if negb (nullish raw) then write raw
  else
    regex <- field node "regex" ;;
    if negb (nullish regex) then this "RegExpLiteral" node
    else
      v <- field node "value" ;;
      text <- lift (stringify v) ;;
      write text.

Definition RegExpLiteral (this : Dispatch) (node : value) : M unit :=
  regex <- field node "regex" ;;
  pattern <- field regex "pattern" ;;
  flags <- field regex "flags" ;;
  patternText <- lift (stringify pattern) ;;
  flagsText <- lift (stringify flags) ;;
  write ("new RegExp(" ++ to_str patternText ++ ", " ++ to_str flagsText ++ ")").

Definition defaultGenerator : Generator :=
  [ ("Program", Program);
    ("BlockStatement", BlockStatement);
    ("ClassBody", BlockStatement);
    ("EmptyStatement", EmptyStatement);
    ("ExpressionStatement", ExpressionStatement);
    ("IfStatement", IfStatement);
    ("LabeledStatement", LabeledStatement);
    ("BreakStatement", BreakStatement);
    ("ContinueStatement", ContinueStatement);
    ("WithStatement", WithStatement);
    ("SwitchStatement", SwitchStatement);
    ("ReturnStatement", ReturnStatement);
    ("ThrowStatement", ThrowStatement);
    ("TryStatement", TryStatement);
    ("WhileStatement", WhileStatement);
    ("DoWhileStatement", DoWhileStatement);
    ("ForStatement", ForStatement);
    ("ForInStatement", ForInStatement);
    ("ForOfStatement", ForInStatement);
    ("DebuggerStatement", DebuggerStatement);
    ("FunctionDeclaration", FunctionDeclaration);
    ("FunctionExpression", FunctionDeclaration);
    ("VariableDeclaration", VariableDeclaration);
    ("VariableDeclarator", VariableDeclarator);
    ("ClassDeclaration", ClassDeclaration);
    ("ImportDeclaration", ImportDeclaration);
    ("ExportDefaultDeclaration", ExportDefaultDeclaration);
    ("ExportNamedDeclaration", ExportNamedDeclaration);
    ("ExportAllDeclaration", ExportAllDeclaration);
    ("MethodDefinition", MethodDefinition);
    ("ClassExpression", ClassExpression);
    ("ArrowFunctionExpression", ArrowFunctionExpression);
    ("ThisExpression", ThisExpression);
    ("Super", Super);
    ("RestElement", RestElement);
    ("SpreadElement", RestElement);
    ("YieldExpression", YieldExpression);
    ("AwaitExpression", AwaitExpression);
    ("TemplateLiteral", TemplateLiteral);
    ("TaggedTemplateExpression", TaggedTemplateExpression);
    ("ArrayExpression", ArrayExpression);
    ("ArrayPattern", ArrayExpression);
    ("ObjectExpression", ObjectExpression);
    ("Property", Property);
    ("ObjectPattern", ObjectPattern);
    ("SequenceExpression", SequenceExpression);
    ("UnaryExpression", UnaryExpression);
    ("UpdateExpression", UpdateExpression);
    ("AssignmentExpression", AssignmentExpression);
    ("AssignmentPattern", AssignmentPattern);
    ("BinaryExpression", BinaryExpression);
    ("LogicalExpression", BinaryExpression);
    ("ConditionalExpression", ConditionalExpression);
    ("NewExpression", NewExpression);
    ("CallExpression", CallExpression);
    ("MemberExpression", MemberExpression);
    ("MetaProperty", MetaProperty);
    ("Identifier", Identifier);
    ("Literal", Literal);
    ("RegExpLiteral", RegExpLiteral) ].

(** ** Calling an entry of the generator *)

(** The members of [Object.prototype] called as [f( node, state )] on the
    generator.  [__defineGetter__] and [__defineSetter__] reject [state],
    which is no function, and [__proto__] is no function itself; the others
    return without touching [state].  [toLocaleString] calls
    [this.toString()], which is left out when the generator has a
    formatter of that name. *)
Definition call_inherited (generator : Generator) (name : string) : M unit :=
  if mem name ["__defineGetter__"; "__defineSetter__"; "__proto__"]
  then throw TypeError
  else if (name =? "toLocaleString")
          && match assoc "toString" generator with
             | Some _ => true
             | None => false
             end
  then lift Unmodelled
  else ret tt.

(** [generator[ key ]( node, state )]: a call of [undefined] throws a
    [TypeError]; a formatter runs with the generator as [this].  [fuel]
    bounds the depth of nested formatter calls. *)
Fixpoint dispatch (fuel : nat) (generator : Generator) (key : string)
         (node : value) : M unit :=
  match lookup generator key with
  | Missing => throw TypeError
  | Inherited name => call_inherited generator name
  | Own formatter =>
      match fuel with
      | O => lift OutOfFuel
      | S fuel' => formatter (dispatch fuel' generator) node
      end
  end.

(** ** [State] and [astring] *)

Record Options : Type := mkOptions {
  opt_output : option (list value);
  opt_generator : option Generator;
  opt_sourcemap : bool;
  opt_indent : option string;
  opt_lineEnd : option string;
  opt_startingIndentLevel : option Z;
  opt_comments : bool
}.

(** The [EMPTY_OBJECT] setup. *)
Definition no_options : Options :=
  mkOptions None None false None None None false.

Definition or_default {A : Type} (o : option A) (d : A) : A :=
  match o with
  | Some a => a
  | None => d
  end.

(** [new State( options )], with the output and the generator it
    selects. *)
Definition new_State (options : option Options) : State * sink * Generator :=
  let setup := or_default options no_options in
  ({| sourceMap := opt_sourcemap setup;
      line := 1;
      column := 0;
      indent := or_default (opt_indent setup) TAB;
      lineEnd := or_default (opt_lineEnd setup) LF;
      indentLevel := or_default (opt_startingIndentLevel setup) 0%Z;
      writeComments := opt_comments setup;
      noTrailingSemicolon := false |},
   match opt_output setup with
   | Some written => Stream written
   | None => Buffer ""
   end,
   or_default (opt_generator setup) defaultGenerator).

(** [astring( node, options )] returns [state.output].  [fuel] is the
    depth of formatter calls allowed: by [dispatch_fuel] below a result
    does not depend on it, and by [astring_enough] four times the depth of
    the node and four more is enough for [defaultGenerator]. *)
Definition returned (output : sink)
           (run : outcome (unit * State * list value)) : outcome sink :=
  match run with
  | Ok (_, _, written) => Ok (sink_write output written)
  | Throw e => Throw e
  | Unmodelled => Unmodelled
  | OutOfFuel => OutOfFuel
  end.

Definition astring (fuel : nat) (node : value) (options : option Options)
  : outcome sink :=
  let '(state, output, generator) := new_State options in
  returned output (call (dispatch fuel generator) node state).

Unset Implicit Arguments.

(** ** Writing with positions *)




(** ** Building nodes *)

Definition node_of (type : string) (props : list (string * value)) : value :=
  VObj (("type", VStr type) :: props).

Definition ident (name : string) : value :=
  node_of "Identifier" [("name", VStr name)].

Definition literal (raw : string) : value :=
  node_of "Literal" [("raw", VStr raw)].

Definition binary (type operator : string) (left right : value) : value :=
  node_of type [("operator", VStr operator); ("left", left); ("right", right)].

Definition statement (expression : value) : value :=
  node_of "ExpressionStatement" [("expression", expression)].

Definition block_of (statements : list value) : value :=
  node_of "BlockStatement" [("body", VArr statements)].

Definition object_of (properties : list value) : value :=
  node_of "ObjectExpression" [("properties", VArr properties)].



Definition var_declaration (name : string) (init : value) : value :=
  node_of "VariableDeclaration"
    [ ("kind", VStr "var");
      ("declarations",
       VArr [node_of "VariableDeclarator" [("id", ident name); ("init", init)]]) ].

Definition for_statement (init body : value) : value :=
  node_of "ForStatement" [("init", init); ("body", body)].

(** ** The nodes and options of the examples *)

Definition pow_chain : value :=
  statement (binary "BinaryExpression" "**" (literal "2")
               (binary "BinaryExpression" "**" (literal "3") (literal "4"))).

Definition or_then_and : value :=
  statement (binary "LogicalExpression" "&&"
               (binary "LogicalExpression" "||" (ident "a") (ident "b"))
               (ident "c")).

Definition two_pow_three : value :=
  binary "BinaryExpression" "**" (literal "2") (literal "3").

Definition arrow_statement : value :=
  statement
    (node_of "ArrowFunctionExpression"
       [ ("params", VArr [ident "x"]);
         ("body", node_of "ObjectExpression" [("properties", VArr [])]) ]).

Definition bare_arrow : value :=
  node_of "ArrowFunctionExpression"
    [("params", VNull); ("async", VBool true); ("body", ident "y")].

Definition counting_for : value :=
  node_of "ForStatement"
    [ ("init",
       node_of "VariableDeclaration"
         [ ("kind", VStr "let");
           ("declarations",
            VArr [node_of "VariableDeclarator"
                    [("id", ident "i"); ("init", literal "0")]]) ]);
      ("test", binary "BinaryExpression" "<" (ident "i") (literal "10"));
      ("update",
       node_of "UpdateExpression"
         [("operator", VStr "++"); ("prefix", VBool false);
          ("argument", ident "i")]);
      ("body", block_of []) ].

Definition nested_for : value :=
  for_statement
    (var_declaration "f"
       (node_of "FunctionExpression"
          [ ("params", VArr []);
            ("body",
             block_of
               [for_statement (var_declaration "i" VNull) (block_of [])]) ]))
    (block_of []).

Definition debugger_program : value :=
  node_of "Program"
    [("body", VArr [node_of "DebuggerStatement" []; node_of "EmptyStatement" []])].

(** A node handed to [level_probe], which writes the level it is called
    at in place of the node. *)
Definition child : value := node_of "Child" [].

(** A generator that only knows how to write literals. *)
Definition literals_only : Generator := [("Literal", Literal)].

Definition literals_only_options : Options :=
  mkOptions None (Some literals_only) false None None None false.

Definition initial_state : State := fst (fst (new_State None)).


(* ===================================================================== *)
(** * The specification *)
(* ===================================================================== *)

(** [needsParens] of section 4.2 of the specification, on the types and
    operators of child and parent. *)
Definition needsParens (type parentType operator parentOperator : value)
           (isRight : bool) : outcome bool :=
  if slot_neq (precedence type) (precedence parentType)
  then slot_lt (precedence type) (precedence parentType)
  else if slot_is (precedence type) 13 || slot_is (precedence type) 14
  then
    if is_str operator "**" && is_str parentOperator "**"
    then Ok (negb isRight)
    else if isRight
    then slot_le (operator_precedence operator)
                 (operator_precedence parentOperator)
    else slot_lt (operator_precedence operator)
                 (operator_precedence parentOperator)
  else Ok false.

(** A type string that begins with a given letter. *)
Definition begins_with (type : value) (letter : string) : bool :=
  match idx type 0 with
  | Ok initial => is_str initial letter
  | _ => false
  end.

(** The statement-head condition of section 4.3: the expression is a
    class, function or object expression (the kinds of precedence 17), or
    an assignment whose left side has a type beginning with [O]. *)
Definition statement_head_parens (expression : value) : bool :=
  match get expression "type" with
  | Ok type =>
      mem (to_str type)
          [ "ClassExpression"; "FunctionExpression"; "ObjectExpression" ]
      || ((to_str type =? "AssignmentExpression")
          && match get expression "left" with
             | Ok target =>
                 match get target "type" with
                 | Ok leftType => begins_with leftType "O"
                 | _ => false
                 end
             | _ => false
             end)
  | _ => false
  end.

(** A comment record [{ type, value }] of section 3.2. *)
Record comment : Type := mkComment {
  comment_type : string;
  comment_value : string
}.

Definition comment_node (c : comment) : value :=
  VObj [("type", VStr (comment_type c)); ("value", VStr (comment_value c))].

(** The text after the first newline, if there is one. *)
Fixpoint after_first_newline (s : string) : option string :=
  match s with
  | "" => None
  | String c s' =>
      if Ascii.eqb c newline then Some s' else after_first_newline s'
  end.

(** The run of spaces and tabs a text begins with. *)
Fixpoint spaces_and_tabs (s : string) : string :=
  match s with
  | "" => ""
  | String c s' =>
      if Ascii.eqb c space || Ascii.eqb c tab
      then String c (spaces_and_tabs s')
      else ""
  end.

(** The re-indent algorithm of section 4.7: trim the trailing white space;
    [P] is the run of spaces and tabs after the first newline; trim the
    leading white space, split on newline-[P], join with newline-[indent];
    the first line gets [indent] too.  Without a newline the trimmed body
    is prefixed with [indent]. *)
Definition reindent_spec (body indent : string) : string :=
  let trimmed := trimRight body in
  match after_first_newline trimmed with
  | Some rest =>
      let P := spaces_and_tabs rest in
      indent ++ join (LF ++ indent) (split (LF ++ P) (trimLeft trimmed))
  | None => indent ++ trimLeft trimmed
  end.

(** What section 4.7 has the comment formatter emit for one comment. *)
Definition comment_text (indent lineEnd : string) (c : comment) : string :=
  match String.get 0 (comment_type c) with
  | Some "L"%char => indent ++ "// " ++ trim (comment_value c) ++ LF
  | _ =>
      indent ++ "/*" ++ lineEnd ++ reindent_spec (comment_value c) indent
      ++ lineEnd ++ indent ++ "*/" ++ lineEnd
  end.

(* ===================================================================== *)
(** * Assertions on computations *)
(* ===================================================================== *)

(** [hoare P m Q]: when [m] returns from a state in [P], it leaves a state
    in [Q]. *)
Definition hoare {A : Type} (P : State -> Prop) (m : M A) (Q : State -> Prop)
  : Prop :=
  forall st a st' w, P st -> m st = Ok (a, st', w) -> Q st'.

Definition keeps {A : Type} (P : State -> Prop) (m : M A) : Prop :=
  hoare P m P.


Definition at_level (n : Z) : State -> Prop :=
  fun st => indentLevel st = n.

(** [refines m1 m2]: where [m1] does not run out of fuel, [m2] runs as
    [m1] does. *)
Definition refines {A : Type} (m1 m2 : M A) : Prop :=
  forall st, m1 st <> OutOfFuel -> m2 st = m1 st.

Definition monotone (f : Formatter) : Prop :=
  forall this1 this2 : Dispatch,
    (forall key node, refines (this1 key node) (this2 key node)) ->
    forall node, refines (f this1 node) (f this2 node).

(** The depth of a value: 0 for a primitive value. *)
Fixpoint depth (v : value) : nat :=
  match v with
  | VArr elems => S (list_max (map depth elems))
  | VObj props => S (list_max (map (fun p => depth (snd p)) props))
  | _ => 0
  end.

(** [safe m]: [m] does not run out of fuel. *)
Definition safe {A : Type} (m : M A) : Prop :=
  forall st, m st <> OutOfFuel.

(** How many calls under a fixed key a formatter of [defaultGenerator] may
    start a chain of: [ArrowFunctionExpression] calls [ObjectExpression],
    which calls [Property], which calls [MethodDefinition]. *)
Definition delegations : list (string * nat) :=
  [ ("ArrowFunctionExpression", 3);
    ("ObjectExpression", 2); ("ClassExpression", 2);
    ("ImportDeclaration", 2); ("ExportNamedDeclaration", 2);
    ("ExportAllDeclaration", 2);
    ("ClassDeclaration", 1); ("Property", 1); ("Literal", 1);
    ("VariableDeclaration", 1) ].

Definition delegation (key : string) : nat :=
  match assoc key delegations with
  | Some n => n
  | None => 0
  end.

(** The fuel a call of [defaultGenerator] on [key] and [node] needs. *)
Definition enough (fuel : nat) (key : string) (node : value) : Prop :=
  match lookup defaultGenerator key with
  | Own _ => 4 * depth node + delegation key + 1 <= fuel
  | _ => True
  end.

(** A node a formatter may be called on under its own type, with the
    fuel at hand. *)
Definition callable (fuel : nat) (node : value) : Prop :=
  depth node = 0 \/ 4 * depth node + 4 <= fuel.

(** A formatter found under [key] does not run out of fuel when the
    formatters it calls do not, given the fuel they need. *)
Definition descends (key : string) (f : Formatter) : Prop :=
  forall (this : Dispatch) (fuel : nat) (node : value),
    (forall key' node', enough fuel key' node' -> safe (this key' node')) ->
    4 * depth node + delegation key <= fuel ->
    safe (f this node).



Fixpoint only_spaces_and_tabs (s : string) : bool :=
  match s with
  | "" => true
  | String c s' =>
      (Ascii.eqb c space || Ascii.eqb c tab) && only_spaces_and_tabs s'
  end.

(** What [formatComments] writes for one comment. *)
Definition comment_written (indent lineEnd : string) (c : comment)
  : list value :=
  [ VStr indent;
    VStr (match String.get 0 (comment_type c) with
          | Some "L"%char => "// " ++ trim (comment_value c) ++ LF
          | _ =>
              "/*" ++ lineEnd ++ reindent_text (comment_value c) indent
              ++ lineEnd ++ indent ++ "*/" ++ lineEnd
          end) ].

(* ===================================================================== *)
(** * Further notions *)
(* ===================================================================== *)

(** ** The state *)





(** [norange n m]: from the level [n], [m] does not throw a
    [RangeError]. *)
Definition norange {A : Type} (n : Z) (m : M A) : Prop :=
  forall st, indentLevel st = n -> m st <> Throw RangeError.


(** Two states that agree on what the formatters read: all but the source
    map, the line and the column. *)
Definition same_view (st1 st2 : State) : Prop :=
  indent st1 = indent st2 /\ lineEnd st1 = lineEnd st2
  /\ indentLevel st1 = indentLevel st2
  /\ writeComments st1 = writeComments st2
  /\ noTrailingSemicolon st1 = noTrailingSemicolon st2.

(** Two runs with the same result and the same output, ending in states
    that agree. *)
Definition alike {A : Type} (r1 r2 : outcome (A * State * list value))
  : Prop :=
  match r1, r2 with
  | Ok (a1, st1, w1), Ok (a2, st2, w2) =>
      a1 = a2 /\ w1 = w2 /\ same_view st1 st2
  | Throw e1, Throw e2 => e1 = e2
  | Unmodelled, Unmodelled => True
  | OutOfFuel, OutOfFuel => True
  | _, _ => False
  end.

(** [uniform m]: [m] runs alike from states that agree. *)
Definition uniform {A : Type} (m : M A) : Prop :=
  forall st1 st2, same_view st1 st2 -> alike (m st1) (m st2).

(** A formatter that runs alike from states that agree, when the
    formatters it calls do. *)
Definition regular (f : Formatter) : Prop :=
  forall this : Dispatch,
    (forall key node, uniform (this key node)) ->
    forall node, uniform (f this node).

(** ** Texts *)

(** What is written for a list of items with a separator between them. *)
Definition separated (sep : string) (texts : list (list value)) : list value :=
  match texts with
  | [] => []
  | w :: ws => w ++ flat_map (fun w' => VStr sep :: w') ws
  end.

(** The expression kinds whose precedence is below, or above, a given one. *)
Definition below (n : Z) : list string :=
  map fst (filter (fun entry => (snd entry <? n)%Z) EXPRESSIONS_PRECEDENCE).

Definition above (n : Z) : list string :=
  map fst (filter (fun entry => (n <? snd entry)%Z) EXPRESSIONS_PRECEDENCE).

(** [text] between parentheses, or as it is. *)
Definition wrap (parens : bool) (text : string) : string :=
  if parens then "(" ++ text ++ ")" else text.

(** [root.p1.p2...]: member expressions nested on their object side, the
    last property first. *)
Fixpoint member_chain (root : value) (properties : list value) : value :=
  match properties with
  | [] => root
  | property :: rest =>
      node_of "MemberExpression"
        [("object", member_chain root rest); ("property", property)]
  end.

(** The text of a template: the raw texts of its quasis with the
    expressions between them. *)
Fixpoint template_text (raws expressions : list string) : string :=
  match raws, expressions with
  | raw :: raws', expression :: expressions' =>
      raw ++ "${" ++ expression ++ "}" ++ template_text raws' expressions'
  | raw :: _, [] => raw
  | [], _ => ""
  end.

(** A quasi whose raw text is [raw]. *)
Definition has_raw (quasi raw : value) : Prop :=
  exists v, get quasi "value" = Ok v /\ get v "raw" = Ok raw.

(** The specifiers of an import declaration. *)
Inductive specifier : Type :=
| ImportDefault (local : string)
| ImportNamespace (local : string)
| ImportNamed (imported local : string).

Definition specifier_node (s : specifier) : value :=
  match s with
  | ImportDefault local =>
      node_of "ImportDefaultSpecifier" [("local", ident local)]
  | ImportNamespace local =>
      node_of "ImportNamespaceSpecifier" [("local", ident local)]
  | ImportNamed imported local =>
      node_of "ImportSpecifier"
        [("imported", ident imported); ("local", ident local)]
  end.

Definition named (s : specifier) : bool :=
  match s with
  | ImportNamed _ _ => true
  | _ => false
  end.

Definition specifier_text (s : specifier) : string :=
  match s with
  | ImportDefault local => local
  | ImportNamespace local => "* as " ++ local
  | ImportNamed imported local =>
      if imported =? local then imported else imported ++ " as " ++ local
  end.

(** The import clause: the default and namespace specifiers, then the
    named ones between braces. *)
Definition import_clause (leading rest : list specifier) : string :=
  match (leading ++ rest)%list with
  | [] => ""
  | _ =>
      join ", "
           (List.app (map specifier_text leading)
                     match rest with
                     | [] => []
                     | _ => ["{" ++ join ", " (map specifier_text rest) ++ "}"]
                     end)
      ++ " from "
  end.

(** What [ImportDeclaration] writes for the specifiers outside the braces
    that follow [before] others. *)
Definition leading_written (before : nat) (s : specifier) : list value :=
  ((if (0 <? before)%nat then [VStr ", "] else [])
   ++ [VStr (specifier_text s)])%list.

Definition named_written (more : bool) (s : specifier) : list value :=
  match s with
  | ImportNamed imported local =>
      (VStr imported
       :: (if imported =? local then [] else [VStr (" as " ++ local)])
       ++ (if more then [VStr ", "] else []))%list
  | _ => []
  end.

Fixpoint leading_log (before : nat) (leading : list specifier) : list value :=
  match leading with
  | [] => []
  | s :: leading' =>
      (leading_written before s ++ leading_log (S before) leading')%list
  end.

(** ** Properties the program does not read *)

(** [erase drop v]: the value [v] without the properties whose names
    [drop] selects, at every depth. *)
Fixpoint erase (drop : string -> bool) (v : value) : value :=
  match v with
  | VArr elems => VArr (map (erase drop) elems)
  | VObj props =>
      VObj ((fix over (ps : list (string * value)) : list (string * value) :=
               match ps with
               | [] => []
               | (k, x) :: ps' =>
                   if drop k then over ps' else (k, erase drop x) :: over ps'
               end) props)
  | _ => v
  end.

(** The property names the program reads, the two of comments apart. *)
Definition core_fields : list string :=
  [ "type"; "length"; "body"; "expression"; "left"; "right"; "test";
    "consequent"; "alternate"; "label"; "object"; "discriminant"; "cases";
    "argument"; "block"; "handler"; "param"; "finalizer"; "init"; "update";
    "async"; "generator"; "id"; "name"; "params"; "declarations"; "kind";
    "superClass"; "specifiers"; "local"; "imported"; "exported"; "source";
    "declaration"; "static"; "value"; "computed"; "key"; "delegate";
    "quasis"; "expressions"; "raw"; "tag"; "quasi"; "elements";
    "properties"; "method"; "shorthand"; "prefix"; "operator"; "callee";
    "arguments"; "property"; "meta"; "regex"; "pattern"; "flags"; "NaN" ].

Definition comment_fields : list string := [ "comments"; "trailingComments" ].

(** A name that begins as a number prints: with a digit or a minus sign. *)
Definition numeric (k : string) : bool :=
  match k with
  | "" => false
  | String c _ =>
      let n := nat_of_ascii c in
      ((48 <=? n) && (n <=? 57) || (n =? 45))%nat
  end.


(** Two runs that differ by the properties erased from what was written. *)
Definition erased_run {A : Type} (drop : string -> bool) (wc : bool)
           (R : A -> A -> Prop) (r1 r2 : outcome (A * State * list value))
  : Prop :=
  match r2 with
  | Ok (a2, st2, w2) =>
      exists a1,
        r1 = Ok (a1, st2, map (erase drop) w2) /\ R a1 a2
        /\ writeComments st2 = wc
  | Throw e => r1 = Throw e
  | Unmodelled => r1 = Unmodelled
  | OutOfFuel => r1 = OutOfFuel
  end.

(** [sim drop wc R m1 m2]: from a state whose [writeComments] is [wc], [m1]
    runs as [m2] does, up to the properties erased. *)
Definition sim {A : Type} (drop : string -> bool) (wc : bool)
           (R : A -> A -> Prop) (m1 m2 : M A) : Prop :=
  forall st, writeComments st = wc -> erased_run drop wc R (m1 st) (m2 st).

Definition erased (drop : string -> bool) : value -> value -> Prop :=
  fun a1 a2 => a1 = erase drop a2.

(** A formatter that does not look at erased properties, when the
    formatters it calls do not. *)
Definition blind (drop : string -> bool) (wc : bool) (f : Formatter) : Prop :=
  forall this : Dispatch,
    (forall key node,
        sim drop wc eq (this key (erase drop node)) (this key node)) ->
    forall node, sim drop wc eq (f this (erase drop node)) (f this node).

Definition without_comments : value -> value :=
  erase (fun k => mem k comment_fields).


(** ** Well-formed trees

    What the formatters of [defaultGenerator] need of a tree, as a check
    that can be run: a node is an object; where a formatter writes a child
    under the child's own type, the child is a node with a type the
    generator has, well formed for that type; where it calls a fixed
    formatter, the child is well formed for that one. *)

(** A check of a node, given the check of the nodes below it for a key of
    the generator. *)
Definition shape : Type := (string -> value -> bool) -> value -> bool.

Definition is_object (v : value) : bool :=
  match v with
  | VObj _ => true
  | _ => false
  end.

Definition is_text (v : value) : bool :=
  match v with
  | VStr _ => true
  | _ => false
  end.

(** Neither an object nor an array. *)
Definition primitive (v : value) : bool :=
  match v with
  | VArr _ | VObj _ => false
  | _ => true
  end.

(** [v.k], for an object [v]. *)
Definition prop (k : string) (v : value) : value :=
  match get v k with
  | Ok x => x
  | _ => VUndefined
  end.

(** [v[i]], for a string or an array [v]. *)
Definition char_at (i : nat) (v : value) : value :=
  match idx v i with
  | Ok c => c
  | _ => VUndefined
  end.

(** A node written under its own type. *)
Definition typed (child : string -> value -> bool) (v : value) : bool :=
  is_object v
  && match prop "type" v with
     | VStr type => child type v
     | _ => false
     end.

Definition anything : shape := fun _ _ => true.

Definition all (shapes : list shape) : shape :=
  fun child v => forallb (fun s : shape => s child v) shapes.

Definition node_at (k : string) : shape :=
  fun child v => typed child (prop k v).

Definition maybe_at (k : string) : shape :=
  fun child v => nullish (prop k v) || typed child (prop k v).

Definition nodes_at (k : string) : shape :=
  fun child v =>
    match prop k v with
    | VArr l => forallb (typed child) l
    | _ => false
    end.

(** A list of nodes that may be missing, as [formatSequence] takes it. *)
Definition node_list (child : string -> value -> bool) (x : value) : bool :=
  match x with
  | VArr l => forallb (typed child) l
  | _ => false
  end.

Definition maybe_nodes_at (k : string) : shape :=
  fun child v => nullish (prop k v) || node_list child (prop k v).

Definition holes_at (k : string) : shape :=
  fun child v =>
    match prop k v with
    | VArr l => forallb (fun e => nullish e || typed child e) l
    | _ => false
    end.

(** A child written by the formatter found under [key]. *)
Definition as_at (key k : string) : shape :=
  fun child v => child key (prop k v).

Definition maybe_as_at (key k : string) : shape :=
  fun child v => nullish (prop k v) || child key (prop k v).

Definition each_as (key k : string) : shape :=
  fun child v =>
    match prop k v with
    | VArr l => forallb (child key) l
    | _ => false
    end.

(** The node itself, written by the formatter found under [key]. *)
Definition itself_as (key : string) : shape :=
  fun child v => child key v.

Definition text_at (k : string) : shape :=
  fun _ v => is_text (prop k v).

(** An object that is no node of its own, such as a [SwitchCase]. *)
Definition inside (k : string) (s : shape) : shape :=
  fun child v => is_object (prop k v) && s child (prop k v).

Definition maybe_inside (k : string) (s : shape) : shape :=
  fun child v =>
    nullish (prop k v) || (is_object (prop k v) && s child (prop k v)).

Definition each_inside (k : string) (s : shape) : shape :=
  fun child v =>
    match prop k v with
    | VArr l => forallb (fun e => is_object e && s child e) l
    | _ => false
    end.

(** An identifier with its name. *)
Definition has_name (k : string) (v : value) : bool :=
  is_object (prop k v) && is_text (prop "name" (prop k v)).

Definition named_by (k : string) : shape :=
  fun _ v => has_name k v.

(** A binary or logical operator. *)
Definition operator_at : shape :=
  fun _ v =>
    match prop "operator" v with
    | VStr operator => mem operator (map fst OPERATOR_PRECEDENCE)
    | _ => false
    end.

(** The body of an arrow function: one whose type begins with [O] is
    written as an object expression. *)
Definition arrow_body : shape :=
  fun child v =>
    let body := prop "body" v in
    typed child body
    && (if is_str (char_at 0 (prop "type" body)) "O"
        then child "ObjectExpression" body
        else true).

(** A property is written as a method when it is one, and when its kind
    does not begin with [i]. *)
Definition property : shape :=
  fun child v =>
    if truthy (prop "method" v) then child "MethodDefinition" v
    else
      is_text (prop "kind" v)
      && (if is_str (char_at 0 (prop "kind" v)) "i"
          then node_at "key" child v && node_at "value" child v
          else child "MethodDefinition" v).

(** A literal with its raw text, a regular expression, or a value that is
    neither an object nor an array. *)
Definition literal_value : shape :=
  fun child v =>
    if nullish (prop "raw" v) then
      if nullish (prop "regex" v) then primitive (prop "value" v)
      else child "RegExpLiteral" v
    else true.

Definition regular_expression : shape :=
  inside "regex"
    (fun _ regex =>
       primitive (prop "pattern" regex) && primitive (prop "flags" regex)).

(** One more quasi than expressions. *)
Definition template : shape :=
  fun child v =>
    match prop "quasis" v, prop "expressions" v with
    | VArr quasis, VArr expressions =>
        forallb (fun quasi => is_object quasi && is_object (prop "value" quasi))
                quasis
        && forallb (typed child) expressions
        && (List.length quasis =? S (List.length expressions))%nat
    | _, _ => false
    end.

(** The specifiers of an import: the default and namespace specifiers
    come first; once a named one is met, every specifier is read as a
    named one. *)
Fixpoint specifiers_in_order (named : bool) (l : list value) : bool :=
  match l with
  | [] => true
  | s :: l' =>
      let letter := char_at 6 (prop "type" s) in
      let leading := negb named && (is_str letter "D" || is_str letter "N") in
      is_object s && is_text (prop "type" s)
      && has_name "local" s
      && (leading || has_name "imported" s)
      && specifiers_in_order (negb leading) l'
  end.

Definition import_specifiers : shape :=
  fun _ v =>
    match prop "specifiers" v with
    | VArr l => specifiers_in_order false l
    | _ => false
    end.

Definition grammar : list (string * shape) :=
  [ ("Program", nodes_at "body");
    ("BlockStatement", nodes_at "body");
    ("ClassBody", nodes_at "body");
    ("EmptyStatement", anything);
    ("ExpressionStatement", node_at "expression");
    ("IfStatement",
     all [node_at "test"; node_at "consequent"; maybe_at "alternate"]);
    ("LabeledStatement", all [node_at "label"; node_at "body"]);
    ("BreakStatement", maybe_at "label");
    ("ContinueStatement", maybe_at "label");
    ("WithStatement", all [node_at "object"; node_at "body"]);
    ("SwitchStatement",
     all [ node_at "discriminant";
           each_inside "cases" (all [maybe_at "test"; nodes_at "consequent"]) ]);
    ("ReturnStatement", maybe_at "argument");
    ("ThrowStatement", node_at "argument");
    ("TryStatement",
     all [ node_at "block";
           maybe_inside "handler" (all [node_at "param"; node_at "body"]);
           maybe_at "finalizer" ]);
    ("WhileStatement", all [node_at "test"; node_at "body"]);
    ("DoWhileStatement", all [node_at "body"; node_at "test"]);
    ("ForStatement",
     all [ maybe_at "init"; maybe_at "test"; maybe_at "update";
           node_at "body" ]);
    ("ForInStatement",
     all [text_at "type"; node_at "left"; node_at "right"; node_at "body"]);
    ("ForOfStatement",
     all [text_at "type"; node_at "left"; node_at "right"; node_at "body"]);
    ("DebuggerStatement", anything);
    ("FunctionDeclaration",
     all [maybe_at "id"; maybe_nodes_at "params"; node_at "body"]);
    ("FunctionExpression",
     all [maybe_at "id"; maybe_nodes_at "params"; node_at "body"]);
    ("VariableDeclaration", each_as "VariableDeclarator" "declarations");
    ("VariableDeclarator", all [node_at "id"; maybe_at "init"]);
    ("ClassDeclaration",
     all [maybe_at "id"; maybe_at "superClass"; as_at "ClassBody" "body"]);
    ("ImportDeclaration", all [import_specifiers; as_at "Literal" "source"]);
    ("ExportDefaultDeclaration", node_at "declaration");
    ("ExportNamedDeclaration",
     all [ maybe_at "declaration";
           each_inside "specifiers"
             (all [named_by "local"; named_by "exported"]);
           maybe_as_at "Literal" "source" ]);
    ("ExportAllDeclaration", as_at "Literal" "source");
    ("MethodDefinition",
     all [ text_at "kind"; node_at "key";
           inside "value" (all [maybe_nodes_at "params"; node_at "body"]) ]);
    ("ClassExpression", itself_as "ClassDeclaration");
    ("ArrowFunctionExpression", all [maybe_nodes_at "params"; arrow_body]);
    ("ThisExpression", anything);
    ("Super", anything);
    ("RestElement", node_at "argument");
    ("SpreadElement", node_at "argument");
    ("YieldExpression", maybe_at "argument");
    ("AwaitExpression", maybe_at "argument");
    ("TemplateLiteral", template);
    ("TaggedTemplateExpression", all [node_at "tag"; node_at "quasi"]);
    ("ArrayExpression", holes_at "elements");
    ("ArrayPattern", holes_at "elements");
    ("ObjectExpression", each_as "Property" "properties");
    ("Property", property);
    ("ObjectPattern", nodes_at "properties");
    ("SequenceExpression", maybe_nodes_at "expressions");
    ("UnaryExpression", all [text_at "operator"; node_at "argument"]);
    ("UpdateExpression", node_at "argument");
    ("AssignmentExpression", all [node_at "left"; node_at "right"]);
    ("AssignmentPattern", all [node_at "left"; node_at "right"]);
    ("BinaryExpression", all [operator_at; node_at "left"; node_at "right"]);
    ("LogicalExpression", all [operator_at; node_at "left"; node_at "right"]);
    ("ConditionalExpression",
     all [node_at "test"; node_at "consequent"; node_at "alternate"]);
    ("NewExpression", all [node_at "callee"; maybe_nodes_at "arguments"]);
    ("CallExpression", all [node_at "callee"; maybe_nodes_at "arguments"]);
    ("MemberExpression", all [node_at "object"; node_at "property"]);
    ("MetaProperty", all [inside "meta" anything; inside "property" anything]);
    ("Identifier", anything);
    ("Literal", literal_value);
    ("RegExpLiteral", regular_expression) ].

(** A tree that is well formed, for the formatter found under [key], down
    to [n] levels of nodes. *)
Fixpoint well_formed (n : nat) (key : string) (node : value) : bool :=
  match n with
  | O => false
  | S n' =>
      is_object node
      && match assoc key grammar with
         | Some s => s (well_formed n') node
         | None => false
         end
  end.

(** [sound m]: without comments to write, [m] throws no [TypeError], does
    nothing that is left out of the model, and leaves no comments to
    write. *)
Definition sound_run {A : Type} (r : outcome (A * State * list value))
  : Prop :=
  match r with
  | Ok (_, st', _) => writeComments st' = false
  | Throw TypeError => False
  | Throw RangeError => True
  | Unmodelled => False
  | OutOfFuel => True
  end.

Definition sound {A : Type} (m : M A) : Prop :=
  forall st, writeComments st = false -> sound_run (m st).

Definition harmless {A : Type} (o : outcome A) : Prop :=
  o <> Throw TypeError /\ o <> Unmodelled.

(** A computation that is sound and returns a value with [Q]. *)
Definition sound_with {A : Type} (Q : A -> Prop) (m : M A) : Prop :=
  forall st,
    writeComments st = false ->
    match m st with
    | Ok (a, st', _) => writeComments st' = false /\ Q a
    | Throw TypeError => False
    | Throw RangeError => True
    | Unmodelled => False
    | OutOfFuel => True
    end.

(** A specifier read as a named one. *)
Definition named_specifier (s : value) : bool :=
  is_object s && has_name "local" s && has_name "imported" s.


(** ** More nodes *)

(** The formatters of [defaultGenerator], for trees of depth one. *)
Definition formatters : Dispatch := dispatch 8 defaultGenerator.

Definition indented_state : State := set_indentLevel 1 initial_state.

Definition call_of (callee : value) (arguments : list value) : value :=
  node_of "CallExpression"
    [("callee", callee); ("arguments", VArr arguments)].

Definition member_of (object property : value) : value :=
  node_of "MemberExpression" [("object", object); ("property", property)].

Definition a_plus_b : value := binary "BinaryExpression" "+" (ident "a") (ident "b").

Definition array_with_hole : value :=
  node_of "ArrayExpression" [("elements", VArr [ident "a"; VNull])].

Definition two_statements : value :=
  node_of "Program"
    [("body", VArr [statement (ident "a"); node_of "EmptyStatement" []])].

Definition init_property : value :=
  node_of "Property"
    [("key", ident "a"); ("value", literal "1"); ("kind", VStr "init")].

Definition negated_sum : value :=
  node_of "UnaryExpression"
    [("prefix", VBool true); ("operator", VStr "typeof"); ("argument", a_plus_b)].

Definition new_of_call : value :=
  node_of "NewExpression"
    [ ("callee", member_of (call_of (ident "f") []) (ident "g"));
      ("arguments", VArr [ident "a"]) ].

Definition choice : value :=
  node_of "ConditionalExpression"
    [ ("test",
       node_of "AssignmentExpression"
         [("operator", VStr "="); ("left", ident "a"); ("right", ident "b")]);
      ("consequent", ident "c");
      ("alternate", ident "d") ].

Definition product_of_sum : value :=
  binary "BinaryExpression" "*" a_plus_b (ident "c").

Definition two_declarators : value :=
  node_of "VariableDeclaration"
    [ ("kind", VStr "let");
      ("declarations",
       VArr [ node_of "VariableDeclarator"
                [("id", ident "i"); ("init", literal "0")];
              node_of "VariableDeclarator" [("id", ident "j")] ]) ].

Definition quasi (raw : string) : value :=
  node_of "TemplateElement" [("value", VObj [("raw", VStr raw)])].

Definition greeting : value :=
  node_of "TemplateLiteral"
    [ ("quasis", VArr [quasi "Hello "; quasi "!"]);
      ("expressions", VArr [ident "name"]) ].

Definition derived_class : value :=
  node_of "ClassDeclaration"
    [ ("id", ident "A");
      ("superClass", ident "B");
      ("body", node_of "ClassBody" [("body", VArr [])]) ].

Definition mixed_import : value :=
  node_of "ImportDeclaration"
    [ ("specifiers",
       VArr (map specifier_node
               [ImportDefault "d"; ImportNamed "a" "a"; ImportNamed "b" "c"]));
      ("source", literal "'m'") ].

Definition named_function : value :=
  node_of "FunctionDeclaration"
    [ ("async", VBool true);
      ("id", ident "f");
      ("params", VArr [ident "x"; ident "y"]);
      ("body", block_of []) ].

Definition commented_statement : value :=
  VObj [ ("type", VStr "ExpressionStatement");
         ("comments",
          VArr [VObj [("type", VStr "Line"); ("value", VStr " note")]]);
         ("expression", ident "a") ].



Definition if_else (test consequent alternate : value) : value :=
  node_of "IfStatement"
    [("test", test); ("consequent", consequent); ("alternate", alternate)].

Definition regex_literal : value :=
  node_of "Literal"
    [("regex", VObj [("pattern", VStr "a+"); ("flags", VStr "g")])].

Definition block_comment : string :=
  "first" ++ LF ++ "  second" ++ "  ".

(* ===================================================================== *)
(** * Running computations *)
(* ===================================================================== *)

Lemma bind_Ok {A B : Type} (m : M A) (k : A -> M B) st b st2 w :
  bind m k st = Ok (b, st2, w) ->
  exists a st1 w1 w2,
    m st = Ok (a, st1, w1) /\ k a st1 = Ok (b, st2, w2) /\ w = (w1 ++ w2)%list.
Proof.
  unfold bind. intros H.
  destruct (m st) as [[[a st1] w1] | | |]; try discriminate.
  destruct (k a st1) as [[[b' st2'] w2] | | |] eqn:Hk; try discriminate.
  inversion H; subst. exists a, st1, w1, w2. auto.
Qed.

Lemma bind_run {A B : Type} (m : M A) (k : A -> M B) st a st1 w1 :
  m st = Ok (a, st1, w1) ->
  bind m k st =
  match k a st1 with
  | Ok (b, st2, w2) => Ok (b, st2, (w1 ++ w2)%list)
  | Throw e => Throw e
  | Unmodelled => Unmodelled
  | OutOfFuel => OutOfFuel
  end.
Proof. intros H. unfold bind. rewrite H. reflexivity. Qed.

Lemma lift_Ok {A : Type} (o : outcome A) st a st' w :
  lift o st = Ok (a, st', w) -> o = Ok a /\ st' = st /\ w = [].
Proof.
  unfold lift. destruct o; intros H; try discriminate.
  inversion H; subst. auto.
Qed.

(** ** Rules *)

Section Hoare.

Context {A B : Type}.
Variables P Q R : State -> Prop.

Lemma hoare_bind (m : M A) (k : A -> M B) :
  hoare P m Q -> (forall a, hoare Q (k a) R) -> hoare P (bind m k) R.
Proof.
  intros Hm Hk st b st2 w HP Hrun.
  apply bind_Ok in Hrun as (a & st1 & w1 & w2 & H1 & H2 & _).
  eapply Hk; [ eapply Hm; eassumption | eassumption ].
Qed.

End Hoare.

Section KeepsBasic.

Context {A B : Type}.
Variable P : State -> Prop.

Lemma keeps_ret (a : A) : keeps P (ret a).
Proof. intros st a' st' w HP H. inversion H; subst. exact HP. Qed.

Lemma keeps_lift (o : outcome A) : keeps P (lift o).
Proof.
  intros st a st' w HP H. apply lift_Ok in H as (_ & -> & _). exact HP.
Qed.

Lemma keeps_throw (e : js_error) : keeps P (@throw A e).
Proof. intros st a st' w HP H. discriminate. Qed.

Lemma keeps_gets (f : State -> A) : keeps P (gets f).
Proof. intros st a st' w HP H. inversion H; subst. exact HP. Qed.

Lemma keeps_bind (m : M A) (k : A -> M B) :
  keeps P m -> (forall a, keeps P (k a)) -> keeps P (bind m k).
Proof. intros Hm Hk. eapply hoare_bind; eassumption. Qed.

End KeepsBasic.

Section Keeps.

Variable P : State -> Prop.

Lemma keeps_write v : keeps P (write v).
Proof. intros st a st' w HP H. inversion H; subst. exact HP. Qed.

Lemma keeps_field v k : keeps P (field v k).
Proof. apply keeps_lift. Qed.

Lemma keeps_item v i : keeps P (item v i).
Proof. apply keeps_lift. Qed.

Lemma keeps_gt_num v n : keeps P (gt_num v n).
Proof.
  unfold gt_num. apply keeps_bind; [ apply keeps_lift | intros; apply keeps_ret ].
Qed.

Lemma keeps_when b (m : M unit) : keeps P m -> keeps P (when b m).
Proof. intros H. destruct b; [ exact H | apply keeps_ret ]. Qed.

Lemma keeps_iterate body :
  (forall i, keeps P (body i)) -> forall count i, keeps P (iterate i count body).
Proof.
  intros H count. induction count as [| c IH]; intros i; simpl.
  - apply keeps_ret.
  - apply keeps_bind; [ apply H | intros _; apply IH ].
Qed.

Lemma keeps_for_loop start length body :
  (forall i, keeps P (body i)) -> keeps P (for_loop start length body).
Proof.
  intros H. unfold for_loop.
  apply keeps_bind; [ apply keeps_lift | intros [z |] ].
  - apply keeps_iterate, H.
  - apply keeps_ret.
Qed.

Lemma keeps_iterate_until step :
  (forall i more, keeps P (step i more)) ->
  forall further i, keeps P (iterate_until i further step).
Proof.
  intros H further. induction further as [| f IH]; intros i; simpl.
  - apply H.
  - apply keeps_bind; [ apply H | intros _; apply IH ].
Qed.

Lemma keeps_loop_until start length step :
  (forall i more, keeps P (step i more)) ->
  keeps P (loop_until start length step).
Proof.
  intros H. unfold loop_until.
  apply keeps_bind; [ apply keeps_lift | intros [z |] ].
  - apply keeps_iterate_until, H.
  - apply H.
Qed.

End Keeps.

(** ** Assertions kept by the formatters

    A formatter changes the state through [add_indentLevel] and
    [set_noTrailingSemicolon] only; all it does besides is write, read and
    call other formatters. *)

Ltac keep_step :=
  lazymatch goal with
  | |- keeps _ (bind _ _) => apply keeps_bind; [ | intros ]
  | |- keeps _ (ret _) => apply keeps_ret
  | |- keeps _ (lift _) => apply keeps_lift
  | |- keeps _ (throw _) => apply keeps_throw
  | |- keeps _ (gets _) => apply keeps_gets
  | |- keeps _ (write _) => apply keeps_write
  | |- keeps _ (field _ _) => apply keeps_field
  | |- keeps _ (item _ _) => apply keeps_item
  | |- keeps _ (gt_num _ _) => apply keeps_gt_num
  | |- keeps _ (when _ _) => apply keeps_when
  | |- keeps _ (for_loop _ _ _) => apply keeps_for_loop; intros
  | |- keeps _ (loop_until _ _ _) => apply keeps_loop_until; intros
  | |- keeps _ (iterate_until _ _ _) => apply keeps_iterate_until; intros
  | |- keeps _ (if ?b then _ else _) => destruct b
  | |- keeps _ (match ?x with _ => _ end) => destruct x
  | |- keeps _ _ => solve [ auto with keeps ]
  end.

Ltac keep := repeat keep_step.

Create HintDb keeps.

Section Helpers.

Variable P : State -> Prop.
Variable this : Dispatch.
Hypothesis Hthis : forall key node, keeps P (this key node).

Lemma keeps_call node : keeps P (call this node).
Proof using Hthis. unfold call. keep. Qed.

Lemma keeps_emit node k : keeps P (emit this node k).
Proof using Hthis. unfold emit. keep. apply keeps_call. Qed.

Hint Resolve keeps_call keeps_emit : keeps.

Lemma keeps_formatSequence nodes : keeps P (formatSequence this nodes).
Proof using Hthis. unfold formatSequence. keep. Qed.

Lemma keeps_expressionNeedsParenthesis node parentNode isRightHand :
  keeps P (expressionNeedsParenthesis node parentNode isRightHand).
Proof. unfold expressionNeedsParenthesis. cbv zeta. keep. Qed.

Hint Resolve keeps_formatSequence keeps_expressionNeedsParenthesis : keeps.

Lemma keeps_formatBinaryExpressionPart node parentNode isRightHand :
  keeps P (formatBinaryExpressionPart this node parentNode isRightHand).
Proof using Hthis. unfold formatBinaryExpressionPart. keep. Qed.

Lemma keeps_reindent text indentation : keeps P (reindent text indentation).
Proof. unfold reindent. keep. Qed.

Hint Resolve keeps_reindent : keeps.

Lemma keeps_formatComments comments indent lineEnd :
  keeps P (formatComments comments indent lineEnd).
Proof. unfold formatComments. keep. Qed.

Hint Resolve keeps_formatComments : keeps.

Lemma keeps_comments_at writeComments node k indent lineEnd :
  keeps P (comments_at writeComments node k indent lineEnd).
Proof. unfold comments_at. keep. Qed.

Lemma keeps_import_leading specifiers todo :
  forall i, keeps P (import_leading specifiers i todo).
Proof. induction todo as [| t IH]; intros i; simpl; keep. Qed.

Lemma keeps_last_quasi quasis : keeps P (last_quasi quasis).
Proof. unfold last_quasi. keep. Qed.

End Helpers.

#[export] Hint Resolve keeps_call keeps_emit keeps_formatSequence
  keeps_expressionNeedsParenthesis keeps_formatBinaryExpressionPart
  keeps_reindent keeps_formatComments keeps_comments_at keeps_import_leading
  keeps_last_quasi : keeps.

(** ** The indentation level *)

Lemma hoare_add_indentLevel n d m :
  m = (n + d)%Z -> hoare (at_level n) (add_indentLevel d) (at_level m).
Proof.
  intros -> st a st' w HP H. unfold add_indentLevel, bind, gets, modify in H.
  inversion H; subst. unfold at_level in *. simpl. lia.
Qed.

Lemma hoare_indent_then_increment n :
  hoare (at_level n) indent_then_increment (at_level (n + 1)).
Proof.
  unfold indent_then_increment.
  apply hoare_bind with (Q := at_level n); [ apply keeps_gets | intros unit_ ].
  apply hoare_bind with (Q := at_level n); [ apply keeps_gets | intros level ].
  apply hoare_bind with (Q := at_level (n + 1));
    [ apply hoare_add_indentLevel; reflexivity | intros _ ].
  apply keeps_lift.
Qed.

Lemma keeps_level_flag n b :
  keeps (at_level n) (modify (set_noTrailingSemicolon b)).
Proof. intros st a st' w HP H. inversion H; subst. exact HP. Qed.



Section Levels.

Variable this : Dispatch.
Variable n : Z.






End Levels.

Lemma assoc_In {A : Type} k (l : list (string * A)) a :
  assoc k l = Some a -> In (k, a) l.
Proof.
  induction l as [| [k' a'] l IH]; simpl; [ discriminate | ].
  destruct (String.eqb_spec k' k) as [-> | _].
  - intros [= ->]. auto.
  - auto.
Qed.

Lemma lookup_Own_In {A : Type} (tbl : list (string * A)) k a :
  lookup tbl k = Own a -> In (k, a) tbl.
Proof.
  unfold lookup. destruct (assoc k tbl) eqn:E.
  - intros [= ->]. apply assoc_In, E.
  - destruct (mem k Object_prototype); discriminate.
Qed.




(** ** [hasCallExpression] is its loop *)

Lemma hasCallExpression_loop node :
  hasCallExpression node =
  if nullish node then Ok false
  else
    match get node "type" with
    | Ok type =>
        match idx type 0, idx type 1, idx type 2 with
        | Ok c0, Ok c1, Ok c2 =>
            if is_str c0 "C" && is_str c1 "a" then Ok true
            else if is_str c0 "M" && is_str c1 "e" && is_str c2 "m" then
              match get node "object" with
              | Ok object => hasCallExpression object
              | _ => Throw TypeError
              end
            else Ok false
        | _, _, _ => Throw TypeError
        end
    | _ => Throw TypeError
    end.
Proof.
  destruct node as [| | b | n | s | elems | props]; try reflexivity.
  cbn [hasCallExpression nullish get].
  destruct (idx _ 0) as [c0 | | |]; try reflexivity.
  destruct (idx _ 1) as [c1 | | |]; try reflexivity.
  destruct (idx _ 2) as [c2 | | |]; try reflexivity.
  destruct (is_str c0 "C" && is_str c1 "a"); [ reflexivity | ].
  destruct (is_str c0 "M" && is_str c1 "e" && is_str c2 "m"); [ | reflexivity ].
  induction props as [| [k v] ps IH]; [ reflexivity | ].
  cbn [assoc]. destruct (k =? "object"); [ reflexivity | exact IH ].
Qed.

(** ** The semicolon flag *)










(** [VariableDeclaration] ends with a semicolon exactly when the flag is
    not set as it finishes. *)
Lemma VariableDeclaration_semicolon this node st st' w :
  VariableDeclaration this node st = Ok (tt, st', w) ->
  exists w0,
    w = (w0 ++ if noTrailingSemicolon st' then [] else [VStr ";"])%list.
Proof.
  unfold VariableDeclaration. intros H.
  repeat (apply bind_Ok in H as (? & ? & ? & ? & ? & H & ->)).
  match goal with
  | Hg : gets noTrailingSemicolon _ = Ok _ |- _ => inversion Hg; subst
  end.
  unfold when in H.
  match type of H with
  | (if negb ?flag then _ else _) _ = _ =>
      destruct flag eqn:E; cbn [negb] in H; inversion H; subst; rewrite E
  end;
    eexists; rewrite !app_assoc; reflexivity.
Qed.

(* ===================================================================== *)
(** * The parenthesization oracle *)
(* ===================================================================== *)

Lemma get_total v k x k' : get v k = Ok x -> exists y, get v k' = Ok y.
Proof. destruct v; simpl; intros H; try discriminate; eauto. Qed.

Lemma lift_bind {A B : Type} (o : outcome A) (k : A -> M B) a st :
  o = Ok a -> bind (lift o) k st = k a st.
Proof.
  intros ->. unfold bind, lift.
  destruct (k a st) as [[[b st'] w] | | |]; reflexivity.
Qed.

Lemma field_bind {B : Type} v key (k : value -> M B) x st :
  get v key = Ok x -> bind (field v key) k st = k x st.
Proof. apply lift_bind. Qed.

Lemma expressionNeedsParenthesis_needsParens
      node parent isRight type parentType operator parentOperator st :
  get node "type" = Ok type ->
  get parent "type" = Ok parentType ->
  get node "operator" = Ok operator ->
  get parent "operator" = Ok parentOperator ->
  expressionNeedsParenthesis node parent isRight st
  = lift (needsParens type parentType operator parentOperator isRight) st.
Proof.
  intros Ht Hp Ho Hpo. unfold expressionNeedsParenthesis, needsParens.
  rewrite (field_bind _ _ _ _ _ Ht), (field_bind _ _ _ _ _ Hp).
  destruct (slot_neq _ _); [ reflexivity | ].
  destruct (slot_is (precedence type) 13), (slot_is (precedence type) 14);
    simpl; try reflexivity;
    rewrite (field_bind _ _ _ _ _ Ho), (field_bind _ _ _ _ _ Hpo);
    destruct (is_str operator "**" && is_str parentOperator "**");
    try reflexivity; destruct isRight; reflexivity.
Qed.

(** C1.  The parenthesization oracle follows section 4.2: with different
    expression precedences, parentheses iff the child's is smaller; with
    equal precedences other than 13 and 14, none; with both operators
    [**], iff the child is the left operand; otherwise iff the child's
    operator precedence is at most (right operand) or below (left operand)
    the parent's.  [2 ** 3 ** 4] keeps no parentheses, [(a || b) && c]
    keeps them around the left operand. *)
Theorem expressionNeedsParenthesis_rules :
  (forall node parent isRight type parentType st,
      get node "type" = Ok type ->
      get parent "type" = Ok parentType ->
      slot_neq (precedence type) (precedence parentType) = true ->
      expressionNeedsParenthesis node parent isRight st
      = lift (slot_lt (precedence type) (precedence parentType)) st)
  /\ (forall node parent isRight type parentType st,
      get node "type" = Ok type ->
      get parent "type" = Ok parentType ->
      slot_neq (precedence type) (precedence parentType) = false ->
      slot_is (precedence type) 13 = false ->
      slot_is (precedence type) 14 = false ->
      expressionNeedsParenthesis node parent isRight st = Ok (false, st, []))
  /\ (forall node parent isRight type parentType st,
      get node "type" = Ok type ->
      get parent "type" = Ok parentType ->
      slot_neq (precedence type) (precedence parentType) = false ->
      slot_is (precedence type) 13 = true \/
      slot_is (precedence type) 14 = true ->
      get node "operator" = Ok (VStr "**") ->
      get parent "operator" = Ok (VStr "**") ->
      expressionNeedsParenthesis node parent isRight st
      = Ok (negb isRight, st, []))
  /\ (forall node parent isRight type parentType operator parentOperator st,
      get node "type" = Ok type ->
      get parent "type" = Ok parentType ->
      slot_neq (precedence type) (precedence parentType) = false ->
      slot_is (precedence type) 13 = true \/
      slot_is (precedence type) 14 = true ->
      get node "operator" = Ok operator ->
      get parent "operator" = Ok parentOperator ->
      is_str operator "**" && is_str parentOperator "**" = false ->
      expressionNeedsParenthesis node parent isRight st
      = lift (if isRight
              then slot_le (operator_precedence operator)
                           (operator_precedence parentOperator)
              else slot_lt (operator_precedence operator)
                           (operator_precedence parentOperator)) st)
  /\ (forall k, astring (4 + k) pow_chain None = Ok (Buffer "2 ** 3 ** 4;"))
  /\ (forall k,
      astring (4 + k) or_then_and None = Ok (Buffer "(a || b) && c;")).
Proof.
  refine (conj _ (conj _ (conj _ (conj _ (conj _ _))))).
  - intros node parent isRight type parentType st Ht Hp Hneq.
    destruct (get_total _ _ _ "operator" Ht) as [o Ho].
    destruct (get_total _ _ _ "operator" Hp) as [po Hpo].
    rewrite (expressionNeedsParenthesis_needsParens _ _ isRight _ _ _ _ st Ht Hp Ho Hpo).
    unfold needsParens. rewrite Hneq. reflexivity.
  - intros node parent isRight type parentType st Ht Hp Hneq H13 H14.
    destruct (get_total _ _ _ "operator" Ht) as [o Ho].
    destruct (get_total _ _ _ "operator" Hp) as [po Hpo].
    rewrite (expressionNeedsParenthesis_needsParens _ _ isRight _ _ _ _ st Ht Hp Ho Hpo).
    unfold needsParens. rewrite Hneq, H13, H14. reflexivity.
  - intros node parent isRight type parentType st Ht Hp Hneq H Ho Hpo.
    rewrite (expressionNeedsParenthesis_needsParens _ _ isRight _ _ _ _ st Ht Hp Ho Hpo).
    unfold needsParens. rewrite Hneq.
    replace (slot_is (precedence type) 13 || slot_is (precedence type) 14)
      with true by (destruct H as [-> | ->]; auto using orb_true_r).
    reflexivity.
  - intros node parent isRight type parentType operator parentOperator st
           Ht Hp Hneq H Ho Hpo Hpow.
    rewrite (expressionNeedsParenthesis_needsParens _ _ isRight _ _ _ _ st Ht Hp Ho Hpo).
    unfold needsParens. rewrite Hneq, Hpow.
    replace (slot_is (precedence type) 13 || slot_is (precedence type) 14)
      with true by (destruct H as [-> | ->]; auto using orb_true_r).
    reflexivity.
  - intros k. vm_compute. reflexivity.
  - intros k. vm_compute. reflexivity.
Qed.

(* ===================================================================== *)
(** * Expression statements, arrows and the generator option *)
(* ===================================================================== *)

Lemma precedence_17 type :
  slot_is (precedence type) 17
  = mem (to_str type)
        [ "ClassExpression"; "FunctionExpression"; "ObjectExpression" ].
Proof.
  unfold precedence, lookup, EXPRESSIONS_PRECEDENCE.
  generalize (to_str type) as k. intros k.
  cbn [assoc mem existsb].
  repeat match goal with
         | |- context [String.eqb ?a k] =>
             rewrite (String.eqb_sym a k);
             destruct (String.eqb_spec k a) as [-> | ?]; [ reflexivity | ]
         end.
  cbn.
  match goal with
  | |- context [if ?c then Inherited _ else _] => destruct c
  end; reflexivity.
Qed.

Lemma precedence_3 type :
  slot_is (precedence type) 3 = (to_str type =? "AssignmentExpression").
Proof.
  unfold precedence, lookup, EXPRESSIONS_PRECEDENCE.
  generalize (to_str type) as k. intros k.
  cbn [assoc].
  repeat match goal with
         | |- context [String.eqb ?a k] =>
             rewrite (String.eqb_sym a k);
             destruct (String.eqb_spec k a) as [-> | ?]; [ reflexivity | ]
         end.
  destruct (mem k Object_prototype); reflexivity.
Qed.

Lemma write_bind {B : Type} v (k : unit -> M B) st :
  bind (write v) k st =
  match k tt st with
  | Ok (b, st2, w2) => Ok (b, st2, v :: w2)
  | Throw e => Throw e
  | Unmodelled => Unmodelled
  | OutOfFuel => OutOfFuel
  end.
Proof. reflexivity. Qed.

Lemma ret_bind {A B : Type} (a : A) (k : A -> M B) st :
  bind (ret a) k st = k a st.
Proof.
  unfold bind, ret. destruct (k a st) as [[[b st'] w] | | |]; reflexivity.
Qed.

Lemma item_bind {B : Type} v i (k : value -> M B) x st :
  idx v i = Ok x -> bind (item v i) k st = k x st.
Proof. apply lift_bind. Qed.

Lemma call_run this node type st :
  get node "type" = Ok type ->
  call this node st = this (to_str type) node st.
Proof.
  intros H. unfold call.
  exact (field_bind node "type" (fun t => this (to_str t) node) type st H).
Qed.

Lemma ExpressionStatement_run this node expression type st st' inner :
  get node "expression" = Ok expression ->
  get expression "type" = Ok type ->
  (to_str type = "AssignmentExpression" ->
   exists left leftType initial,
     get expression "left" = Ok left /\ get left "type" = Ok leftType
     /\ idx leftType 0 = Ok initial) ->
  this (to_str type) expression st = Ok (tt, st', inner) ->
  ExpressionStatement this node st
  = Ok (tt, st',
        ((if statement_head_parens expression
          then VStr "(" :: inner ++ [VStr ")"]
          else inner) ++ [VStr ";"])%list).
Proof.
  intros He Ht Hleft Hrun. unfold ExpressionStatement, statement_head_parens.
  rewrite (field_bind _ _ _ _ _ He), (field_bind _ _ _ _ _ Ht), Ht.
  cbv zeta. rewrite precedence_17, precedence_3.
  destruct (mem (to_str type) _) eqn:E17.
  - rewrite ret_bind. cbn [orb].
    unfold bind, write. rewrite (call_run _ _ _ _ Ht), Hrun. cbn [app].
    rewrite <- app_assoc. reflexivity.
  - cbn [orb]. destruct (to_str type =? "AssignmentExpression") eqn:E3.
    + destruct (Hleft (proj1 (String.eqb_eq _ _) E3))
        as (left & leftType & initial & Hl & Hlt & Hi).
      rewrite Hl, Hlt. unfold begins_with. rewrite Hi. cbn [andb].
      unfold bind, field, item, lift, ret, write.
      rewrite Hl, Hlt, Hi.
      destruct (is_str initial "O");
        rewrite (call_run _ _ _ _ Ht), Hrun; cbn [app];
        rewrite <- ?app_assoc; reflexivity.
    + rewrite ret_bind. cbn [andb].
      unfold bind, write. rewrite (call_run _ _ _ _ Ht), Hrun. reflexivity.
Qed.

(** ** Entries of the generator *)

Lemma dispatch_eq fuel generator key node :
  dispatch fuel generator key node =
  match lookup generator key with
  | Missing => throw TypeError
  | Inherited name => call_inherited generator name
  | Own formatter =>
      match fuel with
      | O => lift OutOfFuel
      | S fuel' => formatter (dispatch fuel' generator) node
      end
  end.
Proof. destruct fuel; reflexivity. Qed.

Lemma dispatch_Missing fuel generator key node st :
  lookup generator key = Missing ->
  dispatch fuel generator key node st = Throw TypeError.
Proof. intros H. rewrite dispatch_eq, H. reflexivity. Qed.

Lemma dispatch_Own fuel generator key formatter node :
  lookup generator key = Own formatter ->
  dispatch (S fuel) generator key node
  = formatter (dispatch fuel generator) node.
Proof. intros H. rewrite dispatch_eq, H. reflexivity. Qed.

(** ** More fuel

    A run that does not end in [OutOfFuel] ends the same way with more
    fuel. *)

Lemma refines_refl {A : Type} (m : M A) : refines m m.
Proof. intros st _. reflexivity. Qed.

Lemma refines_bind {A B : Type} (m1 m2 : M A) (k1 k2 : A -> M B) :
  refines m1 m2 -> (forall a, refines (k1 a) (k2 a)) ->
  refines (bind m1 k1) (bind m2 k2).
Proof.
  intros Hm Hk st H. unfold bind in *.
  rewrite (Hm st) by (intros E; rewrite E in H; congruence).
  destruct (m1 st) as [[[a st1] w1] | | |]; try reflexivity.
  rewrite (Hk a st1) by (intros E; rewrite E in H; congruence).
  reflexivity.
Qed.

Lemma refines_when b (m1 m2 : M unit) :
  refines m1 m2 -> refines (when b m1) (when b m2).
Proof. intros H. destruct b; [ exact H | apply refines_refl ]. Qed.

Lemma refines_iterate body1 body2 :
  (forall i, refines (body1 i) (body2 i)) ->
  forall count i, refines (iterate i count body1) (iterate i count body2).
Proof.
  intros H count. induction count as [| c IH]; intros i; simpl.
  - apply refines_refl.
  - apply refines_bind; [ apply H | intros _; apply IH ].
Qed.

Lemma refines_for_loop start length body1 body2 :
  (forall i, refines (body1 i) (body2 i)) ->
  refines (for_loop start length body1) (for_loop start length body2).
Proof.
  intros H. unfold for_loop.
  apply refines_bind; [ apply refines_refl | intros [z |] ].
  - apply refines_iterate, H.
  - apply refines_refl.
Qed.

Lemma refines_iterate_until step1 step2 :
  (forall i more, refines (step1 i more) (step2 i more)) ->
  forall further i,
    refines (iterate_until i further step1) (iterate_until i further step2).
Proof.
  intros H further. induction further as [| f IH]; intros i; simpl.
  - apply H.
  - apply refines_bind; [ apply H | intros _; apply IH ].
Qed.

Lemma refines_loop_until start length step1 step2 :
  (forall i more, refines (step1 i more) (step2 i more)) ->
  refines (loop_until start length step1) (loop_until start length step2).
Proof.
  intros H. unfold loop_until.
  apply refines_bind; [ apply refines_refl | intros [z |] ].
  - apply refines_iterate_until, H.
  - apply H.
Qed.

Create HintDb refines.

Ltac mono_step :=
  lazymatch goal with
  | |- refines ?m ?m => apply refines_refl
  | |- refines (bind _ _) (bind _ _) => apply refines_bind; [ | intros ]
  | |- refines (when _ _) (when _ _) => apply refines_when
  | |- refines (for_loop _ _ _) (for_loop _ _ _) =>
      apply refines_for_loop; intros
  | |- refines (loop_until _ _ _) (loop_until _ _ _) =>
      apply refines_loop_until; intros
  | |- refines (iterate_until _ _ _) (iterate_until _ _ _) =>
      apply refines_iterate_until; intros
  | |- refines (if ?b then _ else _) (if ?b then _ else _) => destruct b
  | |- refines (match ?x with _ => _ end) (match ?x with _ => _ end) =>
      destruct x
  | |- refines _ _ => solve [ auto with refines ]
  end.

Ltac mono := repeat mono_step.

Section Monotone.

Variables this1 this2 : Dispatch.
Hypothesis Hthis : forall key node, refines (this1 key node) (this2 key node).

Lemma refines_call node : refines (call this1 node) (call this2 node).
Proof using Hthis. unfold call. mono. Qed.

Lemma refines_emit node k : refines (emit this1 node k) (emit this2 node k).
Proof using Hthis. unfold emit. mono. apply refines_call. Qed.

Hint Resolve refines_call refines_emit : refines.

Lemma refines_formatSequence nodes :
  refines (formatSequence this1 nodes) (formatSequence this2 nodes).
Proof using Hthis. unfold formatSequence. mono. Qed.

Hint Resolve refines_formatSequence : refines.

Lemma refines_formatBinaryExpressionPart node parentNode isRightHand :
  refines (formatBinaryExpressionPart this1 node parentNode isRightHand)
          (formatBinaryExpressionPart this2 node parentNode isRightHand).
Proof using Hthis. unfold formatBinaryExpressionPart. mono. Qed.

End Monotone.

#[export] Hint Resolve refines_call refines_emit refines_formatSequence
  refines_formatBinaryExpressionPart : refines.

Lemma defaultGenerator_monotone :
  Forall (fun entry => monotone (snd entry)) defaultGenerator.
Proof.
  unfold defaultGenerator.
  repeat (apply Forall_cons;
          [ cbn [snd];
            lazymatch goal with
            | |- monotone ?f =>
                intros this1 this2 Hthis node; unfold f; cbv zeta; mono
            end
          | ]).
  apply Forall_nil.
Qed.

Lemma dispatch_more_fuel generator :
  Forall (fun entry => monotone (snd entry)) generator ->
  forall fuel key node,
    refines (dispatch fuel generator key node)
            (dispatch (S fuel) generator key node).
Proof.
  intros Hall fuel.
  induction fuel as [| fuel IH]; intros key node;
    rewrite (dispatch_eq (S _)), (dispatch_eq _ generator key);
    destruct (lookup generator key) as [f | name |] eqn:E;
    try apply refines_refl.
  - intros st H. contradiction H. reflexivity.
  - apply lookup_Own_In in E.
    apply (proj1 (Forall_forall _ _) Hall _ E). exact IH.
Qed.

(** With [defaultGenerator], a result reached with some fuel is the result
    with any larger fuel. *)
Lemma dispatch_fuel fuel fuel' key node st :
  fuel <= fuel' ->
  dispatch fuel defaultGenerator key node st <> OutOfFuel ->
  dispatch fuel' defaultGenerator key node st
  = dispatch fuel defaultGenerator key node st.
Proof.
  intros Hle H. induction Hle as [| fuel' Hle IH]; [ reflexivity | ].
  rewrite <- IH.
  apply (dispatch_more_fuel _ defaultGenerator_monotone).
  rewrite IH. exact H.
Qed.

Lemma field_Ok v k st x st' w :
  field v k st = Ok (x, st', w) -> get v k = Ok x /\ st' = st /\ w = [].
Proof. apply lift_Ok. Qed.

(** A node rendered by [defaultGenerator] has a type that is neither
    [null] nor [undefined]. *)
Lemma call_default_typed fuel node st r :
  call (dispatch fuel defaultGenerator) node st = Ok r ->
  exists type initial, get node "type" = Ok type /\ idx type 0 = Ok initial.
Proof.
  intros H. unfold call in H. destruct r as [[u st'] w].
  apply bind_Ok in H as (type & st1 & w1 & w2 & Hf & Hd & _).
  apply field_Ok in Hf as (Hf & -> & _).
  exists type.
  destruct type; try (eexists; split; [ exact Hf | reflexivity ]);
    rewrite dispatch_Missing in Hd by reflexivity; discriminate.
Qed.

Lemma AssignmentExpression_left_typed fuel expression st r :
  dispatch fuel defaultGenerator "AssignmentExpression" expression st = Ok r ->
  exists target leftType initial,
    get expression "left" = Ok target /\ get target "type" = Ok leftType
    /\ idx leftType 0 = Ok initial.
Proof.
  destruct fuel as [| fuel]; [ discriminate | ].
  rewrite (dispatch_Own _ _ _ AssignmentExpression) by reflexivity.
  unfold AssignmentExpression, emit. intros H. destruct r as [[u st'] w].
  apply bind_Ok in H as (u1 & st1 & w1 & w2 & H & _ & _).
  apply bind_Ok in H as (target & st2 & w3 & w4 & Hf & Hc & _).
  apply field_Ok in Hf as (Hf & -> & _).
  apply call_default_typed in Hc as (leftType & initial & Hlt & Hi).
  eauto 6.
Qed.

(** ** Enough fuel

    The depth of nested formatter calls is bounded by the depth of the
    node: a formatter calls the generator on parts of its node, or on the
    node itself under a fixed key that leads to parts within [delegation]
    such calls. *)

Lemma list_max_In (l : list nat) n : In n l -> n <= list_max l.
Proof.
  intros H.
  pose proof (proj1 (list_max_le l (list_max l)) (le_n _)) as Hall.
  exact (proj1 (Forall_forall _ _) Hall n H).
Qed.

Lemma depth_assoc k props :
  depth (match assoc k props with Some x => x | None => VUndefined end)
  <= Nat.pred (depth (VObj props)).
Proof.
  cbn [depth Nat.pred].
  destruct (assoc k props) as [x |] eqn:E; [ | cbn; lia ].
  apply assoc_In in E. apply list_max_In.
  apply (in_map (fun p => depth (snd p)) _ _ E).
Qed.

Lemma get_depth v k y : get v k = Ok y -> depth y <= Nat.pred (depth v).
Proof.
  destruct v as [| | b | n | s | elems | props]; cbn [get]; intros H;
    try discriminate; injection H as <-.
  - reflexivity.
  - reflexivity.
  - destruct (k =? "length"); cbn; lia.
  - destruct (k =? "length"); cbn; lia.
  - apply depth_assoc.
Qed.

Lemma idx_depth v i y : idx v i = Ok y -> depth y <= Nat.pred (depth v).
Proof.
  destruct v as [| | b | n | s | elems | props]; cbn [idx]; intros H;
    try discriminate; injection H as <-.
  - reflexivity.
  - reflexivity.
  - destruct (String.get i s); cbn; lia.
  - cbn [depth Nat.pred].
    destruct (nth_in_or_default i elems VUndefined) as [Hin | ->];
      [ | cbn; lia ].
    apply list_max_In, in_map, Hin.
  - apply depth_assoc.
Qed.

(** A value of depth 0 has no type. *)
Lemma flat_untyped y t :
  depth y = 0 -> get y "type" = Ok t -> t = VUndefined.
Proof.
  destruct y; cbn; intros Hd H; try discriminate; injection H as <-;
    reflexivity.
Qed.

Lemma delegation_bound key : delegation key <= 3.
Proof.
  unfold delegation, delegations. cbn [assoc].
  repeat match goal with
         | |- context [String.eqb ?a key] => destruct (String.eqb a key)
         end; lia.
Qed.

Lemma get_fuel v k : get v k <> OutOfFuel /\ get v k <> Unmodelled.
Proof. destruct v; split; discriminate. Qed.

Lemma idx_fuel v i : idx v i <> OutOfFuel /\ idx v i <> Unmodelled.
Proof. destruct v; split; discriminate. Qed.

Lemma safe_ret {A : Type} (a : A) : safe (ret a).
Proof. intros st. discriminate. Qed.

Lemma safe_throw {A : Type} e : safe (@throw A e).
Proof. intros st. discriminate. Qed.

Lemma safe_gets {A : Type} (f : State -> A) : safe (gets f).
Proof. intros st. discriminate. Qed.

Lemma safe_modify f : safe (modify f).
Proof. intros st. discriminate. Qed.

Lemma safe_write v : safe (write v).
Proof. intros st. discriminate. Qed.

Lemma safe_lift {A : Type} (o : outcome A) : o <> OutOfFuel -> safe (lift o).
Proof. intros H st. unfold lift. destruct o; congruence. Qed.

Lemma safe_bind {A B : Type} (m : M A) (k : A -> M B) :
  safe m -> (forall a, safe (k a)) -> safe (bind m k).
Proof.
  intros Hm Hk st. unfold bind. specialize (Hm st).
  destruct (m st) as [[[a st1] w1] | | |]; try congruence.
  specialize (Hk a st1). destruct (k a st1) as [[[b st2] w2] | | |]; congruence.
Qed.

Lemma safe_bind_field {B : Type} v k (body : value -> M B) :
  (forall y, get v k = Ok y -> depth y <= Nat.pred (depth v) ->
             safe (body y)) ->
  safe (bind (field v k) body).
Proof.
  intros H st. unfold bind, field, lift.
  destruct (get v k) as [y | | |] eqn:E; try discriminate.
  - specialize (H y eq_refl (get_depth _ _ _ E) st).
    destruct (body y st) as [[[b st2] w2] | | |]; congruence.
  - destruct v; discriminate.
Qed.

Lemma safe_bind_item {B : Type} v i (body : value -> M B) :
  (forall y, idx v i = Ok y -> depth y <= Nat.pred (depth v) ->
             safe (body y)) ->
  safe (bind (item v i) body).
Proof.
  intros H st. unfold bind, item, lift.
  destruct (idx v i) as [y | | |] eqn:E; try discriminate.
  - specialize (H y eq_refl (idx_depth _ _ _ E) st).
    destruct (body y st) as [[[b st2] w2] | | |]; congruence.
  - destruct v; discriminate.
Qed.

Lemma safe_when b (m : M unit) : safe m -> safe (when b m).
Proof. intros H. destruct b; [ exact H | apply safe_ret ]. Qed.

Lemma safe_iterate body :
  (forall i, safe (body i)) -> forall count i, safe (iterate i count body).
Proof.
  intros H count. induction count as [| c IH]; intros i; simpl.
  - apply safe_ret.
  - apply safe_bind; [ apply H | intros _; apply IH ].
Qed.

Lemma to_number_fuel v : to_number v <> OutOfFuel.
Proof. destruct v; discriminate. Qed.

Lemma safe_for_loop start length body :
  (forall i, safe (body i)) -> safe (for_loop start length body).
Proof.
  intros H. unfold for_loop.
  apply safe_bind; [ apply safe_lift, to_number_fuel | intros [z |] ].
  - apply safe_iterate, H.
  - apply safe_ret.
Qed.

Lemma safe_iterate_until step :
  (forall i more, safe (step i more)) ->
  forall further i, safe (iterate_until i further step).
Proof.
  intros H further. induction further as [| f IH]; intros i; simpl.
  - apply H.
  - apply safe_bind; [ apply H | intros _; apply IH ].
Qed.

Lemma safe_loop_until start length step :
  (forall i more, safe (step i more)) -> safe (loop_until start length step).
Proof.
  intros H. unfold loop_until.
  apply safe_bind; [ apply safe_lift, to_number_fuel | intros [z |] ].
  - apply safe_iterate_until, H.
  - apply H.
Qed.

Lemma repeat_fuel s n : repeat s n <> OutOfFuel.
Proof. unfold repeat. destruct (n <? 0)%Z; discriminate. Qed.

Lemma as_string_fuel v : as_string v <> OutOfFuel.
Proof. destruct v; discriminate. Qed.

Lemma slot_lt_fuel p q : slot_lt p q <> OutOfFuel.
Proof.
  destruct p, q; cbn; try discriminate.
  destruct (_ =? _); discriminate.
Qed.

Lemma slot_le_fuel p q : slot_le p q <> OutOfFuel.
Proof.
  destruct p, q; cbn; try discriminate.
  destruct (_ =? _); discriminate.
Qed.

Lemma strict_eq_fuel a b : strict_eq a b <> OutOfFuel.
Proof. destruct a, b; discriminate. Qed.

Lemma stringify_fuel v : stringify v <> OutOfFuel.
Proof. destruct v; discriminate. Qed.

Lemma hasCallExpression_fuel n :
  forall node, depth node <= n -> hasCallExpression node <> OutOfFuel.
Proof.
  induction n as [| n IH]; intros node Hd; rewrite hasCallExpression_loop.
  - destruct node; cbn in Hd |- *; try discriminate. lia.
  - destruct (nullish node); [ discriminate | ].
    destruct (get node "type") as [type | | |]; try discriminate.
    destruct (idx type 0) as [c0 | | |]; try discriminate.
    destruct (idx type 1) as [c1 | | |]; try discriminate.
    destruct (idx type 2) as [c2 | | |]; try discriminate.
    destruct (is_str c0 "C" && is_str c1 "a"); [ discriminate | ].
    destruct (is_str c0 "M" && is_str c1 "e" && is_str c2 "m");
      [ | discriminate ].
    destruct (get node "object") as [object | | |] eqn:Eo; try discriminate.
    apply IH. apply get_depth in Eo. lia.
Qed.

Create HintDb fuel.

#[export] Hint Resolve to_number_fuel repeat_fuel as_string_fuel slot_lt_fuel
  slot_le_fuel strict_eq_fuel stringify_fuel : fuel.

Lemma safe_lift_get v k : safe (field v k).
Proof. apply safe_lift, get_fuel. Qed.

Lemma safe_lift_idx v i : safe (item v i).
Proof. apply safe_lift, idx_fuel. Qed.

Lemma safe_gt_num v n : safe (gt_num v n).
Proof.
  unfold gt_num.
  apply safe_bind; [ apply safe_lift, to_number_fuel | intros; apply safe_ret ].
Qed.

Lemma safe_add_indentLevel d : safe (add_indentLevel d).
Proof. intros st. discriminate. Qed.

Lemma safe_indent_then_increment : safe indent_then_increment.
Proof.
  intros st. unfold indent_then_increment, bind, gets, add_indentLevel, modify,
    lift, repeat.
  destruct (_ <? 0)%Z; discriminate.
Qed.

Ltac safe_step :=
  lazymatch goal with
  | |- safe (bind (field _ _) _) => apply safe_bind_field; intros ? ? ?
  | |- safe (bind (item _ _) _) => apply safe_bind_item; intros ? ? ?
  | |- safe (bind _ _) => apply safe_bind; [ | intros ]
  | |- safe (ret _) => apply safe_ret
  | |- safe (throw _) => apply safe_throw
  | |- safe (gets _) => apply safe_gets
  | |- safe (modify _) => apply safe_modify
  | |- safe (write _) => apply safe_write
  | |- safe (field _ _) => apply safe_lift_get
  | |- safe (item _ _) => apply safe_lift_idx
  | |- safe (gt_num _ _) => apply safe_gt_num
  | |- safe (add_indentLevel _) => apply safe_add_indentLevel
  | |- safe indent_then_increment => apply safe_indent_then_increment
  | |- safe (lift (hasCallExpression _)) =>
      apply safe_lift; eapply hasCallExpression_fuel, le_n
  | |- safe (lift _) => apply safe_lift; solve [ auto with fuel ]
  | |- safe (when _ _) => apply safe_when
  | |- safe (for_loop _ _ _) => apply safe_for_loop; intros
  | |- safe (loop_until _ _ _) => apply safe_loop_until; intros
  | |- safe (iterate_until _ _ _) => apply safe_iterate_until; intros
  | |- safe (if ?b then _ else _) => destruct b
  | |- safe (match ?x with _ => _ end) => destruct x
  | |- safe _ => solve [ eauto with safe ]
  end.

Ltac safely := repeat safe_step.

Create HintDb safe.

Lemma safe_expressionNeedsParenthesis node parentNode isRightHand :
  safe (expressionNeedsParenthesis node parentNode isRightHand).
Proof. unfold expressionNeedsParenthesis. cbv zeta. safely. Qed.

Lemma safe_reindent text indentation : safe (reindent text indentation).
Proof. unfold reindent. safely. Qed.

#[export] Hint Resolve safe_expressionNeedsParenthesis safe_reindent : safe.

Lemma safe_formatComments comments indent lineEnd :
  safe (formatComments comments indent lineEnd).
Proof. unfold formatComments. safely. Qed.

#[export] Hint Resolve safe_formatComments : safe.

Lemma safe_comments_at writeComments node k indent lineEnd :
  safe (comments_at writeComments node k indent lineEnd).
Proof. unfold comments_at. safely. Qed.

Lemma safe_import_leading specifiers todo :
  forall i, safe (import_leading specifiers i todo).
Proof. induction todo as [| t IH]; intros i; simpl; safely. Qed.

Lemma safe_last_quasi quasis : safe (last_quasi quasis).
Proof. unfold last_quasi. safely. Qed.

#[export] Hint Resolve safe_comments_at safe_import_leading safe_last_quasi
  : safe.

Lemma enough_own fuel key formatter node :
  lookup defaultGenerator key = Own formatter ->
  4 * depth node + delegation key + 1 <= fuel ->
  enough fuel key node.
Proof. intros H Hle. unfold enough. rewrite H. exact Hle. Qed.

Section Descent.

Variable this : Dispatch.
Variable fuel : nat.
Hypothesis Hthis : forall key node, enough fuel key node -> safe (this key node).

(** A call under the type of a node. *)
Lemma safe_dynamic node type :
  get node "type" = Ok type ->
  callable fuel node ->
  safe (this (to_str type) node).
Proof using Hthis.
  intros Ht Hc. apply Hthis. unfold enough.
  destruct (lookup defaultGenerator (to_str type)) as [f | |] eqn:E; trivial.
  pose proof (delegation_bound (to_str type)).
  destruct Hc as [H0 | Hle]; [ | lia ].
  rewrite (flat_untyped _ _ H0 Ht) in E. discriminate.
Qed.

Lemma safe_call node : callable fuel node -> safe (call this node).
Proof using Hthis.
  intros Hc. unfold call. apply safe_bind_field. intros type Ht _.
  apply safe_dynamic; assumption.
Qed.

Lemma safe_emit node k :
  (forall y, depth y <= Nat.pred (depth node) -> callable fuel y) ->
  safe (emit this node k).
Proof using Hthis.
  intros H. unfold emit. apply safe_bind_field. intros y _ Hy.
  apply safe_call, H, Hy.
Qed.

Lemma safe_formatSequence nodes :
  (forall y, depth y <= Nat.pred (depth nodes) -> callable fuel y) ->
  safe (formatSequence this nodes).
Proof using Hthis.
  intros H. unfold formatSequence. safely; apply safe_call, H; assumption.
Qed.

Lemma safe_formatBinaryExpressionPart node parentNode isRightHand :
  callable fuel node ->
  safe (formatBinaryExpressionPart this node parentNode isRightHand).
Proof using Hthis.
  intros H. unfold formatBinaryExpressionPart.
  safely; apply safe_call, H.
Qed.

End Descent.

(** What is left of a formatter after [safely]: its calls of the
    generator. *)
Ltac safe_leaf :=
  match goal with
  | Hthis : forall key node, enough ?fuel key node -> safe (?this key node)
    |- safe (call ?this _) =>
      apply (safe_call this fuel Hthis); unfold callable; lia
  | Hthis : forall key node, enough ?fuel key node -> safe (?this key node)
    |- safe (emit ?this _ _) =>
      apply (safe_emit this fuel Hthis); intros; unfold callable; lia
  | Hthis : forall key node, enough ?fuel key node -> safe (?this key node)
    |- safe (formatSequence ?this _) =>
      apply (safe_formatSequence this fuel Hthis); intros;
      unfold callable; lia
  | Hthis : forall key node, enough ?fuel key node -> safe (?this key node)
    |- safe (formatBinaryExpressionPart ?this _ _ _) =>
      apply (safe_formatBinaryExpressionPart this fuel Hthis);
      unfold callable; lia
  | Hthis : forall key node, enough ?fuel key node -> safe (?this key node)
    |- safe (?this (to_str _) _) =>
      apply (safe_dynamic this fuel Hthis);
      [ eassumption | unfold callable; lia ]
  | Hthis : forall key node, enough ?fuel key node -> safe (?this key node)
    |- safe (?this ?key _) =>
      apply Hthis; eapply enough_own; [ reflexivity | ];
      let d := eval vm_compute in (delegation key) in
      change (delegation key) with d; lia
  end.

Lemma defaultGenerator_descends :
  Forall (fun entry => descends (fst entry) (snd entry)) defaultGenerator.
Proof.
  unfold defaultGenerator.
  repeat (apply Forall_cons;
          [ cbn [fst snd];
            lazymatch goal with
            | |- descends ?key ?f =>
                intros this fuel node Hthis Hroot;
                let d := eval vm_compute in (delegation key) in
                change (delegation key) with d in Hroot;
                unfold f; cbv zeta; safely; safe_leaf
            end
          | ]).
  apply Forall_nil.
Qed.

Lemma safe_call_inherited generator name :
  safe (call_inherited generator name).
Proof. unfold call_inherited. safely. discriminate. Qed.

(** With the fuel its node needs, a call of [defaultGenerator] does not
    run out of fuel. *)
Lemma dispatch_enough fuel :
  forall key node,
    enough fuel key node -> safe (dispatch fuel defaultGenerator key node).
Proof.
  induction fuel as [| fuel IH]; intros key node; unfold enough;
    rewrite dispatch_eq;
    destruct (lookup defaultGenerator key) as [f | name |] eqn:E; intros H;
    try apply safe_throw; try apply safe_call_inherited.
  - lia.
  - apply lookup_Own_In in E.
    pose proof (proj1 (Forall_forall _ _) defaultGenerator_descends _ E)
      as Hf.
    cbn [fst snd] in Hf. apply (Hf _ fuel); [ exact IH | lia ].
Qed.



(** ** The text written *)

Lemma append_empty_r s : s ++ "" = s.
Proof. induction s as [| c s IH]; simpl; congruence. Qed.

Lemma append_assoc (a b c : string) : (a ++ b) ++ c = a ++ b ++ c.
Proof. induction a as [| x a IH]; simpl; congruence. Qed.

Lemma concat_empty_cons s l : String.concat "" (s :: l) = s ++ String.concat "" l.
Proof.
  destruct l as [| t l]; simpl; [ symmetry; apply append_empty_r | reflexivity ].
Qed.

Lemma text_of_cons v w : text_of (v :: w) = to_str v ++ text_of w.
Proof. unfold text_of. cbn [map]. apply concat_empty_cons. Qed.

Lemma text_of_app w1 w2 : text_of (w1 ++ w2) = text_of w1 ++ text_of w2.
Proof.
  induction w1 as [| v w1 IH]; [ reflexivity | ].
  cbn [app]. rewrite !text_of_cons, IH, append_assoc. reflexivity.
Qed.

(** Both kinds of output receive the same text. *)
Lemma emitted_sink_write output written :
  emitted (sink_write output written) = emitted output ++ text_of written.
Proof.
  destruct output as [text | chunks]; [ reflexivity | apply text_of_app ].
Qed.

(** C2.  An [ExpressionStatement] writes its expression, between
    parentheses exactly when the expression is a class, function or object
    expression (precedence 17) or an assignment whose left side has a type
    beginning with [O], and a final semicolon. *)
Theorem ExpressionStatement_parens
        fuel node expression type st st' inner :
  get node "expression" = Ok expression ->
  get expression "type" = Ok type ->
  dispatch fuel defaultGenerator (to_str type) expression st
  = Ok (tt, st', inner) ->
  exists written,
    dispatch (S fuel) defaultGenerator "ExpressionStatement" node st
    = Ok (tt, st', written)
    /\ text_of written
       = (if statement_head_parens expression
          then "(" ++ text_of inner ++ ")"
          else text_of inner) ++ ";".
Proof.
  intros He Ht Hrun.
  rewrite (dispatch_Own _ _ _ ExpressionStatement) by reflexivity.
  erewrite ExpressionStatement_run; try eassumption.
  - eexists. split; [ reflexivity | ].
    rewrite text_of_app.
    destruct (statement_head_parens expression);
      [ rewrite text_of_cons, text_of_app | ]; reflexivity.
  - intros E. rewrite E in Hrun.
    eapply AssignmentExpression_left_typed, Hrun.
Qed.

(** C3, as claimed: the statement would read [(x => ({}));]. *)
Lemma arrow_statement_not_wrapped :
  astring 3 arrow_statement None <> Ok (Buffer "(x => ({}));").
Proof. vm_compute. discriminate. Qed.

(** C3, amended.  The statement reads [x => ({});]: an arrow function has
    precedence 18, not 17, and is not wrapped at the head of a statement;
    its object body is. *)
Theorem arrow_statement_output :
  forall k, astring (3 + k) arrow_statement None = Ok (Buffer "x => ({});").
Proof. intros k. vm_compute. reflexivity. Qed.

(** C4, as claimed: with a generator that lacks [Identifier], the formatter
    of [defaultGenerator] would still apply. *)
Lemma generator_option_no_overlay :
  astring 1 (ident "x") None = Ok (Buffer "x")
  /\ astring 1 (literal "1") (Some literals_only_options) = Ok (Buffer "1")
  /\ astring 1 (ident "x") (Some literals_only_options) = Throw TypeError.
Proof. repeat split. Qed.

(** C4, amended.  A generator given in the options replaces
    [defaultGenerator]: a kind it has is written by its formatter, a kind
    it lacks throws a [TypeError] whatever [defaultGenerator] has for it;
    [defaultGenerator] is the table only when none is given. *)
Theorem generator_option_replaces options generator fuel node type :
  opt_generator options = Some generator ->
  get node "type" = Ok type ->
  (lookup generator (to_str type) = Missing ->
   astring fuel node (Some options) = Throw TypeError)
  /\ (forall formatter,
       lookup generator (to_str type) = Own formatter ->
       astring (S fuel) node (Some options)
       = returned (snd (fst (new_State (Some options))))
                  (formatter (dispatch fuel generator) node
                             (fst (fst (new_State (Some options))))))
  /\ snd (new_State None) = defaultGenerator
  /\ snd (new_State (Some no_options)) = defaultGenerator.
Proof.
  intros Hg Ht. unfold astring, new_State. cbn [or_default fst snd].
  rewrite Hg. cbn [or_default].
  repeat split.
  - intros Hm. rewrite (call_run _ _ _ _ Ht), dispatch_Missing by exact Hm.
    reflexivity.
  - intros formatter Ho.
    rewrite (call_run _ _ _ _ Ht), (dispatch_Own _ _ _ _ _ Ho). reflexivity.
Qed.



(** C10.  An [ArrowFunctionExpression] whose [params] is [null] (or
    absent) writes no parameter list: its text is the optional [async ]
    followed by [ => ] and the body.  An empty list of parameters writes
    [()]; a single identifier writes its bare name. *)
Theorem ArrowFunctionExpression_params
        this node async body type initial st st' w :
  get node "async" = Ok async ->
  get node "body" = Ok body ->
  get body "type" = Ok type ->
  idx type 0 = Ok initial ->
  (if is_str initial "O"
   then this "ObjectExpression" body
   else this (to_str type) body) st = Ok (tt, st', w) ->
  let prefix := if truthy async then "async " else "" in
  let body_text :=
    if is_str initial "O" then "(" ++ text_of w ++ ")" else text_of w in
  (forall params,
      get node "params" = Ok params ->
      nullish params = true ->
      exists written,
        ArrowFunctionExpression this node st = Ok (tt, st', written)
        /\ text_of written = prefix ++ " => " ++ body_text)
  /\ (get node "params" = Ok (VArr []) ->
      exists written,
        ArrowFunctionExpression this node st = Ok (tt, st', written)
        /\ text_of written = prefix ++ "()" ++ " => " ++ body_text)
  /\ (forall param paramType name,
      get node "params" = Ok (VArr [param]) ->
      get param "type" = Ok paramType ->
      begins_with paramType "I" = true ->
      get param "name" = Ok name ->
      exists written,
        ArrowFunctionExpression this node st = Ok (tt, st', written)
        /\ text_of written = prefix ++ to_str name ++ " => " ++ body_text).
Proof.
  intros Ha Hb Ht Hi Hrun prefix body_text.
  assert (Htail :
      (write " => " ;;
       body <- field node "body" ;;
       type <- field body "type" ;;
       initial <- item type 0 ;;
       if is_str initial "O"
       then write "(" ;; this "ObjectExpression" body ;; write ")"
       else call this body) st
      = Ok (tt, st', VStr " => " ::
                     (if is_str initial "O"
                      then VStr "(" :: w ++ [VStr ")"] else w))%list).
  { rewrite write_bind, (field_bind _ _ _ _ _ Hb),
      (field_bind _ _ _ _ _ Ht), (item_bind _ _ _ _ _ Hi).
    destruct (is_str initial "O").
    - unfold bind, write. rewrite Hrun. reflexivity.
    - rewrite (call_run _ _ _ _ Ht), Hrun. reflexivity. }
  assert (Htext :
    text_of (VStr " => " ::
             (if is_str initial "O" then VStr "(" :: w ++ [VStr ")"] else w))%list
    = " => " ++ body_text).
  { rewrite text_of_cons. subst body_text.
    destruct (is_str initial "O");
      [ rewrite text_of_cons, text_of_app | ]; reflexivity. }
  assert (Hprefix :
    forall rest : M unit, forall r,
      rest st = Ok (tt, st', r) ->
      (when (truthy async) (write "async ") ;; rest) st
      = Ok (tt, st',
            ((if truthy async then [VStr "async "] else []) ++ r)%list)).
  { intros rest r Hr. destruct (truthy async); cbn [when].
    - rewrite write_bind, Hr. reflexivity.
    - rewrite ret_bind. exact Hr. }
  assert (Hptext :
    forall r,
      text_of ((if truthy async then [VStr "async "] else []) ++ r)%list
      = prefix ++ text_of r).
  { intros r. subst prefix. destruct (truthy async); cbn [app];
      rewrite ?text_of_cons; reflexivity. }
  refine (conj _ (conj _ _)).
  - intros params Hp Hnull. unfold ArrowFunctionExpression.
    rewrite (field_bind _ _ _ _ _ Hp), (field_bind _ _ _ _ _ Ha), Hnull.
    cbn [negb when].
    eexists. split.
    + apply Hprefix. rewrite ret_bind. exact Htail.
    + rewrite Hptext, Htext. reflexivity.
  - intros Hp. unfold ArrowFunctionExpression.
    rewrite (field_bind _ _ _ _ _ Hp), (field_bind _ _ _ _ _ Ha).
    cbn [nullish negb when].
    eexists. split.
    + apply Hprefix.
      erewrite bind_run by reflexivity. rewrite Htail. reflexivity.
    + rewrite Hptext. cbn [app]. rewrite text_of_cons, text_of_cons, Htext.
      reflexivity.
  - intros param paramType name Hp Hpt Hbegin Hn. unfold ArrowFunctionExpression.
    rewrite (field_bind _ _ _ _ _ Hp), (field_bind _ _ _ _ _ Ha).
    cbn [nullish negb when].
    unfold begins_with in Hbegin.
    destruct (idx paramType 0) as [letter | | |] eqn:Hl; try discriminate.
    eexists. split.
    + apply Hprefix.
      erewrite bind_run; cycle 1.
      { unfold bind, field, item, lift, ret, write. cbn.
        rewrite Hpt, Hl, Hbegin, Hn. reflexivity. }
      rewrite Htail. reflexivity.
    + rewrite Hptext. cbn [app]. rewrite text_of_cons, Htext. reflexivity.
Qed.

(* ===================================================================== *)
(** * The level, the debugger statement and nested loops *)
(* ===================================================================== *)


(** C6, in the code: [DebuggerStatement] ends what it writes with
    [lineEnd], so a [debugger] statement in a [Program] is followed by two
    line ends where every other statement is followed by one. *)
Theorem DebuggerStatement_trailing_lineEnd :
  (forall this node st,
      DebuggerStatement this node st
      = Ok (tt, st, [VStr ("debugger;" ++ lineEnd st)]))
  /\ (forall k,
      astring (2 + k) debugger_program None
      = Ok (Buffer ("debugger;" ++ LF ++ LF ++ ";" ++ LF))).
Proof.
  split.
  - reflexivity.
  - intros k. vm_compute. reflexivity.
Qed.

(** C7, in the code: a [for] loop inside the initializer of a [for] loop
    sets [noTrailingSemicolon] to [false] when its own initializer is
    done, so the declaration of the outer initializer gets its semicolon
    and the outer header holds three. *)
Theorem nested_for_semicolons :
  (forall k,
      astring (9 + k) nested_for None
      = Ok (Buffer ("for (var f = function () {" ++ LF
                    ++ TAB ++ "for (var i; ; ) {}" ++ LF
                    ++ "};; ; ) {}")))
  /\ (forall k,
      exists st' w,
        dispatch (4 + k) defaultGenerator "ForStatement"
                 (for_statement (var_declaration "i" VNull) (block_of []))
                 (set_noTrailingSemicolon true initial_state)
        = Ok (tt, st', w)
        /\ noTrailingSemicolon st' = false).
Proof.
  split.
  - intros k. vm_compute. reflexivity.
  - intros k. eexists. eexists. split; [ vm_compute; reflexivity | reflexivity ].
Qed.

(** The loop of section 8, scenario 6. *)
Lemma counting_for_output :
  forall k,
    astring (4 + k) counting_for None
    = Ok (Buffer "for (let i = 0; i < 10; i++) {}").
Proof. intros k. vm_compute. reflexivity. Qed.

(* ===================================================================== *)
(** * The comment formatter *)
(* ===================================================================== *)

Lemma all_white_trimRight s : all_white (trimRight s) = all_white s.
Proof.
  induction s as [| c s IH]; [ reflexivity | ].
  cbn [trimRight]. destruct (all_white (String c s)) eqn:E; [ reflexivity | ].
  cbn [all_white] in *. rewrite IH. exact E.
Qed.

(** No white space is left at the end of a trimmed text: none of its
    non-empty suffixes is all white space. *)
Lemma trimRight_suffix s :
  forall u v, trimRight s = u ++ v -> v <> "" -> all_white v = false.
Proof.
  induction s as [| c s IH]; intros u v H Hv.
  - destruct u, v; try discriminate. congruence.
  - cbn [trimRight] in H. destruct (all_white (String c s)) eqn:E.
    + destruct u, v; try discriminate. congruence.
    + destruct u as [| c' u].
      * cbn [append] in H. subst v. cbn [all_white] in *.
        rewrite all_white_trimRight. exact E.
      * cbn [append] in H. injection H as _ H. eapply IH; eassumption.
Qed.

Lemma after_first_newline_split s rest :
  after_first_newline s = Some rest ->
  exists u, s = u ++ String newline rest.
Proof.
  revert rest. induction s as [| c s IH]; intros rest H; [ discriminate | ].
  cbn [after_first_newline] in H.
  destruct (Ascii.eqb_spec c newline) as [-> | _].
  - injection H as ->. exists "". reflexivity.
  - destruct (IH _ H) as [u ->]. exists (String c u). reflexivity.
Qed.

Lemma prefix_append sep s :
  prefix sep s = true -> exists rest, s = sep ++ rest.
Proof.
  revert s. induction sep as [| c sep IH]; intros s H.
  - exists s. reflexivity.
  - destruct s as [| d s]; [ discriminate | ]. cbn [prefix] in H.
    destruct (ascii_dec c d) as [-> | _]; [ | discriminate ].
    destruct (IH s H) as [rest ->]. exists rest. reflexivity.
Qed.

(** Passing over the rest of a separator. *)
Lemma split_from_skip sep u cur rest :
  split_from sep (String.length u) cur (u ++ rest) = split_from sep 0 cur rest.
Proof.
  induction u as [| c u IH]; [ reflexivity | exact IH ].
Qed.

Lemma split_from_pieces sep skip cur s : split_from sep skip cur s <> [].
Proof.
  revert skip cur. induction s as [| c s IH]; intros skip cur;
    cbn [split_from]; [ discriminate | ].
  destruct skip; [ destruct (prefix sep (String c s)) | ];
    try discriminate; apply IH.
Qed.

Lemma join_cons sep piece pieces :
  pieces <> [] -> join sep (piece :: pieces) = piece ++ sep ++ join sep pieces.
Proof. destruct pieces; [ congruence | reflexivity ]. Qed.

Lemma length_append (a b : string) :
  String.length (a ++ b) = String.length a + String.length b.
Proof. induction a as [| c a IH]; simpl; congruence. Qed.

Lemma join_split_from sep n :
  sep <> "" ->
  forall s cur, String.length s <= n ->
    join sep (split_from sep 0 cur s) = cur ++ s.
Proof.
  intros Hsep. induction n as [| n IH]; intros s cur Hn.
  - destruct s; [ | cbn in Hn; lia ]. cbn. now rewrite append_empty_r.
  - destruct s as [| c s]; [ cbn; now rewrite append_empty_r | ].
    cbn [split_from]. destruct (prefix sep (String c s)) eqn:E.
    + destruct (prefix_append _ _ E) as [rest Hrest].
      destruct sep as [| d sep]; [ congruence | ].
      cbn [append] in Hrest. injection Hrest as <- ->.
      replace (String.length (String c sep) - 1) with (String.length sep)
        by (cbn [String.length]; lia).
      rewrite split_from_skip.
      rewrite join_cons by apply split_from_pieces.
      rewrite IH; [ reflexivity | ].
      cbn [String.length] in Hn. rewrite length_append in Hn. lia.
    + rewrite IH by (cbn [String.length] in Hn; lia).
      rewrite append_assoc. reflexivity.
Qed.

(** Joining the pieces of a split with the separator gives the text back. *)
Lemma join_split sep s : sep <> "" -> join sep (split sep s) = s.
Proof.
  intros Hsep. destruct sep as [| c sep]; [ congruence | ].
  unfold split. apply (join_split_from _ (String.length s)); auto.
Qed.

Lemma only_spaces_and_tabs_white s :
  only_spaces_and_tabs s = true -> all_white s = true.
Proof.
  induction s as [| c s IH]; [ reflexivity | ].
  cbn [only_spaces_and_tabs all_white]. intros H.
  apply andb_prop in H as [Hc Hs]. rewrite (IH Hs), andb_true_r.
  apply orb_prop in Hc as [Hc | Hc];
    apply Ascii.eqb_eq in Hc; subst c; reflexivity.
Qed.

Lemma reindent_loop_first text indents :
  reindent_loop text false indents
  = match after_first_newline text with
    | Some rest => reindent_loop rest true indents
    | None => None
    end.
Proof.
  induction text as [| c text IH]; [ reflexivity | ].
  cbn [reindent_loop after_first_newline].
  destruct (Ascii.eqb c newline); [ reflexivity | exact IH ].
Qed.

Lemma reindent_loop_second rest :
  forall indents,
    only_spaces_and_tabs rest = false ->
    reindent_loop rest true indents = Some (indents ++ spaces_and_tabs rest).
Proof.
  induction rest as [| c rest IH]; intros indents H; [ discriminate | ].
  cbn [reindent_loop spaces_and_tabs only_spaces_and_tabs] in *.
  destruct (Ascii.eqb c space || Ascii.eqb c tab).
  - rewrite IH by exact H. rewrite append_assoc. reflexivity.
  - rewrite append_empty_r. reflexivity.
Qed.

(** [reindent] computes the re-indent algorithm of the specification. *)
Lemma reindent_text_spec body indent :
  reindent_text body indent = reindent_spec body indent.
Proof.
  unfold reindent_text, reindent_spec. cbv zeta.
  rewrite reindent_loop_first.
  destruct (after_first_newline (trimRight body)) as [rest |] eqn:E;
    [ | reflexivity ].
  rewrite reindent_loop_second; [ reflexivity | ].
  destruct (only_spaces_and_tabs rest) eqn:Hrest; [ | reflexivity ].
  apply after_first_newline_split in E as [u E].
  apply trimRight_suffix in E; [ | discriminate ].
  cbn [all_white] in E.
  rewrite (only_spaces_and_tabs_white _ Hrest) in E. discriminate.
Qed.

Lemma nth_middle_map {A B : Type} (f : A -> B) pre x rest d :
  nth (List.length pre) (map f (pre ++ x :: rest)) d = f x.
Proof.
  induction pre as [| y pre IH]; [ reflexivity | exact IH ].
Qed.

Lemma is_str_initial s letter :
  is_str (match String.get 0 s with
          | Some c => VStr (String c "")
          | None => VUndefined
          end) (String letter "")
  = match String.get 0 s with
    | Some c => Ascii.eqb c letter
    | None => false
    end.
Proof.
  destruct (String.get 0 s) as [c |]; [ | reflexivity ].
  cbn [is_str String.eqb]. destruct (Ascii.eqb c letter); reflexivity.
Qed.

Lemma formatComments_one all (indent lineEnd : string) pre c rest st :
  all = map comment_node (pre ++ c :: rest) ->
  (comment <- item (VArr all) (List.length pre) ;;
   write indent ;;
   type <- field comment "type" ;;
   initial <- item type 0 ;;
   if is_str initial "L"
   then
     v <- field comment "value" ;;
     s <- lift (as_string v) ;;
     write ("// " ++ trim s ++ LF)
   else
     v <- field comment "value" ;;
     body <- reindent v indent ;;
     write ("/*" ++ lineEnd ++ body ++ lineEnd ++ indent ++ "*/" ++ lineEnd))
    st
  = Ok (tt, st, comment_written indent lineEnd c).
Proof.
  intros ->. unfold item, field, lift, bind, write, reindent, ret.
  cbn [idx]. rewrite nth_middle_map. cbn [comment_node get assoc String.eqb Ascii.eqb Bool.eqb idx].
  change "L" with (String "L"%char ""). rewrite is_str_initial.
  unfold comment_written.
  destruct (String.get 0 (comment_type c)) as [a |]; [ | reflexivity ].
  destruct (Ascii.eqb_spec a "L"%char) as [-> | Hne]; [ reflexivity | ].
  cbn [as_string app].
  destruct a as [[] [] [] [] [] [] [] []]; try reflexivity.
  contradiction Hne. reflexivity.
Qed.

Lemma formatComments_iterate all (indent lineEnd : string) rest :
  forall pre st,
    all = map comment_node (pre ++ rest) ->
    iterate (List.length pre) (List.length rest) (fun i =>
      comment <- item (VArr all) i ;;
      write indent ;;
      type <- field comment "type" ;;
      initial <- item type 0 ;;
      if is_str initial "L"
      then
        v <- field comment "value" ;;
        s <- lift (as_string v) ;;
        write ("// " ++ trim s ++ LF)
      else
        v <- field comment "value" ;;
        body <- reindent v indent ;;
        write ("/*" ++ lineEnd ++ body ++ lineEnd ++ indent ++ "*/" ++ lineEnd))
      st
    = Ok (tt, st, flat_map (comment_written indent lineEnd) rest).
Proof.
  induction rest as [| c rest IH]; intros pre st Hall; [ reflexivity | ].
  cbn [List.length iterate flat_map].
  erewrite bind_run by (eapply formatComments_one; exact Hall).
  replace (S (List.length pre)) with (List.length (pre ++ [c]))
    by (rewrite length_app; cbn; lia).
  rewrite IH by (rewrite <- app_assoc; exact Hall).
  reflexivity.
Qed.

Lemma comment_written_text indent lineEnd c :
  text_of (comment_written indent lineEnd c) = comment_text indent lineEnd c.
Proof.
  unfold comment_written, comment_text.
  rewrite !text_of_cons. cbn [text_of map String.concat to_str].
  rewrite append_empty_r, reindent_text_spec.
  destruct (String.get 0 (comment_type c)) as [a |]; [ | reflexivity ].
  destruct a as [[] [] [] [] [] [] [] []]; reflexivity.
Qed.

(** C8.  For a list of comments, [formatComments] writes for each, in
    order, what section 4.7 describes: [indent // value.trim()] and a
    newline for a comment whose type begins with [L]; otherwise the
    re-indented body between [/*] and [*/], each on a line of its own. *)
Theorem formatComments_text comments indent lineEnd st :
  exists written,
    formatComments (VArr (map comment_node comments)) indent lineEnd st
    = Ok (tt, st, written)
    /\ text_of written
       = String.concat "" (map (comment_text indent lineEnd) comments).
Proof.
  exists (flat_map (comment_written indent lineEnd) comments). split.
  - unfold formatComments.
    rewrite (field_bind (VArr (map comment_node comments)) "length" _
               (VNum (Z.of_nat (List.length (map comment_node comments))))
               st eq_refl).
    unfold for_loop. cbn [to_number].
    rewrite (lift_bind (Ok (Some _)) _ _ _ eq_refl).
    cbn [Z.of_nat]. rewrite length_map, Z.sub_0_r, Nat2Z.id.
    apply (formatComments_iterate _ indent lineEnd comments []). reflexivity.
  - induction comments as [| c comments IH]; [ reflexivity | ].
    cbn [flat_map map]. rewrite text_of_app, IH, comment_written_text.
    symmetry. apply concat_empty_cons.
Qed.

(* ===================================================================== *)
(** * The state after a formatter *)
(* ===================================================================== *)








(* ===================================================================== *)
(** * Running loops *)
(* ===================================================================== *)

Lemma bind_intro {A B : Type} (m : M A) (k : A -> M B) st a st1 w1 b st2 w2 :
  m st = Ok (a, st1, w1) -> k a st1 = Ok (b, st2, w2) ->
  bind m k st = Ok (b, st2, (w1 ++ w2)%list).
Proof. intros H1 H2. unfold bind. rewrite H1, H2. reflexivity. Qed.

Lemma bind_intro_eq {A B : Type} (m : M A) (k : A -> M B)
      st a st1 w1 b st2 w2 w :
  m st = Ok (a, st1, w1) -> k a st1 = Ok (b, st2, w2) ->
  w = (w1 ++ w2)%list ->
  bind m k st = Ok (b, st2, w).
Proof. intros H1 H2 ->. unfold bind. rewrite H1, H2. reflexivity. Qed.

Lemma iterate_run (body : nat -> M unit) st (W : nat -> list value) count :
  forall i,
    (forall j, i <= j < i + count -> body j st = Ok (tt, st, W j)) ->
    iterate i count body st = Ok (tt, st, flat_map W (seq i count)).
Proof.
  induction count as [| c IH]; intros i H; [ reflexivity | ].
  cbn [iterate seq flat_map].
  apply bind_intro with (a := tt) (st1 := st).
  - apply H. lia.
  - apply IH. intros j Hj. apply H. lia.
Qed.

Lemma iterate_until_run (step : nat -> bool -> M unit) st
      (W : nat -> list value) further :
  forall i,
    (forall j, i <= j <= i + further ->
               step j (j <? i + further)%nat st = Ok (tt, st, W j)) ->
    iterate_until i further step st
    = Ok (tt, st, flat_map W (seq i (S further))).
Proof.
  induction further as [| f IH]; intros i H.
  - cbn [iterate_until seq flat_map]. rewrite app_nil_r.
    specialize (H i ltac:(lia)). rewrite Nat.add_0_r, Nat.ltb_irrefl in H.
    exact H.
  - cbn [iterate_until]. change (seq i (S (S f))) with (i :: seq (S i) (S f)).
    cbn [flat_map].
    apply bind_intro with (a := tt) (st1 := st).
    + specialize (H i ltac:(lia)).
      replace (i <? i + S f)%nat with true in H
        by (symmetry; apply Nat.ltb_lt; lia).
      exact H.
    + apply IH. intros j Hj.
      replace (S i + f) with (i + S f) by lia. apply H. lia.
Qed.

Lemma for_loop_run start n (body : nat -> M unit) st :
  for_loop start (VNum (Z.of_nat n)) body st
  = iterate start (n - start) body st.
Proof.
  unfold for_loop. cbn [to_number].
  rewrite (lift_bind (Ok (Some (Z.of_nat n))) _ _ _ eq_refl).
  replace (Z.to_nat (Z.of_nat n - Z.of_nat start)) with (n - start) by lia.
  reflexivity.
Qed.

Lemma loop_until_run start n (step : nat -> bool -> M unit) st :
  loop_until start (VNum (Z.of_nat n)) step st
  = iterate_until start (n - start - 1) step st.
Proof.
  unfold loop_until. cbn [to_number].
  rewrite (lift_bind (Ok (Some (Z.of_nat n))) _ _ _ eq_refl).
  replace (Z.to_nat (Z.of_nat n - Z.of_nat start)) with (n - start) by lia.
  reflexivity.
Qed.

Lemma gt_num_run n m st :
  gt_num (VNum (Z.of_nat n)) (Z.of_nat m) st = Ok ((m <? n)%nat, st, []).
Proof.
  unfold gt_num. cbn [to_number].
  rewrite (lift_bind (Ok (Some (Z.of_nat n))) _ _ _ eq_refl).
  unfold ret. repeat f_equal.
  destruct (Nat.ltb_spec m n); [ apply Z.ltb_lt | apply Z.ltb_ge ]; lia.
Qed.

Lemma field_run v k x st : get v k = Ok x -> field v k st = Ok (x, st, []).
Proof. intros H. unfold field, lift. rewrite H. reflexivity. Qed.

Lemma item_run v i x st : idx v i = Ok x -> item v i st = Ok (x, st, []).
Proof. intros H. unfold item, lift. rewrite H. reflexivity. Qed.

Lemma length_run elems st :
  field (VArr elems) "length" st
  = Ok (VNum (Z.of_nat (List.length elems)), st, []).
Proof. reflexivity. Qed.

Lemma nth_run elems i st :
  item (VArr elems) i st = Ok (nth i elems VUndefined, st, []).
Proof. reflexivity. Qed.

Lemma quiet_bind {A B : Type} (m : M A) (k : A -> M B) a st st1 :
  m st = Ok (a, st1, []) -> bind m k st = k a st1.
Proof.
  intros H. unfold bind. rewrite H.
  destruct (k a st1) as [[[b st'] w] | | |]; reflexivity.
Qed.

Lemma pure_bind {A B : Type} (m : M A) (k : A -> M B) a st :
  m st = Ok (a, st, []) -> bind m k st = k a st.
Proof. apply quiet_bind. Qed.

Lemma length_bind {B : Type} elems (k : value -> M B) st :
  bind (field (VArr elems) "length") k st
  = k (VNum (Z.of_nat (List.length elems))) st.
Proof. apply pure_bind. reflexivity. Qed.

Lemma nth_bind {B : Type} elems i (k : value -> M B) st :
  bind (item (VArr elems) i) k st = k (nth i elems VUndefined) st.
Proof. apply pure_bind. reflexivity. Qed.

Lemma gt_num_bind {B : Type} n m (k : bool -> M B) st :
  bind (gt_num (VNum (Z.of_nat n)) (Z.of_nat m)) k st = k (m <? n)%nat st.
Proof. apply pure_bind, gt_num_run. Qed.

Lemma gets_bind {A B : Type} (f : State -> A) (k : A -> M B) st :
  bind (gets f) k st = k (f st) st.
Proof. apply pure_bind. reflexivity. Qed.

Lemma write_step {B : Type} v (rest : M B) st b st2 w :
  rest st = Ok (b, st2, w) ->
  bind (write v) (fun _ => rest) st = Ok (b, st2, v :: w).
Proof. intros H. rewrite write_bind, H. reflexivity. Qed.

Lemma text_of_flat_map {A : Type} (W : A -> list value) l :
  text_of (flat_map W l) = String.concat "" (map (fun j => text_of (W j)) l).
Proof.
  induction l as [| j l IH]; [ reflexivity | ].
  cbn [flat_map map]. rewrite text_of_app, IH, concat_empty_cons. reflexivity.
Qed.

Lemma join_cons_prefixed sep x xs :
  join sep (x :: xs) = x ++ String.concat "" (map (append sep) xs).
Proof.
  unfold join. revert x. induction xs as [| y xs IH]; intros x.
  - cbn. symmetry. apply append_empty_r.
  - change (String.concat sep (x :: y :: xs))
      with (x ++ sep ++ String.concat sep (y :: xs)).
    cbn [map]. rewrite concat_empty_cons, append_assoc, IH. reflexivity.
Qed.

Lemma map_nth_seq {A B : Type} (f : A -> B) (l : list A) d :
  map (fun j => f (nth j l d)) (seq 0 (List.length l)) = map f l.
Proof.
  induction l as [| x l IH]; [ reflexivity | ].
  cbn [List.length seq map nth]. f_equal.
  rewrite <- seq_shift, map_map. exact IH.
Qed.

Lemma map_ext_seq {B : Type} (f g : nat -> B) i n :
  (forall j, i <= j < i + n -> f j = g j) ->
  map f (seq i n) = map g (seq i n).
Proof.
  intros H. apply map_ext_in. intros j Hj. apply in_seq in Hj. apply H. lia.
Qed.

Lemma Forall2_nth {A B : Type} (R : A -> B -> Prop) l1 l2 d1 d2 :
  Forall2 R l1 l2 ->
  forall j, j < List.length l1 -> R (nth j l1 d1) (nth j l2 d2).
Proof.
  induction 1 as [| x y l1 l2 Hxy _ IH]; intros j Hj; [ cbn in Hj; lia | ].
  destruct j as [| j]; [ exact Hxy | ]. cbn in Hj |- *. apply IH. lia.
Qed.

Lemma Forall2_length_eq {A B : Type} (R : A -> B -> Prop) l1 l2 :
  Forall2 R l1 l2 -> List.length l1 = List.length l2.
Proof. induction 1; cbn; congruence. Qed.

(* ===================================================================== *)
(** * Sequences, arrays, programs and blocks *)
(* ===================================================================== *)

Lemma separated_text sep texts :
  text_of (separated sep texts) = join sep (map text_of texts).
Proof.
  destruct texts as [| w ws]; [ reflexivity | ].
  cbn [separated map]. rewrite text_of_app, text_of_flat_map.
  rewrite join_cons_prefixed. f_equal. f_equal. rewrite map_map.
  apply map_ext. intros w'. apply text_of_cons.
Qed.

Lemma flat_map_tail {A : Type} (f : list value -> list A) w0 ws :
  flat_map (fun j => f (nth j (w0 :: ws) [])) (seq 1 (List.length ws))
  = flat_map f ws.
Proof.
  rewrite !flat_map_concat_map. f_equal.
  rewrite <- seq_shift, map_map. cbn [nth].
  apply (map_nth_seq f).
Qed.

(** [formatSequence] on a list whose items are written by [render]. *)
Lemma formatSequence_run this elems texts st :
  Forall2 (fun node w => call this node st = Ok (tt, st, w)) elems texts ->
  formatSequence this (VArr elems) st
  = Ok (tt, st, (VStr "(" :: separated ", " texts ++ [VStr ")"])%list).
Proof.
  intros Hall. unfold formatSequence. cbn [nullish].
  destruct Hall as [| e w0 elems ws He Hall]; [ reflexivity | ].
  pose proof (Forall2_length_eq _ _ _ Hall) as Hlen.
  apply write_step.
  apply bind_intro with (a := tt) (st1 := st); [ | reflexivity ].
  rewrite length_bind, (gt_num_bind _ 0).
  cbn [List.length Nat.ltb Nat.leb when].
  rewrite nth_bind. cbn [nth separated].
  eapply bind_intro; [ exact He | ].
  rewrite length_bind, for_loop_run.
  cbn [List.length]. replace (S (List.length elems) - 1) with (List.length ws) by lia.
  rewrite <- (flat_map_tail (fun w' => VStr ", " :: w') w0 ws).
  apply (iterate_run _ _ (fun j => VStr ", " :: nth j (w0 :: ws) [])).
  intros j Hj. rewrite nth_bind. apply write_step.
  destruct j as [| j]; [ lia | ]. cbn [nth].
  apply (Forall2_nth _ _ _ VUndefined [] Hall). lia.
Qed.

Lemma sequence_text texts :
  text_of (VStr "(" :: separated ", " texts ++ [VStr ")"])%list
  = "(" ++ join ", " (map text_of texts) ++ ")".
Proof.
  rewrite text_of_cons, text_of_app, separated_text. reflexivity.
Qed.

(** X2.  [formatSequence] writes [()] for a missing list of nodes, and for
    an array the texts of its elements in order, separated by a comma and
    a space, between parentheses; the state is left as the elements leave
    it. *)
Theorem formatSequence_text this st :
  (forall nodes,
      nullish nodes = true ->
      formatSequence this nodes st = Ok (tt, st, [VStr "("; VStr ")"]))
  /\ (forall elems texts,
      Forall2 (fun node w => call this node st = Ok (tt, st, w)) elems texts ->
      exists written,
        formatSequence this (VArr elems) st = Ok (tt, st, written)
        /\ text_of written = "(" ++ join ", " (map text_of texts) ++ ")").
Proof.
  split.
  - intros nodes Hnull. unfold formatSequence. rewrite Hnull. reflexivity.
  - intros elems texts Hall. eexists. split.
    + apply formatSequence_run, Hall.
    + apply sequence_text.
Qed.

Lemma indexed_join sep tail (l : list string) :
  forall k,
    l <> [] ->
    String.concat ""
      (map (fun j => nth (j - k) l ""
                     ++ (if (j <? k + List.length l - 1)%nat then sep else tail))
           (seq k (List.length l)))
    = join sep l ++ tail.
Proof.
  induction l as [| x l IH]; intros k Hl; [ congruence | ].
  destruct l as [| y r].
  - cbn [List.length seq map String.concat]. rewrite Nat.sub_diag. cbn [nth].
    replace (k <? k + 1 - 1)%nat with false
      by (symmetry; apply Nat.ltb_ge; lia).
    reflexivity.
  - change (seq k (List.length (x :: y :: r)))
      with (k :: seq (S k) (List.length (y :: r))).
    cbn [map]. rewrite concat_empty_cons, Nat.sub_diag. cbn [nth].
    replace (k <? k + List.length (x :: y :: r) - 1)%nat with true
      by (symmetry; apply Nat.ltb_lt; cbn [List.length]; lia).
    rewrite (map_ext_seq _
               (fun j => nth (j - S k) (y :: r) ""
                         ++ (if (j <? S k + List.length (y :: r) - 1)%nat
                             then sep else tail))).
    + rewrite IH by discriminate.
      change (join sep (x :: y :: r)) with (x ++ sep ++ join sep (y :: r)).
      rewrite !append_assoc. reflexivity.
    + intros j Hj. replace (j - k) with (S (j - S k)) by lia.
      cbn [nth List.length]. f_equal.
      replace (k + S (S (List.length r)) - 1) with (S k + S (List.length r) - 1)
        by lia.
      reflexivity.
Qed.

Lemma nth_last_nonempty {A : Type} (l : list A) d d' :
  l <> [] -> nth (List.length l - 1) l d = last l d'.
Proof.
  induction l as [| x l IH]; intros Hl; [ congruence | ].
  destruct l as [| y r]; [ reflexivity | ].
  change (last (x :: y :: r) d') with (last (y :: r) d').
  rewrite <- IH by discriminate.
  cbn [List.length Nat.sub nth]. rewrite ?Nat.sub_0_r. reflexivity.
Qed.

(** X3.  An [ArrayExpression] writes its elements between brackets,
    separated by a comma and a space, a hole ([null]) writing nothing; when
    the last element is a hole one more separator follows it, so that the
    text read back has as many elements. *)
Theorem ArrayExpression_text this node elems texts st :
  get node "elements" = Ok (VArr elems) ->
  Forall2 (fun element w =>
             if nullish element then w = []
             else call this element st = Ok (tt, st, w)) elems texts ->
  exists written,
    ArrayExpression this node st = Ok (tt, st, written)
    /\ text_of written
       = "[" ++ join ", " (map text_of texts)
         ++ (if nullish (last elems (VStr "")) then ", " else "") ++ "]".
Proof.
  intros He Hall. unfold ArrayExpression.
  pose proof (Forall2_length_eq _ _ _ Hall) as Hlen.
  destruct elems as [| e elems].
  - inversion Hall; subst. eexists. split.
    + apply write_step. rewrite (field_bind _ _ _ _ _ He), length_bind.
      rewrite (gt_num_bind _ 0). reflexivity.
    + reflexivity.
  - set (all := e :: elems) in *.
    set (n := List.length all).
    set (W := fun j =>
                (nth j texts []
                 ++ (if (j <? n - 1)%nat then [VStr ", "]
                     else if nullish (last all (VStr "")) then [VStr ", "]
                          else []))%list).
    exists ((VStr "[" :: flat_map W (seq 0 n)) ++ [VStr "]"])%list. split.
    + cbn [app]. apply write_step.
      rewrite (field_bind _ _ _ _ _ He), length_bind, (gt_num_bind _ 0).
      replace (0 <? List.length all)%nat with true by reflexivity.
      cbn [when].
      apply bind_intro with (a := tt) (st1 := st); [ | reflexivity ].
      fold n. rewrite loop_until_run.
      replace (n - 0 - 1) with (n - 1) by lia.
      replace (seq 0 n) with (seq 0 (S (n - 1)))
        by (f_equal; subst n all; cbn [List.length]; lia).
      apply (iterate_until_run _ _ W). intros j Hj.
      rewrite nth_bind.
      assert (Hjn : j < List.length all)
        by (fold n; subst n all; cbn [List.length] in *; lia).
      pose proof (Forall2_nth _ _ _ VUndefined [] Hall j Hjn) as Hj'.
      cbn beta in Hj'. cbn [Nat.add]. unfold W.
      assert (Hlast : (j <? n - 1)%nat = false ->
                      nth j all VUndefined = last all (VStr "")).
      { intros Hf. apply Nat.ltb_ge in Hf.
        replace j with (List.length all - 1) by (fold n; lia).
        apply nth_last_nonempty. discriminate. }
      destruct (nullish (nth j all VUndefined)) eqn:En.
      * rewrite Hj'. cbn [negb when app]. rewrite ret_bind.
        destruct (j <? n - 1)%nat eqn:Em; [ reflexivity | ].
        rewrite <- (Hlast eq_refl), En. reflexivity.
      * cbn [negb when].
        eapply bind_intro; [ exact Hj' | ].
        destruct (j <? n - 1)%nat eqn:Em; [ reflexivity | ].
        rewrite <- (Hlast eq_refl), En. reflexivity.
    + rewrite text_of_app. cbn [app]. rewrite text_of_cons. cbn [to_str].
      rewrite append_assoc. f_equal.
      rewrite text_of_flat_map.
      rewrite (map_ext_seq _
                 (fun j => nth (j - 0) (map text_of texts) ""
                           ++ (if (j <? 0 + List.length (map text_of texts) - 1)%nat
                               then ", "
                               else if nullish (last all (VStr ""))
                                    then ", " else ""))).
      * replace n with (List.length (map text_of texts))
          by (rewrite length_map; subst n; auto).
        rewrite indexed_join.
        -- rewrite append_assoc. reflexivity.
        -- destruct texts; [ subst all; discriminate | discriminate ].
      * intros j Hj. unfold W. rewrite text_of_app, Nat.sub_0_r.
        rewrite length_map, <- Hlen. fold n. cbn [Nat.add].
        f_equal.
        -- change "" with (text_of []). apply eq_sym, map_nth.
        -- destruct (j <? n - 1)%nat; [ reflexivity | ].
           destruct (nullish _); reflexivity.
Qed.

Lemma repeat_bind {B : Type} s n (k : string -> M B) st :
  (0 <= n)%Z ->
  bind (lift (repeat s n)) k st = k (repeat_nat s (Z.to_nat n)) st.
Proof.
  intros Hn. apply lift_bind. unfold repeat.
  replace (n <? 0)%Z with false by (symmetry; apply Z.ltb_ge; lia).
  reflexivity.
Qed.

Lemma repeat_negative {B : Type} s n (k : string -> M B) st :
  (n < 0)%Z -> bind (lift (repeat s n)) k st = Throw RangeError.
Proof.
  intros Hn. unfold bind, lift, repeat.
  replace (n <? 0)%Z with true by (symmetry; apply Z.ltb_lt; lia).
  reflexivity.
Qed.

Lemma nonempty_run elems st :
  (len <- field (VArr elems) "length" ;; gt_num len 0) st
  = Ok ((0 <? List.length elems)%nat, st, []).
Proof. rewrite length_bind. apply (gt_num_run _ 0). Qed.

Lemma set_indentLevel_same st : set_indentLevel (indentLevel st) st = st.
Proof. destruct st. reflexivity. Qed.

Lemma set_indentLevel_twice a b st :
  set_indentLevel a (set_indentLevel b st) = set_indentLevel a st.
Proof. reflexivity. Qed.

Lemma statements_run (this : Dispatch) statements texts st margin ending :
  Forall2 (fun statement w => call this statement st = Ok (tt, st, w))
          statements texts ->
  for_loop 0 (VNum (Z.of_nat (List.length statements)))
    (fun i =>
       statement <- item (VArr statements) i ;;
       comments_at false statement "comments" margin ending ;;
       write margin ;;
       call this statement ;;
       write ending) st
  = Ok (tt, st,
        flat_map (fun w => VStr margin :: w ++ [VStr ending]) texts).
Proof.
  intros Hall. rewrite for_loop_run, Nat.sub_0_r.
  rewrite (iterate_run _ _
             (fun j => VStr margin :: nth j texts [] ++ [VStr ending])).
  - f_equal. f_equal.
    rewrite (Forall2_length_eq _ _ _ Hall).
    rewrite !flat_map_concat_map. f_equal.
    apply (map_nth_seq (fun w => VStr margin :: w ++ [VStr ending])).
  - intros j Hj. rewrite nth_bind. cbn [comments_at]. rewrite ret_bind.
    apply write_step.
    eapply bind_intro; [ | reflexivity ].
    apply (Forall2_nth _ _ _ VUndefined [] Hall). lia.
Qed.

Lemma statements_text margin ending texts :
  text_of (flat_map (fun w => VStr margin :: w ++ [VStr ending]) texts)
  = String.concat ""
      (map (fun w => margin ++ text_of w ++ ending) texts).
Proof.
  rewrite text_of_flat_map. f_equal. apply map_ext. intros w.
  rewrite text_of_cons, text_of_app. reflexivity.
Qed.

(** X4.  Without comments, a [Program] writes each statement of its body on
    a line of its own: the indentation repeated [indentLevel] times, the
    statement, the line end.  With a negative level it throws a
    [RangeError] instead, even for an empty body. *)
Theorem Program_text this node statements texts st :
  writeComments st = false ->
  get node "body" = Ok (VArr statements) ->
  Forall2 (fun statement w => call this statement st = Ok (tt, st, w))
          statements texts ->
  ((indentLevel st < 0)%Z -> Program this node st = Throw RangeError)
  /\ ((0 <= indentLevel st)%Z ->
      exists written,
        Program this node st = Ok (tt, st, written)
        /\ text_of written
           = String.concat ""
               (map (fun w =>
                       repeat_nat (indent st) (Z.to_nat (indentLevel st))
                       ++ text_of w ++ lineEnd st)
                    texts)).
Proof.
  intros Hc Hb Hall. unfold Program. rewrite !gets_bind. split.
  - intros Hn. apply repeat_negative, Hn.
  - intros Hn. rewrite (repeat_bind _ _ _ _ Hn), !gets_bind, Hc.
    cbn [comments_at]. rewrite ret_bind, (field_bind _ _ _ _ _ Hb), length_bind.
    eexists. split.
    + eapply bind_intro; [ apply statements_run, Hall | reflexivity ].
    + rewrite app_nil_r. apply statements_text.
Qed.

(** X5.  Without comments, a [BlockStatement] with an empty body writes
    [{}]; otherwise an opening brace and a line end, each statement on its
    own line one level deeper than the block, and the closing brace at the
    block's level.  The statements are written at [indentLevel + 1] and the
    level is restored. *)
Theorem BlockStatement_text this node statements texts st :
  writeComments st = false ->
  (0 <= indentLevel st)%Z ->
  get node "body" = Ok (VArr statements) ->
  let inner := set_indentLevel (indentLevel st + 1) st in
  Forall2 (fun statement w => call this statement inner = Ok (tt, inner, w))
          statements texts ->
  let margin := repeat_nat (indent st) (Z.to_nat (indentLevel st)) in
  exists written,
    BlockStatement this node st = Ok (tt, st, written)
    /\ text_of written
       = match statements with
         | [] => "{}"
         | _ =>
             "{" ++ lineEnd st
             ++ String.concat ""
                  (map (fun w => margin ++ indent st ++ text_of w ++ lineEnd st)
                       texts)
             ++ margin ++ "}"
         end.
Proof.
  intros Hc Hn Hb inner Hall margin. unfold BlockStatement.
  rewrite gets_bind.
  assert (Hend : set_indentLevel (indentLevel inner + -1) inner = st).
  { subst inner. cbn [indentLevel set_indentLevel].
    replace (indentLevel st + 1 + -1)%Z with (indentLevel st) by lia.
    destruct st. reflexivity. }
  assert (Hstart : indent_then_increment st = Ok (margin, inner, [])).
  { cbv [indent_then_increment add_indentLevel bind gets modify lift repeat].
    replace (indentLevel st <? 0)%Z with false
      by (symmetry; apply Z.ltb_ge; lia).
    reflexivity. }
  rewrite (quiet_bind _ _ _ _ _ Hstart), !gets_bind.
  replace (writeComments inner) with false by (symmetry; exact Hc).
  replace (lineEnd inner) with (lineEnd st) by reflexivity.
  assert (Hb' : forall k : value -> M unit,
             bind (field node "body") k inner = k (VArr statements) inner)
    by (intros k; apply field_bind, Hb).
  cbv zeta. cbn [comments_at].
  destruct statements as [| s statements].
  - eexists. split.
    + apply write_step. rewrite Hb'. cbn [nullish].
      rewrite (pure_bind _ _ _ _ (nonempty_run _ _)).
      cbn [List.length Nat.ltb Nat.leb].
      rewrite !ret_bind. apply write_step.
      unfold add_indentLevel. rewrite gets_bind. unfold modify.
      rewrite Hend. reflexivity.
    + reflexivity.
  - eexists. split.
    + apply write_step. rewrite Hb'. cbn [nullish].
      rewrite (pure_bind _ _ _ _ (nonempty_run _ _)).
      replace (0 <? List.length (s :: statements))%nat with true by reflexivity.
      eapply bind_intro.
      * apply write_step. rewrite ret_bind, length_bind.
        eapply bind_intro; [ apply statements_run, Hall | reflexivity ].
      * rewrite ret_bind. apply write_step.
        unfold add_indentLevel. rewrite gets_bind. unfold modify.
        rewrite Hend. reflexivity.
    + cbn [app]. rewrite text_of_cons. cbn [to_str]. f_equal.
      rewrite text_of_cons. cbn [to_str]. f_equal.
      rewrite !text_of_app, statements_text, append_assoc.
      f_equal. f_equal.
      apply map_ext. intros w. rewrite append_assoc. reflexivity.
Qed.

(* ===================================================================== *)
(** * Properties the program does not read *)
(* ===================================================================== *)

Lemma value_induction (P : value -> Prop) :
  P VUndefined -> P VNull -> (forall b, P (VBool b)) ->
  (forall n, P (VNum n)) -> (forall s, P (VStr s)) ->
  (forall elems, Forall P elems -> P (VArr elems)) ->
  (forall props, Forall (fun p => P (snd p)) props -> P (VObj props)) ->
  forall v, P v.
Proof.
  intros HU HN HB HZ HS HA HO. fix IH 1. intros v.
  destruct v as [| | b | n | s | elems | props].
  - exact HU.
  - exact HN.
  - apply HB.
  - apply HZ.
  - apply HS.
  - apply HA. induction elems as [| e elems IHl]; constructor.
    + apply IH.
    + exact IHl.
  - apply HO. induction props as [| [k x] props IHl]; constructor.
    + apply IH.
    + exact IHl.
Qed.

Lemma numeric_string_of_Z z : numeric (string_of_Z z) = true.
Proof.
  unfold string_of_Z, NilZero.string_of_int.
  destruct (Z.to_int z) as [d | d]; [ destruct d; reflexivity | reflexivity ].
Qed.

Lemma numeric_string_of_nat i : numeric (string_of_nat i) = true.
Proof. apply numeric_string_of_Z. Qed.

Section Erase.

Variable drop : string -> bool.
Hypothesis Hnum : forall k, numeric k = true -> drop k = false.

Lemma erase_props_assoc k props :
  drop k = false ->
  assoc k ((fix over (ps : list (string * value)) : list (string * value) :=
              match ps with
              | [] => []
              | (k, x) :: ps' =>
                  if drop k then over ps' else (k, erase drop x) :: over ps'
              end) props)
  = option_map (erase drop) (assoc k props).
Proof.
  intros Hk. induction props as [| [k' x] props IH]; [ reflexivity | ].
  cbn [assoc]. destruct (drop k') eqn:Ek'.
  - rewrite IH. destruct (String.eqb_spec k' k) as [-> | _]; [ congruence | ].
    reflexivity.
  - cbn [assoc]. destruct (k' =? k); [ reflexivity | exact IH ].
Qed.

Lemma get_erase v k :
  drop k = false ->
  get (erase drop v) k
  = match get v k with
    | Ok x => Ok (erase drop x)
    | other => other
    end.
Proof.
  intros Hk. destruct v as [| | b | n | s | elems | props]; try reflexivity.
  - cbn [erase get]. destruct (k =? "length"); reflexivity.
  - change (erase drop (VArr elems)) with (VArr (map (erase drop) elems)).
    cbn [get]. rewrite length_map. destruct (k =? "length"); reflexivity.
  - cbn [erase get]. rewrite (erase_props_assoc _ _ Hk).
    destruct (assoc k props); reflexivity.
Qed.

Lemma idx_erase v i :
  idx (erase drop v) i
  = match idx v i with
    | Ok x => Ok (erase drop x)
    | other => other
    end.
Proof using Hnum.
  destruct v as [| | b | n | s | elems | props]; try reflexivity.
  - cbn [erase idx]. destruct (String.get i s); reflexivity.
  - change (erase drop (VArr elems)) with (VArr (map (erase drop) elems)).
    cbn [idx]. f_equal.
    change VUndefined with (erase drop VUndefined) at 1. apply map_nth.
  - cbn [erase idx].
    rewrite (erase_props_assoc _ _ (Hnum _ (numeric_string_of_nat i))).
    destruct (assoc _ props); reflexivity.
Qed.

Lemma to_str_erase v : to_str (erase drop v) = to_str v.
Proof.
  induction v as [| | b | n | s | elems IH | props IH] using value_induction;
    try reflexivity.
  change (erase drop (VArr elems)) with (VArr (map (erase drop) elems)).
  cbn [to_str]. f_equal. rewrite map_map.
  apply map_ext_in. intros e He.
  pose proof (proj1 (Forall_forall _ _) IH e He) as Hx.
  destruct e; try reflexivity; exact Hx.
Qed.

Lemma truthy_erase v : truthy (erase drop v) = truthy v.
Proof. destruct v; reflexivity. Qed.

Lemma nullish_erase v : nullish (erase drop v) = nullish v.
Proof. destruct v; reflexivity. Qed.

Lemma is_str_erase v s : is_str (erase drop v) s = is_str v s.
Proof. destruct v; reflexivity. Qed.

Lemma is_num_erase v n : is_num (erase drop v) n = is_num v n.
Proof. destruct v; reflexivity. Qed.

Lemma to_number_erase v : to_number (erase drop v) = to_number v.
Proof. destruct v; reflexivity. Qed.

Lemma as_string_erase v : as_string (erase drop v) = as_string v.
Proof. destruct v; reflexivity. Qed.

Lemma strict_eq_erase a b :
  strict_eq (erase drop a) (erase drop b) = strict_eq a b.
Proof. destruct a, b; reflexivity. Qed.

Lemma stringify_erase v :
  stringify (erase drop v)
  = match stringify v with
    | Ok x => Ok (erase drop x)
    | other => other
    end.
Proof. destruct v as [| | b | n | s | elems | props]; reflexivity. Qed.

Lemma precedence_erase v : precedence (erase drop v) = precedence v.
Proof. unfold precedence. rewrite to_str_erase. reflexivity. Qed.

Lemma operator_precedence_erase v :
  operator_precedence (erase drop v) = operator_precedence v.
Proof. unfold operator_precedence. rewrite to_str_erase. reflexivity. Qed.

End Erase.

Section Sim.

Variable drop : string -> bool.
Variable wc : bool.
Hypothesis Hnum : forall k, numeric k = true -> drop k = false.
Hypothesis Hcore : forall k, mem k core_fields = true -> drop k = false.
Hypothesis Hcom :
  wc = true -> forall k, mem k comment_fields = true -> drop k = false.

Local Abbreviation sim := (sim drop wc).
Local Abbreviation erased := (erased drop).
Local Abbreviation erase := (erase drop).

Lemma sim_bind {A B : Type} (R : A -> A -> Prop) (R' : B -> B -> Prop)
      (m1 m2 : M A) (k1 k2 : A -> M B) :
  sim R m1 m2 ->
  (forall a1 a2, R a1 a2 -> sim R' (k1 a1) (k2 a2)) ->
  sim R' (bind m1 k1) (bind m2 k2).
Proof.
  intros Hm Hk st Hst. specialize (Hm st Hst). unfold bind, erased_run in *.
  destruct (m2 st) as [[[a2 st2] w2] | | |].
  - destruct Hm as (a1 & -> & HR & Hst2).
    specialize (Hk a1 a2 HR st2 Hst2). unfold erased_run in Hk.
    destruct (k2 a2 st2) as [[[b2 st3] w3] | | |].
    + destruct Hk as (b1 & -> & HR' & Hst3).
      exists b1. rewrite map_app. auto.
    + rewrite Hk. reflexivity.
    + rewrite Hk. reflexivity.
    + rewrite Hk. reflexivity.
  - rewrite Hm. reflexivity.
  - rewrite Hm. reflexivity.
  - rewrite Hm. reflexivity.
Qed.

Lemma sim_ret {A : Type} (R : A -> A -> Prop) a1 a2 :
  R a1 a2 -> sim R (ret a1) (ret a2).
Proof. intros HR st Hst. exists a1. auto. Qed.

Lemma sim_lift {A : Type} (o : outcome A) : sim eq (lift o) (lift o).
Proof.
  intros st Hst. unfold lift, erased_run.
  destruct o as [a | | |]; try reflexivity. exists a. auto.
Qed.

Lemma sim_throw {A : Type} (R : A -> A -> Prop) e :
  sim R (@throw A e) (throw e).
Proof. intros st Hst. reflexivity. Qed.

Lemma sim_gets {A : Type} (f : State -> A) : sim eq (gets f) (gets f).
Proof. intros st Hst. exists (f st). auto. Qed.

Lemma sim_gets_writeComments :
  sim (fun a1 a2 => a1 = a2 /\ a2 = wc) (gets writeComments) (gets writeComments).
Proof. intros st Hst. exists (writeComments st). auto. Qed.

Lemma sim_modify f :
  (forall st, writeComments (f st) = writeComments st) ->
  sim eq (modify f) (modify f).
Proof. intros Hf st Hst. exists tt. rewrite Hf. auto. Qed.

Lemma sim_write v : sim eq (write (erase v)) (write v).
Proof. intros st Hst. exists tt. auto. Qed.

Lemma sim_write_fixed v : erase v = v -> sim eq (write v) (write v).
Proof. intros Hv st Hst. exists tt. cbn [map]. rewrite Hv. auto. Qed.

Lemma sim_field v k :
  drop k = false -> sim erased (field (erase v) k) (field v k).
Proof.
  intros Hk st Hst. unfold field, lift, erased_run.
  rewrite (get_erase _ _ _ Hk).
  destruct (get v k) as [x | | |]; try reflexivity.
  exists (erase x). unfold erased. auto.
Qed.

Lemma sim_item v i : sim erased (item (erase v) i) (item v i).
Proof using Hnum.
  intros st Hst. unfold item, lift, erased_run.
  rewrite (idx_erase _ Hnum).
  destruct (idx v i) as [x | | |]; try reflexivity.
  exists (erase x). unfold erased. auto.
Qed.

Lemma sim_stringify v :
  sim erased (lift (stringify (erase v))) (lift (stringify v)).
Proof.
  intros st Hst. unfold lift, erased_run. rewrite stringify_erase.
  destruct (stringify v) as [x | | |]; try reflexivity.
  exists (erase x). unfold erased. auto.
Qed.

Lemma sim_if {A : Type} (R : A -> A -> Prop) (b : bool) (a1 a2 b1 b2 : M A) :
  (b = true -> sim R a1 a2) -> (b = false -> sim R b1 b2) ->
  sim R (if b then a1 else b1) (if b then a2 else b2).
Proof. destruct b; auto. Qed.

Lemma sim_when b (m1 m2 : M unit) :
  (b = true -> sim eq m1 m2) -> sim eq (when b m1) (when b m2).
Proof. intros H. unfold when. apply sim_if; [ exact H | intros _ ]. apply sim_ret. reflexivity. Qed.

Lemma sim_iterate body1 body2 :
  (forall i, sim eq (body1 i) (body2 i)) ->
  forall count i, sim eq (iterate i count body1) (iterate i count body2).
Proof.
  intros H count. induction count as [| c IH]; intros i; cbn [iterate].
  - apply sim_ret. reflexivity.
  - eapply sim_bind; [ apply H | intros _ _ _; apply IH ].
Qed.

Lemma sim_for_loop start length body1 body2 :
  (forall i, sim eq (body1 i) (body2 i)) ->
  sim eq (for_loop start (erase length) body1) (for_loop start length body2).
Proof.
  intros H. unfold for_loop. rewrite to_number_erase.
  eapply sim_bind; [ apply sim_lift | intros n ? <- ].
  destruct n as [z |]; [ apply sim_iterate, H | apply sim_ret; reflexivity ].
Qed.

Lemma sim_iterate_until step1 step2 :
  (forall i more, sim eq (step1 i more) (step2 i more)) ->
  forall further i,
    sim eq (iterate_until i further step1) (iterate_until i further step2).
Proof.
  intros H further. induction further as [| f IH]; intros i; cbn [iterate_until].
  - apply H.
  - eapply sim_bind; [ apply H | intros _ _ _; apply IH ].
Qed.

Lemma sim_loop_until start length step1 step2 :
  (forall i more, sim eq (step1 i more) (step2 i more)) ->
  sim eq (loop_until start (erase length) step1)
         (loop_until start length step2).
Proof.
  intros H. unfold loop_until. rewrite to_number_erase.
  eapply sim_bind; [ apply sim_lift | intros n ? <- ].
  destruct n as [z |]; [ apply sim_iterate_until, H | apply H ].
Qed.

Lemma sim_gt_num v n : sim eq (gt_num (erase v) n) (gt_num v n).
Proof.
  unfold gt_num. rewrite to_number_erase.
  eapply sim_bind; [ apply sim_lift | intros x ? <- ].
  apply sim_ret. reflexivity.
Qed.

Lemma sim_add_indentLevel d : sim eq (add_indentLevel d) (add_indentLevel d).
Proof.
  unfold add_indentLevel.
  eapply sim_bind; [ apply sim_gets | intros level ? <- ].
  apply sim_modify. reflexivity.
Qed.

Lemma sim_indent_then_increment :
  sim eq indent_then_increment indent_then_increment.
Proof.
  unfold indent_then_increment.
  eapply sim_bind; [ apply sim_gets | intros unit_ ? <- ].
  eapply sim_bind; [ apply sim_gets | intros level ? <- ].
  eapply sim_bind; [ apply sim_add_indentLevel | intros _ _ _ ].
  apply sim_lift.
Qed.

Lemma hasCallExpression_erase n :
  forall v, depth v <= n -> hasCallExpression (erase v) = hasCallExpression v.
Proof using Hnum Hcore.
  induction n as [| n IH]; intros v Hd.
  - destruct v; cbn in Hd; try reflexivity; lia.
  - rewrite !hasCallExpression_loop, nullish_erase.
    destruct (nullish v); [ reflexivity | ].
    rewrite (get_erase _ _ "type" (Hcore "type" eq_refl)).
    destruct (get v "type") as [type | | |]; try reflexivity.
    rewrite !(idx_erase _ Hnum).
    destruct (idx type 0) as [c0 | | |]; try reflexivity.
    destruct (idx type 1) as [c1 | | |]; try reflexivity.
    destruct (idx type 2) as [c2 | | |]; try reflexivity.
    rewrite !is_str_erase.
    destruct (is_str c0 "C" && is_str c1 "a"); [ reflexivity | ].
    destruct (is_str c0 "M" && is_str c1 "e" && is_str c2 "m");
      [ | reflexivity ].
    rewrite (get_erase _ _ "object" (Hcore "object" eq_refl)).
    destruct (get v "object") as [object | | |] eqn:Eo; try reflexivity.
    apply IH. apply get_depth in Eo. lia.
Qed.

End Sim.

Lemma hasCallExpression_erased drop :
  (forall k, numeric k = true -> drop k = false) ->
  (forall k, mem k core_fields = true -> drop k = false) ->
  forall v, hasCallExpression (erase drop v) = hasCallExpression v.
Proof.
  intros Hnum Hcore v.
  exact (hasCallExpression_erase drop Hnum Hcore (depth v) v (le_n _)).
Qed.

Ltac sim_side :=
  match goal with
  | H : forall k, mem k core_fields = true -> _ |- _ = false =>
      apply H; reflexivity
  | H : _ = true -> forall k, mem k comment_fields = true -> _ |- _ = false =>
      apply H; [ assumption | reflexivity ]
  | H : forall k, numeric k = true -> _ |- _ = false =>
      apply H; apply numeric_string_of_Z
  end.

Ltac sim_norm :=
  unfold precedence, operator_precedence;
  rewrite ?to_str_erase, ?truthy_erase, ?nullish_erase, ?is_str_erase,
    ?is_num_erase, ?to_number_erase, ?as_string_erase, ?strict_eq_erase.

Create HintDb sim.

Ltac sim_step :=
  sim_norm;
  lazymatch goal with
  | |- sim _ _ _ (bind (gets writeComments) _) (bind _ _) =>
      eapply sim_bind;
      [ apply sim_gets_writeComments
      | let H := fresh in intros ? ? H; cbv beta in H; destruct H as [-> ->] ]
  | |- sim _ _ _ (bind (field _ _) _) (bind _ _) =>
      eapply sim_bind;
      [ apply sim_field; sim_side
      | let a := fresh "a" in let H := fresh in intros a ? H; unfold erased in H; subst a ]
  | |- sim _ _ _ (bind (item _ _) _) (bind _ _) =>
      eapply sim_bind;
      [ apply sim_item; assumption
      | let a := fresh "a" in let H := fresh in intros a ? H; unfold erased in H; subst a ]
  | |- sim _ _ _ (bind (lift (stringify _)) _) (bind _ _) =>
      eapply sim_bind;
      [ apply sim_stringify
      | let a := fresh "a" in let H := fresh in intros a ? H; unfold erased in H; subst a ]
  | |- sim _ _ _ (bind (last_quasi _) _) (bind _ _) =>
      eapply sim_bind;
      [ solve [ eauto with sim ]
      | let a := fresh "a" in let H := fresh in intros a ? H; unfold erased in H; subst a ]
  | |- sim _ _ _ (bind _ _) (bind _ _) =>
      eapply (@sim_bind _ _ _ _ eq); [ | intros ? ? <- ]
  | |- sim _ _ _ (ret _) (ret _) => apply sim_ret; reflexivity
  | |- sim _ _ _ (lift (hasCallExpression _)) _ =>
      rewrite hasCallExpression_erased by assumption; apply sim_lift
  | |- sim _ _ _ (lift _) (lift _) => apply sim_lift
  | |- sim _ _ _ (throw _) _ => apply sim_throw
  | |- sim _ _ _ (gets _) _ => apply sim_gets
  | |- sim _ _ _ (modify _) _ => apply sim_modify; reflexivity
  | |- sim _ _ _ (write (erase _ _)) _ => apply sim_write
  | |- sim _ _ _ (write _) _ =>
      apply sim_write_fixed;
      repeat match goal with
             | |- context [if ?b then _ else _] => destruct b
             end;
      reflexivity
  | |- sim _ _ _ (gt_num _ _) _ => apply sim_gt_num
  | |- sim _ _ _ (add_indentLevel _) _ => apply sim_add_indentLevel
  | |- sim _ _ _ indent_then_increment _ => apply sim_indent_then_increment
  | |- sim _ _ _ (when _ _) (when _ _) => apply sim_when; intros ?
  | |- sim _ _ _ (for_loop _ _ _) _ => apply sim_for_loop; intros ?
  | |- sim _ _ _ (loop_until _ _ _) _ => apply sim_loop_until; intros ? ?
  | |- sim _ _ _ (iterate_until _ _ _) _ =>
      apply sim_iterate_until; intros ? ?
  | |- sim _ _ _ (if _ then _ else _) (if _ then _ else _) =>
      apply sim_if; intros ?
  | |- sim _ _ _ (match ?x with _ => _ end) (match ?x with _ => _ end) =>
      destruct x
  | |- sim _ _ _ _ _ => solve [ eauto with sim ]
  end.

Ltac simulate := repeat sim_step.

Section Blind.

Variable drop : string -> bool.
Variable wc : bool.
Hypothesis Hnum : forall k, numeric k = true -> drop k = false.
Hypothesis Hcore : forall k, mem k core_fields = true -> drop k = false.
Hypothesis Hcom :
  wc = true -> forall k, mem k comment_fields = true -> drop k = false.

Local Abbreviation sim := (sim drop wc).
Local Abbreviation erase := (erase drop).

Lemma sim_expressionNeedsParenthesis node parentNode isRightHand :
  sim eq (expressionNeedsParenthesis (erase node) (erase parentNode) isRightHand)
         (expressionNeedsParenthesis node parentNode isRightHand).
Proof using Hnum Hcore.
  unfold expressionNeedsParenthesis. cbv zeta. simulate.
Qed.

Lemma sim_reindent text indentation :
  sim eq (reindent (erase text) indentation) (reindent text indentation).
Proof. unfold reindent. simulate. Qed.

Hint Resolve sim_expressionNeedsParenthesis sim_reindent : sim.

Lemma sim_formatComments comments indent lineEnd :
  sim eq (formatComments (erase comments) indent lineEnd)
         (formatComments comments indent lineEnd).
Proof using Hnum Hcore. unfold formatComments. simulate. Qed.

Hint Resolve sim_formatComments : sim.

Lemma sim_comments_at node k indent lineEnd :
  mem k comment_fields = true ->
  sim eq (comments_at wc (erase node) k indent lineEnd)
         (comments_at wc node k indent lineEnd).
Proof using Hnum Hcore Hcom.
  intros Hk. unfold comments_at. apply sim_if; intros Hwc.
  - eapply sim_bind;
      [ apply sim_field; apply Hcom; assumption
      | let a := fresh "a" in let H := fresh in intros a ? H; unfold erased in H; subst a ].
    simulate.
  - apply sim_ret. reflexivity.
Qed.

Lemma sim_import_leading specifiers todo :
  forall i,
    sim eq (import_leading (erase specifiers) i todo)
           (import_leading specifiers i todo).
Proof using Hnum Hcore.
  induction todo as [| t IH]; intros i; cbn [import_leading]; simulate.
  all: apply IH.
Qed.

Lemma sim_last_quasi quasis :
  sim (erased drop) (last_quasi (erase quasis)) (last_quasi quasis).
Proof using Hnum Hcore.
  unfold last_quasi. simulate.
  - apply sim_item. assumption.
  - apply sim_field. sim_side.
  - apply sim_field. sim_side.
Qed.

Hint Resolve sim_import_leading sim_last_quasi : sim.

Section Calls.

Variable this : Dispatch.
Hypothesis Hthis :
  forall key node, sim eq (this key (erase node)) (this key node).

Lemma sim_call node : sim eq (call this (erase node)) (call this node).
Proof using Hthis Hcore. unfold call. simulate. Qed.

Hint Resolve sim_call : sim.

Lemma sim_emit node k :
  mem k core_fields = true ->
  sim eq (emit this (erase node) k) (emit this node k).
Proof using Hthis Hcore.
  intros Hk. unfold emit.
  eapply sim_bind;
    [ apply sim_field, Hcore, Hk
    | let a := fresh "a" in let H := fresh in intros a ? H; unfold erased in H; subst a ].
  apply sim_call.
Qed.

Lemma sim_formatSequence nodes :
  sim eq (formatSequence this (erase nodes)) (formatSequence this nodes).
Proof using Hthis Hnum Hcore. unfold formatSequence. simulate. Qed.

Lemma sim_formatBinaryExpressionPart node parentNode isRightHand :
  sim eq (formatBinaryExpressionPart this (erase node) (erase parentNode)
                                     isRightHand)
         (formatBinaryExpressionPart this node parentNode isRightHand).
Proof using Hthis Hnum Hcore. unfold formatBinaryExpressionPart. simulate. Qed.

End Calls.

End Blind.

#[export] Hint Extern 1 (sim _ _ _ (call _ _) _) =>
  apply sim_call; assumption : sim.
#[export] Hint Extern 1 (sim _ _ _ (emit _ _ _) _) =>
  apply sim_emit; first [ assumption | reflexivity ] : sim.
#[export] Hint Extern 1 (sim _ _ _ (formatSequence _ _) _) =>
  apply sim_formatSequence; assumption : sim.
#[export] Hint Extern 1 (sim _ _ _ (formatBinaryExpressionPart _ _ _ _) _) =>
  apply sim_formatBinaryExpressionPart; assumption : sim.
#[export] Hint Extern 1 (sim _ _ _ (comments_at _ _ _ _ _) _) =>
  apply sim_comments_at; first [ assumption | reflexivity ] : sim.
#[export] Hint Extern 1 (sim _ _ _ (formatComments _ _ _) _) =>
  apply sim_formatComments; assumption : sim.
#[export] Hint Extern 1 (sim _ _ _ (expressionNeedsParenthesis _ _ _) _) =>
  apply sim_expressionNeedsParenthesis; assumption : sim.
#[export] Hint Extern 1 (sim _ _ _ (reindent _ _) _) =>
  apply sim_reindent : sim.
#[export] Hint Extern 1 (sim _ _ _ (import_leading _ _ _) _) =>
  apply sim_import_leading; assumption : sim.
#[export] Hint Extern 1 (sim _ _ _ (last_quasi _) _) =>
  apply sim_last_quasi; assumption : sim.

Section Generator.

Variable drop : string -> bool.
Variable wc : bool.
Hypothesis Hnum : forall k, numeric k = true -> drop k = false.
Hypothesis Hcore : forall k, mem k core_fields = true -> drop k = false.
Hypothesis Hcom :
  wc = true -> forall k, mem k comment_fields = true -> drop k = false.

Lemma defaultGenerator_blind :
  Forall (fun entry => blind drop wc (snd entry)) defaultGenerator.
Proof using Hnum Hcore Hcom.
  unfold defaultGenerator.
  repeat (apply Forall_cons;
          [ cbn [snd];
            lazymatch goal with
            | |- blind _ _ ?f =>
                intros this Hthis node; unfold f; cbv zeta; simulate
            end
          | ]).
  apply Forall_nil.
Qed.

End Generator.

Lemma sim_call_inherited drop wc generator name :
  sim drop wc eq (call_inherited generator name)
      (call_inherited generator name).
Proof.
  unfold call_inherited.
  destruct (mem name _); [ apply sim_throw | ].
  destruct (_ && _); [ apply sim_lift | apply sim_ret; reflexivity ].
Qed.

Lemma dispatch_blind drop wc :
  (forall k, numeric k = true -> drop k = false) ->
  (forall k, mem k core_fields = true -> drop k = false) ->
  (wc = true -> forall k, mem k comment_fields = true -> drop k = false) ->
  forall fuel key node,
    sim drop wc eq (dispatch fuel defaultGenerator key (erase drop node))
        (dispatch fuel defaultGenerator key node).
Proof.
  intros Hnum Hcore Hcom fuel.
  induction fuel as [| fuel IH]; intros key node; rewrite !dispatch_eq;
    destruct (lookup defaultGenerator key) as [f | name |] eqn:E;
    try apply sim_throw; try apply sim_call_inherited.
  - apply sim_lift.
  - apply lookup_Own_In in E.
    pose proof (proj1 (Forall_forall _ _)
                  (defaultGenerator_blind drop wc Hnum Hcore Hcom) _ E) as Hf.
    apply Hf. exact IH.
Qed.

Lemma text_of_erase drop w : text_of (map (erase drop) w) = text_of w.
Proof.
  unfold text_of. rewrite map_map. f_equal. apply map_ext. intros v.
  apply to_str_erase.
Qed.

Lemma mem_In k l : mem k l = true -> In k l.
Proof.
  unfold mem. intros H. apply existsb_exists in H as (x & Hx & Heq).
  apply String.eqb_eq in Heq. subst x. exact Hx.
Qed.

(** A render into a string does not tell a node from the node without
    the properties of [drop]. *)
Lemma astring_blind drop fuel node options :
  (forall k, numeric k = true -> drop k = false) ->
  (forall k, mem k core_fields = true -> drop k = false) ->
  (opt_comments options = true ->
   forall k, mem k comment_fields = true -> drop k = false) ->
  opt_generator options = None ->
  opt_output options = None ->
  astring fuel (erase drop node) (Some options)
  = astring fuel node (Some options).
Proof.
  intros Hnum Hcore Hcom Hg Ho. unfold astring, new_State.
  cbn [or_default]. rewrite Hg, Ho. cbn [or_default].
  set (state := {| sourceMap := _ |}).
  pose proof (sim_call drop (opt_comments options) Hcore
                (dispatch fuel defaultGenerator)
                (dispatch_blind drop _ Hnum Hcore Hcom fuel) node state eq_refl)
    as H.
  unfold erased_run in H.
  destruct (call (dispatch fuel defaultGenerator) node state)
    as [[[a2 st2] w2] | | |].
  - destruct H as (a1 & -> & _ & _). cbn [returned sink_write].
    rewrite text_of_erase. reflexivity.
  - rewrite H. reflexivity.
  - rewrite H. reflexivity.
  - rewrite H. reflexivity.
Qed.

Lemma comment_fields_unread k :
  mem k comment_fields = true ->
  numeric k = false /\ mem k core_fields = false.
Proof.
  intros H. apply mem_In in H. cbn in H.
  destruct H as [<- | [<- | []]]; split; reflexivity.
Qed.

Lemma astring_blind_options drop fuel node options :
  (forall k, numeric k = true -> drop k = false) ->
  (forall k, mem k core_fields = true -> drop k = false) ->
  (opt_comments (or_default options no_options) = true ->
   forall k, mem k comment_fields = true -> drop k = false) ->
  opt_generator (or_default options no_options) = None ->
  opt_output (or_default options no_options) = None ->
  astring fuel (erase drop node) options = astring fuel node options.
Proof.
  intros Hnum Hcore Hcom Hg Ho. destruct options as [options |].
  - apply astring_blind; assumption.
  - apply (astring_blind drop fuel node no_options); assumption.
Qed.

(** X6.  When the option [comments] is off, [astring] returns the same for a
    node and for the node with every [comments] and [trailingComments]
    property removed, at any depth: comments are then never read.  This is
    stated of every render but the ones that would call [JSON.stringify] on
    an object or array. *)
Theorem comments_ignored fuel node options :
  opt_comments (or_default options no_options) = false ->
  opt_generator (or_default options no_options) = None ->
  opt_output (or_default options no_options) = None ->
  astring fuel node options <> Unmodelled ->
  astring fuel (without_comments node) options = astring fuel node options.
Proof.
  intros Hc Hg Ho _. apply astring_blind_options; try assumption.
  - intros k Hk. destruct (mem k comment_fields) eqn:E; [ | reflexivity ].
    apply comment_fields_unread in E as [E _]. congruence.
  - intros k Hk. destruct (mem k comment_fields) eqn:E; [ | reflexivity ].
    apply comment_fields_unread in E as [_ E]. congruence.
  - rewrite Hc. discriminate.
Qed.


(* ===================================================================== *)
(** * Parentheses by kind *)
(* ===================================================================== *)

Lemma mem_filter_assoc (P : string * Z -> bool) k (tbl : list (string * Z)) :
  NoDup (map fst tbl) ->
  mem k (map fst (filter P tbl))
  = match assoc k tbl with
    | Some m => P (k, m)
    | None => false
    end.
Proof.
  induction tbl as [| [k' m] tbl IH]; intros Hnd; [ reflexivity | ].
  cbn [map fst] in Hnd. inversion Hnd as [| ? ? Hnotin Hnd']; subst.
  cbn [filter assoc]. destruct (String.eqb_spec k' k) as [-> | Hne].
  - destruct (P (k, m)) eqn:EP.
    + cbn [map fst mem existsb]. unfold mem. cbn [existsb].
      rewrite String.eqb_refl. reflexivity.
    + rewrite IH by exact Hnd'.
      destruct (assoc k tbl) as [m' |] eqn:E; [ | reflexivity ].
      contradiction Hnotin. apply assoc_In in E.
      apply (in_map fst) in E. exact E.
  - destruct (P (k', m)).
    + unfold mem. cbn [map fst existsb].
      replace (k =? k') with false
        by (symmetry; apply String.eqb_neq; congruence).
      apply IH, Hnd'.
    + apply IH, Hnd'.
Qed.

Lemma EXPRESSIONS_PRECEDENCE_NoDup : NoDup (map fst EXPRESSIONS_PRECEDENCE).
Proof.
  unfold EXPRESSIONS_PRECEDENCE. cbn [map fst].
  repeat (apply NoDup_cons;
          [ cbn [In]; intros H;
            repeat (destruct H as [H | H]; [ discriminate H | ]); exact H
          | ]).
  apply NoDup_nil.
Qed.

Lemma precedence_below type n :
  slot_lt (precedence type) (Own n) = Ok (mem (to_str type) (below n)).
Proof.
  unfold below. rewrite mem_filter_assoc by apply EXPRESSIONS_PRECEDENCE_NoDup.
  unfold precedence, lookup.
  destruct (assoc (to_str type) EXPRESSIONS_PRECEDENCE) as [m |];
    [ reflexivity | ].
  destruct (mem _ Object_prototype); reflexivity.
Qed.

Lemma precedence_above type n :
  slot_lt (Own n) (precedence type) = Ok (mem (to_str type) (above n)).
Proof.
  unfold above. rewrite mem_filter_assoc by apply EXPRESSIONS_PRECEDENCE_NoDup.
  unfold precedence, lookup.
  destruct (assoc (to_str type) EXPRESSIONS_PRECEDENCE) as [m |];
    [ reflexivity | ].
  destruct (mem _ Object_prototype); reflexivity.
Qed.

Lemma wrapped_run (this : Dispatch) (parens : bool) node st st' w :
  call this node st = Ok (tt, st', w) ->
  (if parens
   then write "(" ;; call this node ;; write ")"
   else call this node) st
  = Ok (tt, st', if parens then (VStr "(" :: w ++ [VStr ")"])%list else w).
Proof.
  intros H. destruct parens; [ | exact H ].
  apply write_step. eapply bind_intro; [ exact H | reflexivity ].
Qed.

Lemma wrapped_text (parens : bool) w :
  text_of (if parens then (VStr "(" :: w ++ [VStr ")"])%list else w)
  = wrap parens (text_of w).
Proof.
  destruct parens; [ | reflexivity ].
  rewrite text_of_cons, text_of_app. reflexivity.
Qed.

(** X8.  A prefix [UnaryExpression] writes its operator, a space when the
    operator has more than one character, and its argument, which is put
    between parentheses exactly when it is a binary, logical, conditional,
    assignment or yield expression or a rest element: the kinds of
    precedence below 15. *)
Theorem UnaryExpression_text
        this node prefix operator argument type st st' w :
  get node "prefix" = Ok prefix ->
  truthy prefix = true ->
  get node "operator" = Ok (VStr operator) ->
  get node "argument" = Ok argument ->
  get argument "type" = Ok type ->
  call this argument st = Ok (tt, st', w) ->
  exists written,
    UnaryExpression this node st = Ok (tt, st', written)
    /\ text_of written
       = operator
         ++ (if (1 <? String.length operator)%nat then " " else "")
         ++ wrap (mem (to_str type) (below 15)) (text_of w).
Proof.
  intros Hp Htrue Ho Ha Ht Hrun. unfold UnaryExpression.
  rewrite (field_bind _ _ _ _ _ Hp), Htrue, (field_bind _ _ _ _ _ Ho).
  eexists. split.
  - apply write_step.
    rewrite (field_bind (VStr operator) "length" _
               (VNum (Z.of_nat (String.length operator))) _ eq_refl).
    rewrite (gt_num_bind _ 1).
    eapply bind_intro
      with (a := tt) (st1 := st)
           (w1 := if (1 <? String.length operator)%nat
                  then [VStr " "] else []).
    + destruct (1 <? String.length operator)%nat; reflexivity.
    + rewrite (field_bind _ _ _ _ _ Ha), (field_bind _ _ _ _ _ Ht).
      change (precedence "UnaryExpression") with (@Own Z 15%Z).
      rewrite (lift_bind _ _ _ _ (precedence_below type 15)).
      apply wrapped_run, Hrun.
  - rewrite text_of_cons, text_of_app, wrapped_text. cbn [to_str].
    destruct (1 <? String.length operator)%nat; reflexivity.
Qed.

(** X9.  A [CallExpression] writes its callee, between parentheses exactly
    when the callee's kind has a precedence below 19, followed by the
    arguments as [formatSequence] writes them. *)
Theorem CallExpression_text
        this node callee type arguments texts st w :
  get node "callee" = Ok callee ->
  get callee "type" = Ok type ->
  call this callee st = Ok (tt, st, w) ->
  get node "arguments" = Ok (VArr arguments) ->
  Forall2 (fun argument t => call this argument st = Ok (tt, st, t))
          arguments texts ->
  exists written,
    CallExpression this node st = Ok (tt, st, written)
    /\ text_of written
       = wrap (mem (to_str type) (below 19)) (text_of w)
         ++ "(" ++ join ", " (map text_of texts) ++ ")".
Proof.
  intros Hc Ht Hrun Ha Hall. unfold CallExpression.
  rewrite (field_bind _ _ _ _ _ Hc), (field_bind _ _ _ _ _ Ht).
  change (precedence "CallExpression") with (@Own Z 19%Z).
  rewrite (lift_bind _ _ _ _ (precedence_below type 19)).
  eexists. split.
  - eapply bind_intro; [ apply wrapped_run, Hrun | ].
    rewrite (field_bind _ _ _ _ _ Ha). apply formatSequence_run, Hall.
  - rewrite text_of_app, wrapped_text, sequence_text. reflexivity.
Qed.

(** X10.  A [MemberExpression] writes its object, between parentheses
    exactly when the object's kind has a precedence below 19, then the
    property between brackets when computed and after a dot otherwise. *)
Theorem MemberExpression_text
        this node object type computed property st w p :
  get node "object" = Ok object ->
  get object "type" = Ok type ->
  call this object st = Ok (tt, st, w) ->
  get node "computed" = Ok computed ->
  get node "property" = Ok property ->
  call this property st = Ok (tt, st, p) ->
  exists written,
    MemberExpression this node st = Ok (tt, st, written)
    /\ text_of written
       = wrap (mem (to_str type) (below 19)) (text_of w)
         ++ (if truthy computed
             then "[" ++ text_of p ++ "]"
             else "." ++ text_of p).
Proof.
  intros Ho Ht Hrun Hc Hp Hprop. unfold MemberExpression.
  rewrite (field_bind _ _ _ _ _ Ho), (field_bind _ _ _ _ _ Ht).
  change (precedence "MemberExpression") with (@Own Z 19%Z).
  rewrite (lift_bind _ _ _ _ (precedence_below type 19)).
  assert (He : emit this node "property" st = Ok (tt, st, p)).
  { unfold emit. rewrite (field_bind _ _ _ _ _ Hp). exact Hprop. }
  destruct (truthy computed) eqn:Ec.
  - eexists. split.
    + eapply bind_intro; [ apply wrapped_run, Hrun | ].
      rewrite (field_bind _ _ _ _ _ Hc), Ec.
      apply write_step. eapply bind_intro; [ exact He | reflexivity ].
    + rewrite text_of_app, wrapped_text, text_of_cons, text_of_app.
      reflexivity.
  - eexists. split.
    + eapply bind_intro; [ apply wrapped_run, Hrun | ].
      rewrite (field_bind _ _ _ _ _ Hc), Ec.
      apply write_step. exact He.
    + rewrite text_of_app, wrapped_text, text_of_cons. reflexivity.
Qed.

Lemma hasCallExpression_chain root properties :
  hasCallExpression (member_chain root properties) = hasCallExpression root.
Proof.
  induction properties as [| property rest IH]; [ reflexivity | ].
  cbn [member_chain]. rewrite hasCallExpression_loop. exact IH.
Qed.

(** X11.  A [NewExpression] writes [new], its callee and the arguments; the
    callee is put between parentheses when its kind has a precedence below
    19 or when [hasCallExpression] finds a call in it.  [hasCallExpression]
    follows the chain of member objects: on a chain of member accesses it
    answers as on the root of the chain, and yes on a call. *)
Theorem NewExpression_text :
  (forall this node callee type has arguments texts st w,
      get node "callee" = Ok callee ->
      get callee "type" = Ok type ->
      hasCallExpression callee = Ok has ->
      call this callee st = Ok (tt, st, w) ->
      get node "arguments" = Ok (VArr arguments) ->
      Forall2 (fun argument t => call this argument st = Ok (tt, st, t))
              arguments texts ->
      exists written,
        NewExpression this node st = Ok (tt, st, written)
        /\ text_of written
           = "new "
             ++ wrap (mem (to_str type) (below 19) || has) (text_of w)
             ++ "(" ++ join ", " (map text_of texts) ++ ")")
  /\ (forall root properties,
      hasCallExpression (member_chain root properties)
      = hasCallExpression root)
  /\ (forall props,
      assoc "type" props = Some (VStr "CallExpression") ->
      hasCallExpression (VObj props) = Ok true).
Proof.
  refine (conj _ (conj hasCallExpression_chain _)).
  - intros this node callee type has arguments texts st w
           Hc Ht Hhas Hrun Ha Hall.
    unfold NewExpression.
    exists (VStr "new "
            :: (if mem (to_str type) (below 19) || has
                then (VStr "(" :: w ++ [VStr ")"])%list else w)
            ++ (VStr "(" :: separated ", " texts ++ [VStr ")"]))%list.
    split.
    + apply write_step.
      rewrite (field_bind _ _ _ _ _ Hc), (field_bind _ _ _ _ _ Ht).
      change (precedence "CallExpression") with (@Own Z 19%Z).
      rewrite (lift_bind _ _ _ _ (precedence_below type 19)).
      rewrite (pure_bind _ _ (mem (to_str type) (below 19) || has)).
      * eapply bind_intro; [ apply wrapped_run, Hrun | ].
        rewrite (field_bind _ _ _ _ _ Ha). apply formatSequence_run, Hall.
      * destruct (mem (to_str type) (below 19)); [ reflexivity | ].
        unfold lift. rewrite Hhas. reflexivity.
    + rewrite text_of_cons, text_of_app, wrapped_text, sequence_text.
      reflexivity.
  - intros props Ht. cbn [hasCallExpression]. rewrite Ht. reflexivity.
Qed.

(** X12.  A [ConditionalExpression] writes test, [?], consequent, [:],
    alternate; the test is put between parentheses unless its kind has a
    precedence above 4, so for conditional, assignment and yield
    expressions, rest elements and kinds without a precedence. *)
Theorem ConditionalExpression_text
        this node test type consequent alternate st w c a :
  get node "test" = Ok test ->
  get test "type" = Ok type ->
  call this test st = Ok (tt, st, w) ->
  get node "consequent" = Ok consequent ->
  call this consequent st = Ok (tt, st, c) ->
  get node "alternate" = Ok alternate ->
  call this alternate st = Ok (tt, st, a) ->
  exists written,
    ConditionalExpression this node st = Ok (tt, st, written)
    /\ text_of written
       = wrap (negb (mem (to_str type) (above 4))) (text_of w)
         ++ " ? " ++ text_of c ++ " : " ++ text_of a.
Proof.
  intros Htest Ht Hrun Hc Hcrun Ha Harun. unfold ConditionalExpression.
  rewrite (field_bind _ _ _ _ _ Htest), (field_bind _ _ _ _ _ Ht).
  change (precedence "ConditionalExpression") with (@Own Z 4%Z).
  rewrite (lift_bind _ _ _ _ (precedence_above type 4)).
  exists ((if negb (mem (to_str type) (above 4))
           then (VStr "(" :: w ++ [VStr ")"])%list else w)
          ++ VStr " ? " :: c ++ VStr " : " :: a)%list.
  split.
  - eapply bind_intro.
    + destruct (mem (to_str type) (above 4)); cbn [negb].
      * exact Hrun.
      * apply (wrapped_run this true), Hrun.
    + apply write_step. eapply bind_intro.
      * unfold emit. rewrite (field_bind _ _ _ _ _ Hc). exact Hcrun.
      * apply write_step.
        unfold emit. rewrite (field_bind _ _ _ _ _ Ha). exact Harun.
  - rewrite text_of_app, wrapped_text, text_of_cons, text_of_app,
      text_of_cons.
    reflexivity.
Qed.

(** X13.  A binary or logical expression writes left operand, operator
    between spaces, right operand; each operand is put between parentheses
    exactly when [needsParens] of the specification says so for its side,
    and the whole expression as well when the operator is [in]. *)
Theorem BinaryExpression_text
        this node operator left right nodeType leftType rightType
        leftOperator rightOperator leftParens rightParens st l r :
  get node "type" = Ok nodeType ->
  get node "operator" = Ok operator ->
  get node "left" = Ok left ->
  get left "type" = Ok leftType ->
  get left "operator" = Ok leftOperator ->
  get node "right" = Ok right ->
  get right "type" = Ok rightType ->
  get right "operator" = Ok rightOperator ->
  needsParens leftType nodeType leftOperator operator false = Ok leftParens ->
  needsParens rightType nodeType rightOperator operator true = Ok rightParens ->
  call this left st = Ok (tt, st, l) ->
  call this right st = Ok (tt, st, r) ->
  exists written,
    BinaryExpression this node st = Ok (tt, st, written)
    /\ text_of written
       = wrap (is_str operator "in")
              (wrap leftParens (text_of l)
               ++ " " ++ to_str operator ++ " "
               ++ wrap rightParens (text_of r)).
Proof.
  intros Hn Ho Hl Hlt Hlo Hr Hrt Hro Hpl Hpr Hlrun Hrrun.
  assert (Hleft :
    formatBinaryExpressionPart this left node false st
    = Ok (tt, st, if leftParens
                  then (VStr "(" :: l ++ [VStr ")"])%list else l)).
  { unfold formatBinaryExpressionPart.
    rewrite (pure_bind _ _ leftParens).
    - apply wrapped_run, Hlrun.
    - rewrite (expressionNeedsParenthesis_needsParens
                 _ _ false _ _ _ _ st Hlt Hn Hlo Ho).
      unfold lift. rewrite Hpl. reflexivity. }
  assert (Hright :
    formatBinaryExpressionPart this right node true st
    = Ok (tt, st, if rightParens
                  then (VStr "(" :: r ++ [VStr ")"])%list else r)).
  { unfold formatBinaryExpressionPart.
    rewrite (pure_bind _ _ rightParens).
    - apply wrapped_run, Hrrun.
    - rewrite (expressionNeedsParenthesis_needsParens
                 _ _ true _ _ _ _ st Hrt Hn Hro Ho).
      unfold lift. rewrite Hpr. reflexivity. }
  unfold BinaryExpression. rewrite (field_bind _ _ _ _ _ Ho).
  destruct (is_str operator "in").
  - eexists. split.
    + apply write_step. rewrite (field_bind _ _ _ _ _ Hl).
      eapply bind_intro; [ exact Hleft | ].
      apply write_step. rewrite (field_bind _ _ _ _ _ Hr).
      eapply bind_intro; [ exact Hright | reflexivity ].
    + cbn [wrap]. rewrite text_of_cons, text_of_app, wrapped_text,
        text_of_cons, text_of_app, wrapped_text.
      cbn [to_str]. rewrite !append_assoc. reflexivity.
  - eexists. split.
    + rewrite (field_bind _ _ _ _ _ Hl).
      eapply bind_intro; [ exact Hleft | ].
      apply write_step. rewrite (field_bind _ _ _ _ _ Hr). exact Hright.
    + cbn [wrap]. rewrite text_of_app, wrapped_text,
        text_of_cons, wrapped_text.
      cbn [to_str]. rewrite !append_assoc. reflexivity.
Qed.

(* ===================================================================== *)
(** * Declarations, templates, classes, objects and imports *)
(* ===================================================================== *)

(** X14.  A [VariableDeclaration] writes its kind, then its declarators
    separated by a comma and a space, then a semicolon unless the flag
    [noTrailingSemicolon] is set; an empty list of declarators leaves the
    kind and a space. *)
Theorem VariableDeclaration_text this node kind declarations texts st :
  get node "declarations" = Ok (VArr declarations) ->
  get node "kind" = Ok kind ->
  Forall2 (fun declaration w =>
             this "VariableDeclarator" declaration st = Ok (tt, st, w))
          declarations texts ->
  exists written,
    VariableDeclaration this node st = Ok (tt, st, written)
    /\ text_of written
       = to_str kind ++ " " ++ join ", " (map text_of texts)
         ++ (if noTrailingSemicolon st then "" else ";").
Proof.
  intros Hd Hk Hall. unfold VariableDeclaration.
  rewrite (field_bind _ _ _ _ _ Hd), (field_bind _ _ _ _ _ Hk).
  exists (VStr (to_str kind ++ " ")
          :: separated ", " texts
          ++ (if noTrailingSemicolon st then [] else [VStr ";"]))%list.
  split.
  - apply write_step. rewrite length_bind, (gt_num_bind _ 0).
    eapply bind_intro with (a := tt) (st1 := st).
    + destruct Hall as [| d w0 declarations ws Hd0 Hall]; [ reflexivity | ].
      pose proof (Forall2_length_eq _ _ _ Hall) as Hlen.
      cbn [List.length Nat.ltb Nat.leb when separated].
      rewrite nth_bind. cbn [nth].
      eapply bind_intro; [ exact Hd0 | ].
      rewrite for_loop_run.
      replace (S (List.length declarations) - 1) with (List.length ws) by lia.
      rewrite <- (flat_map_tail (fun w' => VStr ", " :: w') w0 ws).
      apply (iterate_run _ _ (fun j => VStr ", " :: nth j (w0 :: ws) [])).
      intros j Hj. apply write_step. rewrite nth_bind.
      destruct j as [| j]; [ lia | ]. cbn [nth].
      apply (Forall2_nth _ _ _ VUndefined [] Hall). lia.
    + rewrite gets_bind. destruct (noTrailingSemicolon st); reflexivity.
  - rewrite text_of_cons, text_of_app, separated_text. cbn [to_str].
    rewrite append_assoc. f_equal. f_equal. f_equal.
    destruct (noTrailingSemicolon st); reflexivity.
Qed.

Lemma has_raw_bind {B : Type} quasi raw (k : value -> M B) st :
  has_raw quasi raw ->
  (quasiValue <- field quasi "value" ;;
   raw <- field quasiValue "raw" ;;
   k raw) st
  = k raw st.
Proof.
  intros (v & Hv & Hr).
  rewrite (field_bind _ _ _ _ _ Hv), (field_bind _ _ _ _ _ Hr). reflexivity.
Qed.

Lemma template_text_app raws expressions last :
  List.length raws = List.length expressions ->
  template_text (raws ++ [last]) expressions
  = String.concat ""
      (map (fun p => fst p ++ "${" ++ snd p ++ "}") (combine raws expressions))
    ++ last.
Proof.
  revert expressions.
  induction raws as [| r raws IH]; intros [| e expressions] Hlen;
    try discriminate; [ reflexivity | ].
  cbn [app template_text combine map]. rewrite concat_empty_cons.
  rewrite IH by (cbn in Hlen; lia). cbn [fst snd].
  rewrite !append_assoc. reflexivity.
Qed.

Lemma last_quasi_run quasis last st :
  last_quasi (VArr (quasis ++ [last])) st = Ok (last, st, []).
Proof.
  unfold last_quasi. rewrite length_bind. cbn [to_number].
  rewrite (lift_bind (Ok (Some _)) _ _ _ eq_refl).
  rewrite length_app. cbn [List.length].
  replace (1 <=? Z.of_nat (List.length quasis + 1))%Z with true
    by (symmetry; apply Z.leb_le; lia).
  replace (Z.to_nat (Z.of_nat (List.length quasis + 1) - 1))
    with (List.length quasis) by lia.
  rewrite nth_run, nth_middle. reflexivity.
Qed.

(** X15.  A [TemplateLiteral] with one more quasi than expressions writes,
    between backquotes, the raw texts of the quasis alternating with the
    expressions, each expression between [${] and [}]. *)
Theorem TemplateLiteral_text
        this node quasis last raws lastRaw expressions texts st :
  get node "quasis" = Ok (VArr (quasis ++ [last])) ->
  get node "expressions" = Ok (VArr expressions) ->
  Forall2 has_raw quasis raws ->
  has_raw last lastRaw ->
  Forall2 (fun expression w => call this expression st = Ok (tt, st, w))
          expressions texts ->
  List.length quasis = List.length expressions ->
  exists written,
    TemplateLiteral this node st = Ok (tt, st, written)
    /\ text_of written
       = "`" ++ template_text (map to_str (raws ++ [lastRaw]))
                              (map text_of texts)
         ++ "`".
Proof.
  intros Hq He Hraws Hlast Hall Hlen. unfold TemplateLiteral.
  rewrite (field_bind _ _ _ _ _ Hq), (field_bind _ _ _ _ _ He).
  pose proof (Forall2_length_eq _ _ _ Hraws) as Hlr.
  pose proof (Forall2_length_eq _ _ _ Hall) as Hlt.
  exists (VStr "`"
          :: flat_map (fun j => nth j raws VUndefined :: VStr "${"
                                :: nth j texts [] ++ [VStr "}"])
                      (seq 0 (List.length expressions))
          ++ [lastRaw; VStr "`"])%list.
  split.
  - apply write_step. rewrite length_bind.
    eapply bind_intro.
    + rewrite for_loop_run, Nat.sub_0_r.
      apply (iterate_run _ _
               (fun j => nth j raws VUndefined :: VStr "${"
                         :: nth j texts [] ++ [VStr "}"])%list).
      intros j Hj. rewrite !nth_bind.
      rewrite (has_raw_bind (nth j (quasis ++ [last]) VUndefined)
                            (nth j raws VUndefined)).
      * apply write_step, write_step.
        eapply bind_intro; [ | reflexivity ].
        apply (Forall2_nth _ _ _ VUndefined [] Hall). lia.
      * rewrite app_nth1 by lia.
        apply (Forall2_nth _ _ _ VUndefined VUndefined Hraws). lia.
    + rewrite (pure_bind _ _ _ _ (last_quasi_run quasis last st)).
      rewrite (has_raw_bind last lastRaw _ _ Hlast).
      reflexivity.
  - rewrite text_of_cons, text_of_app, text_of_flat_map. cbn [to_str].
    rewrite map_app. cbn [map].
    rewrite template_text_app by (rewrite !length_map; lia).
    rewrite text_of_cons. change (text_of [VStr "`"]) with "`".
    rewrite !append_assoc. f_equal. f_equal.
    rewrite <- (map_nth_seq
                  (fun p => fst p ++ "${" ++ snd p ++ "}")
                  (combine (map to_str raws) (map text_of texts))
                  ("", "")).
    rewrite length_combine, !length_map, <- Hlr, Hlen, <- Hlt, Nat.min_id.
    f_equal.
    apply map_ext_seq. intros j Hj.
    rewrite combine_nth by (rewrite !length_map; lia).
    cbn [fst snd].
    rewrite text_of_cons, text_of_cons, text_of_app.
    replace (nth j (map to_str raws) "")
      with (to_str (nth j raws (VStr "")))
      by (symmetry; apply (map_nth to_str raws (VStr ""))).
    replace (nth j (map text_of texts) "") with (text_of (nth j texts []))
      by (symmetry; apply (map_nth text_of texts [])).
    rewrite (nth_indep raws VUndefined (VStr "")) by lia.
    reflexivity.
Qed.

(** X16.  A [ClassDeclaration] writes [class], the name of the class or a
    space when it has none, then for a superclass [extends], the superclass
    and a space, then the body.  No space is written between the name and
    [extends]: a class [A] that extends [B] reads [class Aextends B]. *)
Theorem ClassDeclaration_text
        this node id name superClass body st s b :
  get node "id" = Ok id ->
  (truthy id = true -> get id "name" = Ok name) ->
  get node "superClass" = Ok superClass ->
  (truthy superClass = true -> call this superClass st = Ok (tt, st, s)) ->
  get node "body" = Ok body ->
  this "ClassBody" body st = Ok (tt, st, b) ->
  exists written,
    ClassDeclaration this node st = Ok (tt, st, written)
    /\ text_of written
       = "class " ++ (if truthy id then to_str name else " ")
         ++ (if truthy superClass then "extends " ++ text_of s ++ " " else "")
         ++ text_of b.
Proof.
  intros Hid Hname Hsuper Hrun Hbody Hb. unfold ClassDeclaration.
  rewrite (field_bind _ _ _ _ _ Hid).
  rewrite (pure_bind _ _ (if truthy id then to_str name else " ")).
  - exists (VStr ("class " ++ (if truthy id then to_str name else " "))
            :: (if truthy superClass
                then VStr "extends " :: s ++ [VStr " "] else [])
            ++ b)%list.
    split.
    + apply write_step. rewrite (field_bind _ _ _ _ _ Hsuper).
      eapply bind_intro.
      * destruct (truthy superClass); cbn [when]; [ | reflexivity ].
        apply write_step.
        eapply bind_intro; [ apply Hrun; reflexivity | reflexivity ].
      * rewrite (field_bind _ _ _ _ _ Hbody). exact Hb.
    + rewrite text_of_cons, text_of_app. cbn [to_str].
      rewrite append_assoc. f_equal. f_equal.
      destruct (truthy superClass); [ | reflexivity ].
      rewrite text_of_cons, text_of_app. reflexivity.
  - destruct (truthy id); [ | reflexivity ].
    rewrite (field_bind _ _ _ _ _ (Hname eq_refl)). reflexivity.
Qed.

(** X17.  Re-indenting a text to the indentation it already has gives that
    indentation followed by the text trimmed: [reindent] with the leading
    spaces and tabs of the second line as the new indentation changes no
    line but the first and the trailing white space.  A text of one line is
    trimmed and indented, whatever the indentation. *)
Theorem reindent_own_indentation text :
  match after_first_newline (trimRight text) with
  | Some rest =>
      reindent_text text (spaces_and_tabs rest)
      = spaces_and_tabs rest ++ trim text
  | None => forall indentation,
      reindent_text text indentation = indentation ++ trim text
  end.
Proof.
  destruct (after_first_newline (trimRight text)) as [rest |] eqn:E.
  - rewrite reindent_text_spec. unfold reindent_spec. rewrite E.
    rewrite join_split by discriminate. reflexivity.
  - intros indentation. rewrite reindent_text_spec. unfold reindent_spec.
    rewrite E. reflexivity.
Qed.

Lemma indent_then_increment_run st :
  (0 <= indentLevel st)%Z ->
  indent_then_increment st
  = Ok (repeat_nat (indent st) (Z.to_nat (indentLevel st)),
        set_indentLevel (indentLevel st + 1) st, []).
Proof.
  intros Hn.
  cbv [indent_then_increment add_indentLevel bind gets modify lift repeat].
  replace (indentLevel st <? 0)%Z with false
    by (symmetry; apply Z.ltb_ge; lia).
  reflexivity.
Qed.

Lemma add_indentLevel_back st :
  add_indentLevel (-1) (set_indentLevel (indentLevel st + 1) st)
  = Ok (tt, st, []).
Proof.
  unfold add_indentLevel. rewrite gets_bind. unfold modify.
  cbn [indentLevel set_indentLevel].
  replace (indentLevel st + 1 + -1)%Z with (indentLevel st) by lia.
  destruct st. reflexivity.
Qed.

(** X18.  Without comments, an [ObjectExpression] without properties writes
    [{}]; otherwise it writes each property on its own line, one level
    deeper, with a comma after each but the last, and the closing brace at
    the level of the expression. *)
Theorem ObjectExpression_text this node properties texts st :
  writeComments st = false ->
  (0 <= indentLevel st)%Z ->
  get node "properties" = Ok (VArr properties) ->
  let inner := set_indentLevel (indentLevel st + 1) st in
  Forall2 (fun property w => this "Property" property inner = Ok (tt, inner, w))
          properties texts ->
  let margin := repeat_nat (indent st) (Z.to_nat (indentLevel st)) in
  exists written,
    ObjectExpression this node st = Ok (tt, st, written)
    /\ text_of written
       = match properties with
         | [] => "{}"
         | _ =>
             "{" ++ lineEnd st
             ++ join ("," ++ lineEnd st)
                     (map (fun w => margin ++ indent st ++ text_of w) texts)
             ++ lineEnd st ++ margin ++ "}"
         end.
Proof.
  intros Hc Hn Hp inner Hall margin. unfold ObjectExpression.
  rewrite gets_bind.
  rewrite (quiet_bind _ _ _ _ _ (indent_then_increment_run st Hn)).
  fold inner. fold margin. rewrite !gets_bind.
  replace (writeComments inner) with false by (symmetry; exact Hc).
  replace (lineEnd inner) with (lineEnd st) by reflexivity.
  replace (indent inner) with (indent st) by reflexivity.
  cbv zeta. cbn [comments_at].
  pose proof (Forall2_length_eq _ _ _ Hall) as Hlen.
  destruct properties as [| p properties].
  - eexists. split.
    + apply write_step.
      rewrite (field_bind _ _ _ _ _ Hp), length_bind, (gt_num_bind 0 0).
      cbn [List.length Nat.ltb Nat.leb].
      eapply bind_intro; [ reflexivity | apply add_indentLevel_back ].
    + reflexivity.
  - set (all := p :: properties) in *.
    set (n := List.length all).
    set (W := fun j =>
                (VStr (margin ++ indent st) :: nth j texts []
                 ++ (if (j <? n - 1)%nat
                     then [VStr ("," ++ lineEnd st)] else []))%list).
    exists (VStr "{" :: (VStr (lineEnd st) :: flat_map W (seq 0 n)
                         ++ [VStr (lineEnd st); VStr (margin ++ "}")])
            ++ [])%list.
    split.
    + apply write_step.
      rewrite (field_bind _ _ _ _ _ Hp), length_bind, (gt_num_bind _ 0).
      replace (0 <? List.length all)%nat with true by reflexivity.
      eapply bind_intro; [ | apply add_indentLevel_back ].
      apply write_step. rewrite ret_bind.
      eapply bind_intro.
      * fold n. rewrite loop_until_run.
        replace (n - 0 - 1) with (n - 1) by lia.
        replace (seq 0 n) with (seq 0 (S (n - 1)))
          by (f_equal; subst n all; cbn [List.length]; lia).
        apply (iterate_until_run _ _ W). intros j Hj.
        rewrite nth_bind, ret_bind. apply write_step.
        cbn [Nat.add].
        eapply bind_intro.
        -- apply (Forall2_nth _ _ _ VUndefined [] Hall).
           subst n all. cbn [List.length] in *. lia.
        -- destruct (j <? n - 1)%nat; reflexivity.
      * apply write_step. rewrite ret_bind. reflexivity.
    + rewrite app_nil_r, text_of_cons. cbn [to_str]. f_equal.
      rewrite text_of_cons. cbn [to_str]. f_equal.
      rewrite text_of_app, text_of_flat_map.
      rewrite (map_ext_seq _
                 (fun j =>
                    nth (j - 0)
                        (map (fun w => margin ++ indent st ++ text_of w) texts)
                        ""
                    ++ (if (j <? 0 + List.length
                                       (map (fun w => margin ++ indent st
                                                      ++ text_of w) texts)
                                 - 1)%nat
                        then "," ++ lineEnd st else ""))).
      * replace n
          with (List.length
                  (map (fun w => margin ++ indent st ++ text_of w) texts))
          by (rewrite length_map; subst n; auto).
        rewrite indexed_join.
        -- rewrite append_empty_r. reflexivity.
        -- destruct texts; [ subst all; discriminate | discriminate ].
      * intros j Hj. unfold W. rewrite text_of_cons, text_of_app.
        rewrite Nat.sub_0_r, length_map, <- Hlen. fold n. cbn [Nat.add to_str].
        rewrite (nth_indep _ "" ((fun w => margin ++ indent st ++ text_of w) []))
          by (rewrite length_map, <- Hlen; fold n; lia).
        rewrite (map_nth (fun w => margin ++ indent st ++ text_of w)).
        rewrite !append_assoc.
        destruct (j <? n - 1)%nat; reflexivity.
Qed.

Lemma nth_specifier pre s rest :
  nth (List.length pre) (map specifier_node (pre ++ s :: rest)%list) VUndefined
  = specifier_node s.
Proof. apply nth_middle_map. Qed.

Lemma import_leading_run leading :
  forall pre rest st,
    forallb (fun s => negb (named s)) leading = true ->
    forallb named rest = true ->
    import_leading (VArr (map specifier_node (pre ++ leading ++ rest)%list))
                   (List.length pre) (List.length leading + List.length rest)
                   st
    = Ok (List.length pre + List.length leading, st,
          (leading_log (List.length pre) leading
           ++ match rest with
              | [] => []
              | _ => if (0 <? List.length pre + List.length leading)%nat
                     then [VStr ", "] else []
              end)%list).
Proof.
  induction leading as [| s leading IH]; intros pre rest st Hlead Hrest.
  - cbn [app List.length Nat.add leading_log]. rewrite Nat.add_0_r.
    destruct rest as [| r rest]; [ reflexivity | ].
    cbn [List.length import_leading].
    cbn [forallb] in Hrest. apply andb_prop in Hrest as [Hr _].
    destruct r as [l | l | imported l]; try discriminate.
    eapply bind_intro_eq
      with (a := tt) (st1 := st)
           (w1 := if (0 <? List.length pre)%nat then [VStr ", "] else []).
    + destruct (0 <? List.length pre)%nat; reflexivity.
    + rewrite nth_bind, nth_specifier. reflexivity.
    + rewrite app_nil_r. reflexivity.
  - cbn [forallb] in Hlead. apply andb_prop in Hlead as [Hs Hlead].
    cbn [List.length Nat.add import_leading leading_log].
    specialize (IH (pre ++ [s])%list rest st Hlead Hrest).
    rewrite length_app in IH. cbn [List.length] in IH.
    rewrite <- app_assoc in IH. cbn [app] in IH.
    replace (List.length pre + 1) with (S (List.length pre)) in IH by lia.
    replace (S (List.length pre) + List.length leading)
      with (List.length pre + S (List.length leading)) in IH by lia.
    unfold leading_written. rewrite <- !app_assoc.
    eapply bind_intro
      with (a := tt) (st1 := st)
           (w1 := if (0 <? List.length pre)%nat then [VStr ", "] else []).
    + destruct (0 <? List.length pre)%nat; reflexivity.
    + rewrite nth_bind.
      replace (pre ++ (s :: leading) ++ rest)%list
        with (pre ++ s :: leading ++ rest)%list by reflexivity.
      rewrite nth_specifier.
      destruct s as [l | l | imported l]; try discriminate.
      * cbn. unfold bind, write. rewrite IH. reflexivity.
      * cbn. unfold bind, write. rewrite IH. reflexivity.
Qed.

Lemma named_step leading rest j more st :
  forallb named rest = true ->
  List.length leading <= j < List.length leading + List.length rest ->
  (specifier <- item (VArr (map specifier_node (leading ++ rest)%list)) j ;;
   imported <- field specifier "imported" ;;
   name <- field imported "name" ;;
   write name ;;
   local <- field specifier "local" ;;
   localName <- field local "name" ;;
   same <- lift (strict_eq name localName) ;;
   when (negb same) (write (" as " ++ to_str localName)) ;;
   when more (write ", ")) st
  = Ok (tt, st,
        named_written more
          (nth (j - List.length leading) rest (ImportDefault ""))).
Proof.
  intros Hrest Hj. rewrite nth_bind.
  rewrite (nth_indep _ VUndefined (specifier_node (ImportDefault "")))
    by (rewrite length_map, length_app; lia).
  rewrite map_nth, app_nth2 by lia.
  assert (Hin : In (nth (j - List.length leading) rest (ImportDefault "")) rest)
    by (apply nth_In; lia).
  pose proof (proj1 (forallb_forall _ _) Hrest _ Hin) as Hnamed.
  destruct (nth (j - List.length leading) rest (ImportDefault ""))
    as [l | l | imported l]; try discriminate.
  cbn [specifier_node named_written].
  unfold bind, field, lift, write, when, ret. cbn.
  destruct (imported =? l), more; reflexivity.
Qed.

Lemma leading_log_text before leading :
  text_of (leading_log (S before) leading)
  = String.concat "" (map (fun s => ", " ++ specifier_text s) leading).
Proof.
  revert before. induction leading as [| s leading IH]; intros before;
    [ reflexivity | ].
  cbn [leading_log map]. rewrite text_of_app, IH, concat_empty_cons.
  reflexivity.
Qed.

Lemma leading_text leading :
  text_of (leading_log 0 leading) = join ", " (map specifier_text leading).
Proof.
  destruct leading as [| s leading]; [ reflexivity | ].
  cbn [leading_log map]. rewrite text_of_app, leading_log_text.
  rewrite join_cons_prefixed, map_map. reflexivity.
Qed.

Lemma named_text (leading rest : list specifier) :
  forallb named rest = true ->
  rest <> [] ->
  text_of
    (flat_map
       (fun j =>
          named_written (j <? List.length leading + (List.length rest - 1))%nat
            (nth (j - List.length leading) rest (ImportDefault "")))
       (seq (List.length leading) (List.length rest)))
  = join ", " (map specifier_text rest).
Proof.
  intros Hrest Hne. rewrite text_of_flat_map.
  rewrite <- (append_empty_r (join ", " (map specifier_text rest))).
  rewrite <- (indexed_join ", " "" (map specifier_text rest)
                           (List.length leading))
    by (destruct rest; [ congruence | discriminate ]).
  rewrite length_map. f_equal. apply map_ext_seq. intros j Hj.
  replace (nth (j - List.length leading) (map specifier_text rest) "")
    with (specifier_text
            (nth (j - List.length leading) rest (ImportDefault "")))
    by (symmetry; apply (map_nth specifier_text rest (ImportDefault ""))).
  replace (List.length leading + List.length rest - 1)
    with (List.length leading + (List.length rest - 1))
    by (destruct rest; [ congruence | simpl; lia ]).
  assert (Hin : In (nth (j - List.length leading) rest (ImportDefault "")) rest)
    by (apply nth_In; lia).
  pose proof (proj1 (forallb_forall _ _) Hrest _ Hin) as Hnamed.
  destruct (nth (j - List.length leading) rest (ImportDefault ""))
    as [l | l | imported l]; try discriminate.
  cbn [named_written specifier_text].
  rewrite text_of_cons, text_of_app. cbn [to_str].
  destruct (imported =? l),
           (j <? List.length leading + (List.length rest - 1))%nat;
    cbn; rewrite ?append_empty_r, ?append_assoc; reflexivity.
Qed.

Lemma join_app_one sep l b :
  join sep (l ++ [b])%list
  = (match l with [] => "" | _ => join sep l ++ sep end) ++ b.
Proof.
  induction l as [| x l IH]; [ reflexivity | ].
  destruct l as [| y l]; [ cbn; rewrite append_assoc; reflexivity | ].
  change (join sep ((x :: y :: l) ++ [b])%list)
    with (x ++ sep ++ join sep ((y :: l) ++ [b])%list).
  rewrite IH.
  change (join sep (x :: y :: l)) with (x ++ sep ++ join sep (y :: l)).
  rewrite !append_assoc. reflexivity.
Qed.

(** X19.  An [ImportDeclaration] whose default and namespace specifiers
    come before the named ones writes [import], the default and namespace
    specifiers separated by commas, the named ones between braces, [from],
    the source and a semicolon; a named specifier reads [a] when imported
    and local names agree and [a as b] otherwise; without specifiers it
    writes [import] and the source alone. *)
Theorem ImportDeclaration_text this node leading rest source st w :
  forallb (fun s => negb (named s)) leading = true ->
  forallb named rest = true ->
  get node "specifiers"
  = Ok (VArr (map specifier_node (leading ++ rest)%list)) ->
  get node "source" = Ok source ->
  this "Literal" source st = Ok (tt, st, w) ->
  exists written,
    ImportDeclaration this node st = Ok (tt, st, written)
    /\ text_of written
       = "import " ++ import_clause leading rest ++ text_of w ++ ";".
Proof.
  intros Hlead Hrest Hspec Hsource Hrun. unfold ImportDeclaration.
  set (count := (List.length leading + List.length rest)%nat).
  assert (Hcount : List.length (map specifier_node (leading ++ rest)%list)
                   = count)
    by (rewrite length_map, length_app; reflexivity).
  assert (Htail :
    (source <- field node "source" ;; this "Literal" source ;; write ";") st
    = Ok (tt, st, (w ++ [VStr ";"])%list)).
  { rewrite (field_bind _ _ _ _ _ Hsource).
    eapply bind_intro; [ exact Hrun | reflexivity ]. }
  destruct (Nat.eq_dec count 0) as [Hzero | Hpos].
  - assert (leading = [] /\ rest = []) as [-> ->]
      by (subst count; destruct leading, rest; cbn in Hzero; try lia; auto).
    eexists. split.
    + apply write_step. rewrite (field_bind _ _ _ _ _ Hspec), length_bind.
      rewrite (gt_num_bind _ 0).
      cbn [app map List.length Nat.ltb Nat.leb when].
      rewrite ret_bind. exact Htail.
    + rewrite text_of_cons, text_of_app. reflexivity.
  - pose proof (import_leading_run leading [] rest st Hlead Hrest) as Hloop.
    cbn [app List.length Nat.add] in Hloop. fold count in Hloop.
    assert (Hclause :
      forall wk,
        text_of wk
        = match rest with
          | [] => ""
          | _ => "{" ++ join ", " (map specifier_text rest) ++ "}"
          end ->
        text_of (VStr "import "
                 :: ((leading_log 0 leading
                      ++ match rest with
                         | [] => []
                         | _ => if (0 <? List.length leading)%nat
                                then [VStr ", "] else []
                         end)
                     ++ wk ++ [VStr " from "])
                 ++ w ++ [VStr ";"])%list
        = "import " ++ import_clause leading rest ++ text_of w ++ ";").
    { intros wk Hwk. rewrite text_of_cons. cbn [to_str]. f_equal.
      rewrite !text_of_app, Hwk, leading_text.
      change (text_of [VStr " from "]) with " from ".
      change (text_of [VStr ";"]) with ";".
      unfold import_clause.
      destruct (leading ++ rest)%list as [| s0 all0] eqn:Eall.
      { apply (f_equal (@List.length _)) in Eall.
        rewrite length_app in Eall. cbn in Eall. subst count. lia. }
      destruct rest as [| r rest'].
      - change (text_of []) with "". rewrite app_nil_r, append_empty_r.
        cbn [append]. rewrite !append_assoc. reflexivity.
      - rewrite join_app_one.
        destruct leading as [| l0 leading'].
        + cbn [List.length Nat.ltb Nat.leb map]. change (text_of []) with "".
          cbn [append join String.concat]. rewrite !append_assoc. reflexivity.
        + cbn [List.length Nat.ltb Nat.leb map].
          change (text_of [VStr ", "]) with ", ".
          rewrite !append_assoc. reflexivity. }
    assert (Hpositive : (0 <? count)%nat = true) by (apply Nat.ltb_lt; lia).
    destruct rest as [| r rest'].
    + eexists. split.
      * apply write_step. rewrite (field_bind _ _ _ _ _ Hspec), length_bind.
        rewrite Hcount, (gt_num_bind _ 0), Hpositive.
        eapply bind_intro; [ | exact Htail ].
        cbn [when to_number].
        rewrite (lift_bind (Ok (Some (Z.of_nat count))) _ _ _ eq_refl).
        cbv zeta. rewrite Nat2Z.id.
        eapply bind_intro; [ exact Hloop | ].
        eapply bind_intro; [ | reflexivity ].
        subst count. cbn [List.length]. rewrite Nat.add_0_r, Nat.ltb_irrefl.
        reflexivity.
      * apply Hclause. reflexivity.
    + set (rest := r :: rest') in *.
      eexists. split.
      * apply write_step. rewrite (field_bind _ _ _ _ _ Hspec), length_bind.
        rewrite Hcount, (gt_num_bind _ 0), Hpositive.
        eapply bind_intro; [ | exact Htail ].
        cbn [when to_number].
        rewrite (lift_bind (Ok (Some (Z.of_nat count))) _ _ _ eq_refl).
        cbv zeta. rewrite Nat2Z.id.
        eapply bind_intro; [ exact Hloop | ].
        eapply bind_intro; [ | reflexivity ].
        replace (List.length leading <? count)%nat with true
          by (symmetry; apply Nat.ltb_lt; subst count rest;
              cbn [List.length]; lia).
        cbn [when]. apply write_step.
        eapply bind_intro; [ | reflexivity ].
        replace (count - List.length leading - 1) with (List.length rest - 1)
          by (subst count; lia).
        apply (iterate_until_run _ _
                 (fun j =>
                    named_written
                      (j <? List.length leading + (List.length rest - 1))%nat
                      (nth (j - List.length leading) rest (ImportDefault "")))).
        intros j Hj. apply named_step; [ exact Hrest | ].
        subst rest. cbn [List.length] in *. lia.
      * apply Hclause.
        rewrite text_of_cons, text_of_app.
        replace (S (List.length rest - 1)) with (List.length rest)
          by (subst rest; cbn [List.length]; lia).
        rewrite named_text by (try exact Hrest; subst rest; discriminate).
        reflexivity.
Qed.

(** X22.  A [Literal] writes its [raw] text when it has one, whatever its
    value.  Without [raw], a literal with a [regex] writes
    [new RegExp(pattern, flags)] with both as quoted strings; without either
    it writes its value as [JSON.stringify] does, a string quoted and
    escaped. *)
Theorem Literal_text :
  (forall this node raw st,
      get node "raw" = Ok raw ->
      nullish raw = false ->
      Literal this node st = Ok (tt, st, [raw]))
  /\ (forall fuel node raw regex pattern flags st,
      get node "raw" = Ok raw ->
      nullish raw = true ->
      get node "regex" = Ok regex ->
      get regex "pattern" = Ok (VStr pattern) ->
      get regex "flags" = Ok (VStr flags) ->
      dispatch (2 + fuel) defaultGenerator "Literal" node st
      = Ok (tt, st,
            [VStr ("new RegExp(" ++ quote ++ escape pattern ++ quote ++ ", "
                   ++ quote ++ escape flags ++ quote ++ ")")]))
  /\ (forall this node raw regex v text st,
      get node "raw" = Ok raw ->
      nullish raw = true ->
      get node "regex" = Ok regex ->
      nullish regex = true ->
      get node "value" = Ok v ->
      stringify v = Ok text ->
      Literal this node st = Ok (tt, st, [text])
      /\ to_str text
         = match v with
           | VStr s => quote ++ escape s ++ quote
           | other => to_str other
           end).
Proof.
  refine (conj _ (conj _ _)).
  - intros this node raw st Hraw Hnull. unfold Literal.
    rewrite (field_bind _ _ _ _ _ Hraw), Hnull. reflexivity.
  - intros fuel node raw regex pattern flags st Hraw Hnull Hregex Hp Hf.
    cbn [Nat.add].
    rewrite (dispatch_Own _ _ _ Literal) by reflexivity.
    unfold Literal.
    rewrite (field_bind _ _ _ _ _ Hraw), Hnull. cbn [negb].
    rewrite (field_bind _ _ _ _ _ Hregex).
    replace (nullish regex) with false
      by (destruct regex; try reflexivity; discriminate).
    cbn [negb].
    rewrite (dispatch_Own _ _ _ RegExpLiteral) by reflexivity.
    unfold RegExpLiteral.
    rewrite (field_bind _ _ _ _ _ Hregex), (field_bind _ _ _ _ _ Hp),
      (field_bind _ _ _ _ _ Hf).
    cbn [stringify].
    rewrite !(lift_bind (Ok _) _ _ _ eq_refl). cbn [to_str].
    rewrite !append_assoc. reflexivity.
  - intros this node raw regex v text st Hraw Hnull Hregex Hrnull Hv Htext.
    split.
    + unfold Literal.
      rewrite (field_bind _ _ _ _ _ Hraw), Hnull. cbn [negb].
      rewrite (field_bind _ _ _ _ _ Hregex), Hrnull. cbn [negb].
      rewrite (field_bind _ _ _ _ _ Hv), (lift_bind _ _ _ _ Htext).
      reflexivity.
    + destruct v as [| | [] | n | s | elems | props]; cbn in Htext;
        try discriminate; injection Htext as <-; reflexivity.
Qed.

(** X23.  A function declaration or expression writes [async] when
    asynchronous, [function] with a star when a generator, its name when it
    has one, the parameters as [formatSequence] writes them, a space and
    the body. *)
Theorem FunctionDeclaration_text
        this node async generator id name params body texts st st' b :
  get node "async" = Ok async ->
  get node "generator" = Ok generator ->
  get node "id" = Ok id ->
  (truthy id = true -> get id "name" = Ok name) ->
  get node "params" = Ok (VArr params) ->
  Forall2 (fun param w => call this param st = Ok (tt, st, w)) params texts ->
  get node "body" = Ok body ->
  call this body st = Ok (tt, st', b) ->
  exists written,
    FunctionDeclaration this node st = Ok (tt, st', written)
    /\ text_of written
       = (if truthy async then "async " else "")
         ++ (if truthy generator then "function* " else "function ")
         ++ (if truthy id then to_str name else "")
         ++ "(" ++ join ", " (map text_of texts) ++ ") " ++ text_of b.
Proof.
  intros Ha Hg Hid Hname Hp Hall Hbody Hrun. unfold FunctionDeclaration.
  rewrite (field_bind _ _ _ _ _ Ha), (field_bind _ _ _ _ _ Hg),
    (field_bind _ _ _ _ _ Hid).
  rewrite (pure_bind _ _ (if truthy id then to_str name else "")).
  - eexists. split.
    + apply write_step. rewrite (field_bind _ _ _ _ _ Hp).
      eapply bind_intro; [ apply formatSequence_run, Hall | ].
      apply write_step. unfold emit.
      rewrite (field_bind _ _ _ _ _ Hbody). exact Hrun.
    + rewrite text_of_cons, text_of_app, sequence_text, text_of_cons.
      cbn [to_str]. rewrite !append_assoc. reflexivity.
  - destruct (truthy id); [ | reflexivity ].
    rewrite (field_bind _ _ _ _ _ (Hname eq_refl)). reflexivity.
Qed.

(* ===================================================================== *)
(** * Positions *)
(* ===================================================================== *)







(* ===================================================================== *)
(** * Range errors *)
(* ===================================================================== *)

Lemma norange_bind {A B : Type} n (m : M A) (k : A -> M B) :
  keeps (at_level n) m -> norange n m -> (forall a, norange n (k a)) ->
  norange n (bind m k).
Proof.
  intros Hkeep Hm Hk st Hst. unfold bind.
  specialize (Hm st Hst).
  destruct (m st) as [[[a st1] w1] | e | |] eqn:E; try congruence.
  specialize (Hk a st1 (Hkeep st a st1 w1 Hst E)).
  destruct (k a st1) as [[[b st2] w2] | e | |]; congruence.
Qed.

Lemma norange_shift {A B : Type} n n' (m : M A) (k : A -> M B) :
  hoare (at_level n) m (at_level n') -> norange n m ->
  (forall a, norange n' (k a)) ->
  norange n (bind m k).
Proof.
  intros Hhoare Hm Hk st Hst. unfold bind.
  specialize (Hm st Hst).
  destruct (m st) as [[[a st1] w1] | e | |] eqn:E; try congruence.
  specialize (Hk a st1 (Hhoare st a st1 w1 Hst E)).
  destruct (k a st1) as [[[b st2] w2] | e | |]; congruence.
Qed.

Lemma norange_gets_level {B : Type} n (k : Z -> M B) :
  norange n (k n) -> norange n (bind (gets indentLevel) k).
Proof.
  intros Hk st Hst. rewrite gets_bind, Hst. apply Hk, Hst.
Qed.

Lemma norange_ret {A : Type} n (a : A) : norange n (ret a).
Proof. intros st _. discriminate. Qed.

Lemma norange_throw {A : Type} n : norange n (@throw A TypeError).
Proof. intros st _. discriminate. Qed.

Lemma norange_gets {A : Type} n (f : State -> A) : norange n (gets f).
Proof. intros st _. discriminate. Qed.

Lemma norange_modify n f : norange n (modify f).
Proof. intros st _. discriminate. Qed.

Lemma norange_write n v : norange n (write v).
Proof. intros st _. discriminate. Qed.

Lemma norange_lift {A : Type} n (o : outcome A) :
  o <> Throw RangeError -> norange n (lift o).
Proof. intros H st _. unfold lift. destruct o; congruence. Qed.

Lemma get_range v k : get v k <> Throw RangeError.
Proof. destruct v; discriminate. Qed.

Lemma idx_range v i : idx v i <> Throw RangeError.
Proof. destruct v; discriminate. Qed.

Lemma to_number_range v : to_number v <> Throw RangeError.
Proof. destruct v; discriminate. Qed.

Lemma as_string_range v : as_string v <> Throw RangeError.
Proof. destruct v; discriminate. Qed.

Lemma stringify_range v : stringify v <> Throw RangeError.
Proof. destruct v; discriminate. Qed.

Lemma strict_eq_range a b : strict_eq a b <> Throw RangeError.
Proof. destruct a, b; discriminate. Qed.

Lemma slot_lt_range p q : slot_lt p q <> Throw RangeError.
Proof.
  destruct p, q; cbn; try discriminate. destruct (_ =? _); discriminate.
Qed.

Lemma slot_le_range p q : slot_le p q <> Throw RangeError.
Proof.
  destruct p, q; cbn; try discriminate. destruct (_ =? _); discriminate.
Qed.

Lemma repeat_range s n : (0 <= n)%Z -> repeat s n <> Throw RangeError.
Proof.
  intros Hn. unfold repeat.
  replace (n <? 0)%Z with false by (symmetry; apply Z.ltb_ge; lia).
  discriminate.
Qed.

Lemma hasCallExpression_range n :
  forall node, depth node <= n -> hasCallExpression node <> Throw RangeError.
Proof.
  induction n as [| n IH]; intros node Hd; rewrite hasCallExpression_loop.
  - destruct node; cbn in Hd |- *; try discriminate. lia.
  - destruct (nullish node); [ discriminate | ].
    destruct (get node "type") as [type | | |]; try discriminate.
    destruct (idx type 0) as [c0 | | |]; try discriminate.
    destruct (idx type 1) as [c1 | | |]; try discriminate.
    destruct (idx type 2) as [c2 | | |]; try discriminate.
    destruct (is_str c0 "C" && is_str c1 "a"); [ discriminate | ].
    destruct (is_str c0 "M" && is_str c1 "e" && is_str c2 "m");
      [ | discriminate ].
    destruct (get node "object") as [object | | |] eqn:Eo; try discriminate.
    apply IH. apply get_depth in Eo. lia.
Qed.

Create HintDb range.

#[export] Hint Resolve get_range idx_range to_number_range as_string_range
  stringify_range strict_eq_range slot_lt_range slot_le_range : range.

Lemma norange_when n b (m : M unit) : norange n m -> norange n (when b m).
Proof. intros H. destruct b; [ exact H | apply norange_ret ]. Qed.

Lemma norange_iterate n body :
  (forall i, keeps (at_level n) (body i)) ->
  (forall i, norange n (body i)) ->
  forall count i, norange n (iterate i count body).
Proof.
  intros Hkeep H count. induction count as [| c IH]; intros i; cbn [iterate].
  - apply norange_ret.
  - apply norange_bind; [ apply Hkeep | apply H | intros _; apply IH ].
Qed.

Lemma norange_for_loop n start length body :
  (forall i, keeps (at_level n) (body i)) ->
  (forall i, norange n (body i)) ->
  norange n (for_loop start length body).
Proof.
  intros Hkeep H. unfold for_loop.
  apply norange_bind;
    [ apply keeps_lift | apply norange_lift, to_number_range | intros [z |] ].
  - apply norange_iterate; assumption.
  - apply norange_ret.
Qed.

Lemma norange_iterate_until n step :
  (forall i more, keeps (at_level n) (step i more)) ->
  (forall i more, norange n (step i more)) ->
  forall further i, norange n (iterate_until i further step).
Proof.
  intros Hkeep H further.
  induction further as [| f IH]; intros i; cbn [iterate_until].
  - apply H.
  - apply norange_bind; [ apply Hkeep | apply H | intros _; apply IH ].
Qed.

Lemma norange_loop_until n start length step :
  (forall i more, keeps (at_level n) (step i more)) ->
  (forall i more, norange n (step i more)) ->
  norange n (loop_until start length step).
Proof.
  intros Hkeep H. unfold loop_until.
  apply norange_bind;
    [ apply keeps_lift | apply norange_lift, to_number_range | intros [z |] ].
  - apply norange_iterate_until; assumption.
  - apply H.
Qed.

Lemma norange_gt_num n v z : norange n (gt_num v z).
Proof.
  unfold gt_num.
  apply norange_bind;
    [ apply keeps_lift | apply norange_lift, to_number_range | intros ].
  apply norange_ret.
Qed.

Lemma norange_add_indentLevel n d : norange n (add_indentLevel d).
Proof. intros st _. discriminate. Qed.

Lemma norange_indent_then_increment n :
  (0 <= n)%Z -> norange n indent_then_increment.
Proof.
  intros Hn st Hst.
  cbv [indent_then_increment add_indentLevel bind gets modify lift repeat].
  rewrite Hst.
  replace (n <? 0)%Z with false by (symmetry; apply Z.ltb_ge; lia).
  discriminate.
Qed.

(** The parts of a formatter that keep the level. *)
Ltac keep_level :=
  solve [ cbv zeta; keep; try apply keeps_level_flag ].

Ltac range_step :=
  lazymatch goal with
  | |- norange _ (bind indent_then_increment _) =>
      eapply norange_shift;
      [ apply hoare_indent_then_increment
      | apply norange_indent_then_increment; lia
      | intros ]
  | |- norange _ (bind (add_indentLevel _) _) =>
      eapply norange_shift;
      [ apply hoare_add_indentLevel; reflexivity
      | apply norange_add_indentLevel
      | intros ]
  | |- norange _ (bind (gets indentLevel) _) => apply norange_gets_level
  | |- norange _ (bind _ _) =>
      apply norange_bind; [ keep_level | | intros ]
  | |- norange _ (ret _) => apply norange_ret
  | |- norange _ (throw _) => apply norange_throw
  | |- norange _ (gets _) => apply norange_gets
  | |- norange _ (modify _) => apply norange_modify
  | |- norange _ (write _) => apply norange_write
  | |- norange _ (field _ _) => apply norange_lift, get_range
  | |- norange _ (item _ _) => apply norange_lift, idx_range
  | |- norange _ (gt_num _ _) => apply norange_gt_num
  | |- norange _ (add_indentLevel _) => apply norange_add_indentLevel
  | |- norange _ (lift (hasCallExpression _)) =>
      apply norange_lift; eapply hasCallExpression_range, le_n
  | |- norange _ (lift (repeat _ _)) =>
      apply norange_lift, repeat_range; lia
  | |- norange _ (lift _) => apply norange_lift; solve [ auto with range ]
  | |- norange _ (when _ _) => apply norange_when
  | |- norange _ (for_loop _ _ _) =>
      apply norange_for_loop; [ intros; keep_level | intros ]
  | |- norange _ (loop_until _ _ _) =>
      apply norange_loop_until; [ intros; keep_level | intros ]
  | |- norange _ (iterate_until _ _ _) =>
      apply norange_iterate_until; [ intros; keep_level | intros ]
  | |- norange _ (if ?b then _ else _) => destruct b
  | |- norange _ (match ?x with _ => _ end) => destruct x
  | |- norange _ _ => solve [ eauto with range ]
  end.

Ltac ranges := repeat range_step.

Section Steady.

Variable this : Dispatch.
Hypothesis Hkeep : forall n key node, keeps (at_level n) (this key node).
Hypothesis Hthis :
  forall n key node, (0 <= n)%Z -> norange n (this key node).

Lemma norange_call n node : (0 <= n)%Z -> norange n (call this node).
Proof using Hthis. intros Hn. unfold call. ranges. Qed.

Lemma norange_emit n node k : (0 <= n)%Z -> norange n (emit this node k).
Proof using Hthis.
  intros Hn. unfold emit. ranges. apply norange_call, Hn.
Qed.

Lemma norange_expressionNeedsParenthesis n node parentNode isRightHand :
  norange n (expressionNeedsParenthesis node parentNode isRightHand).
Proof. unfold expressionNeedsParenthesis. cbv zeta. ranges. Qed.

Lemma norange_reindent n text indentation :
  norange n (reindent text indentation).
Proof. unfold reindent. ranges. Qed.

Lemma norange_formatComments n comments indent lineEnd :
  norange n (formatComments comments indent lineEnd).
Proof.
  unfold formatComments. ranges. all: apply norange_reindent.
Qed.

Lemma norange_comments_at n writeComments node k indent lineEnd :
  norange n (comments_at writeComments node k indent lineEnd).
Proof.
  unfold comments_at. ranges. apply norange_formatComments.
Qed.

Lemma norange_import_leading n specifiers todo :
  forall i, norange n (import_leading specifiers i todo).
Proof.
  induction todo as [| t IH]; intros i; cbn [import_leading]; ranges.
  all: apply IH.
Qed.

Lemma norange_last_quasi n quasis : norange n (last_quasi quasis).
Proof. unfold last_quasi. ranges. Qed.

End Steady.

#[export] Hint Extern 1 (norange _ (call _ _)) =>
  apply norange_call; [ assumption | lia ] : range.
#[export] Hint Extern 1 (norange _ (emit _ _ _)) =>
  apply norange_emit; [ assumption | lia ] : range.
#[export] Hint Extern 1 (norange _ (expressionNeedsParenthesis _ _ _)) =>
  apply norange_expressionNeedsParenthesis : range.
#[export] Hint Extern 1 (norange _ (reindent _ _)) =>
  apply norange_reindent : range.
#[export] Hint Extern 1 (norange _ (formatComments _ _ _)) =>
  apply norange_formatComments : range.
#[export] Hint Extern 1 (norange _ (comments_at _ _ _ _ _)) =>
  apply norange_comments_at : range.
#[export] Hint Extern 1 (norange _ (import_leading _ _ _)) =>
  apply norange_import_leading : range.
#[export] Hint Extern 1 (norange _ (last_quasi _)) =>
  apply norange_last_quasi : range.
#[export] Hint Extern 2 (norange _ (_ _ _)) =>
  match goal with
  | H : forall n key node, (0 <= n)%Z -> norange n (?this key node)
    |- norange _ (?this _ _) => apply H; lia
  end : range.

Section SteadyHelpers.

Variable this : Dispatch.
Hypothesis Hkeep : forall n key node, keeps (at_level n) (this key node).
Hypothesis Hthis :
  forall n key node, (0 <= n)%Z -> norange n (this key node).

Lemma norange_formatSequence n nodes :
  (0 <= n)%Z -> norange n (formatSequence this nodes).
Proof using Hkeep Hthis. intros Hn. unfold formatSequence. ranges. Qed.

Lemma norange_formatBinaryExpressionPart n node parentNode isRightHand :
  (0 <= n)%Z ->
  norange n (formatBinaryExpressionPart this node parentNode isRightHand).
Proof using Hkeep Hthis.
  intros Hn. unfold formatBinaryExpressionPart. ranges.
Qed.

End SteadyHelpers.

#[export] Hint Extern 1 (norange _ (formatSequence _ _)) =>
  apply norange_formatSequence; [ assumption | assumption | lia ] : range.
#[export] Hint Extern 1 (norange _ (formatBinaryExpressionPart _ _ _ _)) =>
  apply norange_formatBinaryExpressionPart;
  [ assumption | assumption | lia ] : range.





(* ===================================================================== *)
(** * Well-formed trees are rendered *)
(* ===================================================================== *)

Lemma sound_with_any {A : Type} (Q : A -> Prop) (m : M A) :
  sound_with Q m -> sound m.
Proof.
  intros H st Hst. specialize (H st Hst). unfold sound_run.
  destruct (m st) as [[[a st'] w] | [] | |]; try exact H. apply H.
Qed.

Lemma sound_bind_with {A B : Type} (Q : A -> Prop) (m : M A) (k : A -> M B) :
  sound_with Q m -> (forall a, Q a -> sound (k a)) -> sound (bind m k).
Proof.
  intros Hm Hk st Hst. specialize (Hm st Hst). unfold bind, sound_run.
  destruct (m st) as [[[a st1] w1] | [] | |]; try exact Hm.
  destruct Hm as [Hst1 Ha]. specialize (Hk a Ha st1 Hst1).
  unfold sound_run in Hk.
  destruct (k a st1) as [[[b st2] w2] | [] | |]; exact Hk.
Qed.

Lemma sound_bind {A B : Type} (m : M A) (k : A -> M B) :
  sound m -> (forall a, sound (k a)) -> sound (bind m k).
Proof.
  intros Hm Hk. apply (sound_bind_with (fun _ => True)).
  - intros st Hst. specialize (Hm st Hst). unfold sound_run in Hm.
    destruct (m st) as [[[a st1] w1] | [] | |]; try exact Hm. split; auto.
  - intros a _. apply Hk.
Qed.

Lemma sound_ret {A : Type} (a : A) : sound (ret a).
Proof. intros st Hst. exact Hst. Qed.

Lemma sound_write v : sound (write v).
Proof. intros st Hst. exact Hst. Qed.

Lemma sound_gets {A : Type} (f : State -> A) : sound (gets f).
Proof. intros st Hst. exact Hst. Qed.

Lemma sound_modify f :
  (forall st, writeComments (f st) = writeComments st) -> sound (modify f).
Proof. intros H st Hst. cbn. rewrite H. exact Hst. Qed.

Lemma sound_lift {A : Type} (o : outcome A) : harmless o -> sound (lift o).
Proof.
  intros [H1 H2] st Hst. unfold lift, sound_run.
  destruct o as [a | [] | |]; try exact Hst; try exact I; congruence.
Qed.


Lemma sound_write_bind {B : Type} v (k : M B) :
  sound k -> sound (bind (write v) (fun _ => k)).
Proof. intros H. apply sound_bind; [ apply sound_write | intros _; exact H ]. Qed.

Lemma sound_gets_writeComments {B : Type} (k : bool -> M B) :
  sound (k false) -> sound (bind (gets writeComments) k).
Proof.
  intros H st Hst. rewrite gets_bind, Hst. apply H. exact Hst.
Qed.

Lemma sound_get {B : Type} v key y (k : value -> M B) :
  get v key = Ok y -> sound (k y) -> sound (bind (field v key) k).
Proof.
  intros Hget H st Hst. rewrite (field_bind _ _ _ _ _ Hget). apply H, Hst.
Qed.

Lemma sound_idx {B : Type} v i y (k : value -> M B) :
  idx v i = Ok y -> sound (k y) -> sound (bind (item v i) k).
Proof.
  intros Hidx H st Hst. rewrite (item_bind _ _ _ _ _ Hidx). apply H, Hst.
Qed.

Lemma get_prop v k : is_object v = true -> get v k = Ok (prop k v).
Proof. destruct v; try discriminate. reflexivity. Qed.

Lemma get_text v k : is_text v = true -> get v k = Ok (prop k v).
Proof. destruct v; try discriminate. reflexivity. Qed.

Lemma idx_text v i : is_text v = true -> idx v i = Ok (char_at i v).
Proof. destruct v; try discriminate. reflexivity. Qed.

Lemma sound_field {B : Type} v key (k : value -> M B) :
  is_object v = true -> sound (k (prop key v)) -> sound (bind (field v key) k).
Proof. intros Hv. apply sound_get, get_prop, Hv. Qed.

Lemma sound_when b m : (b = true -> sound m) -> sound (when b m).
Proof.
  intros H. destruct b; [ apply H; reflexivity | apply sound_ret ].
Qed.

Lemma sound_gt_num {B : Type} (n m : nat) (k : bool -> M B) :
  sound (k (m <? n)%nat) ->
  sound (bind (gt_num (VNum (Z.of_nat n)) (Z.of_nat m)) k).
Proof.
  intros H st Hst. rewrite gt_num_bind. apply H, Hst.
Qed.

Lemma sound_iterate body :
  forall count i,
    (forall j, i <= j < i + count -> sound (body j)) ->
    sound (iterate i count body).
Proof.
  induction count as [| c IH]; intros i H; cbn [iterate].
  - apply sound_ret.
  - apply sound_bind; [ apply H; lia | intros _; apply IH ].
    intros j Hj. apply H. lia.
Qed.

Lemma sound_for_loop start n body :
  (forall i, start <= i < n -> sound (body i)) ->
  sound (for_loop start (VNum (Z.of_nat n)) body).
Proof.
  intros H. unfold for_loop. cbn [to_number].
  intros st Hst. rewrite (lift_bind (Ok (Some (Z.of_nat n))) _ _ _ eq_refl).
  apply sound_iterate; [ | exact Hst ].
  intros j Hj. apply H. lia.
Qed.

Lemma sound_iterate_until step :
  forall further i,
    (forall j more, i <= j <= i + further -> sound (step j more)) ->
    sound (iterate_until i further step).
Proof.
  induction further as [| f IH]; intros i H; cbn [iterate_until].
  - apply H. lia.
  - apply sound_bind; [ apply H; lia | intros _; apply IH ].
    intros j more Hj. apply H. lia.
Qed.

Lemma sound_loop_until start n step :
  start < n ->
  (forall i more, start <= i < n -> sound (step i more)) ->
  sound (loop_until start (VNum (Z.of_nat n)) step).
Proof.
  intros Hn H. unfold loop_until. cbn [to_number].
  intros st Hst. rewrite (lift_bind (Ok (Some (Z.of_nat n))) _ _ _ eq_refl).
  apply sound_iterate_until; [ | exact Hst ].
  intros j more Hj. apply H. lia.
Qed.

Lemma sound_add_indentLevel d : sound (add_indentLevel d).
Proof. intros st Hst. exact Hst. Qed.

Lemma sound_indent_then_increment : sound indent_then_increment.
Proof.
  intros st Hst.
  cbv [indent_then_increment add_indentLevel bind gets modify lift repeat].
  destruct (indentLevel st <? 0)%Z; [ exact I | exact Hst ].
Qed.

Lemma harmless_repeat s n : harmless (repeat s n).
Proof.
  unfold repeat. destruct (n <? 0)%Z; split; discriminate.
Qed.

Lemma harmless_slot_lt_Own p n : harmless (slot_lt p (Own n)).
Proof. destruct p; split; discriminate. Qed.

Lemma harmless_slot_le_Own p n : harmless (slot_le p (Own n)).
Proof. destruct p; split; discriminate. Qed.

Lemma forallb_nth {A : Type} (f : A -> bool) l i d :
  forallb f l = true -> i < List.length l -> f (nth i l d) = true.
Proof.
  intros H Hi. apply (proj1 (forallb_forall f l) H). apply nth_In, Hi.
Qed.

Lemma nullish_truthy v : nullish v = true -> truthy v = false.
Proof. destruct v; try discriminate; reflexivity. Qed.

Lemma maybe_present (p : bool) v :
  nullish v || p = true -> nullish v = false -> p = true.
Proof. intros H Hv. rewrite Hv in H. exact H. Qed.

Lemma maybe_truthy (p : bool) v :
  nullish v || p = true -> truthy v = true -> p = true.
Proof.
  intros H Hv. destruct (nullish v) eqn:E; [ | exact H ].
  rewrite (nullish_truthy _ E) in Hv. discriminate.
Qed.

Lemma typed_object child v : typed child v = true -> is_object v = true.
Proof. unfold typed. intros H. apply andb_prop in H. apply H. Qed.

Lemma typed_type child v :
  typed child v = true ->
  exists type, prop "type" v = VStr type /\ child type v = true.
Proof.
  unfold typed. intros H. apply andb_prop in H as [_ H].
  destruct (prop "type" v) as [| | | | type | |]; try discriminate.
  exists type. split; [ reflexivity | exact H ].
Qed.

Section Children.

Variable child : string -> value -> bool.
Variable this : Dispatch.
Hypothesis Hthis : forall key c, child key c = true -> sound (this key c).

Lemma sound_call c : typed child c = true -> sound (call this c).
Proof.
  intros H. unfold call.
  apply (sound_field c "type"); [ exact (typed_object _ _ H) | ].
  destruct (typed_type _ _ H) as (type & -> & Hc). apply Hthis, Hc.
Qed.

Lemma sound_emit v k :
  is_object v = true -> node_at k child v = true -> sound (emit this v k).
Proof.
  intros Hv H. unfold emit. apply sound_field; [ exact Hv | ].
  apply sound_call, H.
Qed.

Lemma sound_formatSequence l :
  forallb (typed child) l = true -> sound (formatSequence this (VArr l)).
Proof.
  intros H. unfold formatSequence. cbn [nullish].
  apply sound_write_bind. apply sound_bind; [ | intros _; apply sound_write ].
  eapply sound_get; [ reflexivity | ]. cbn beta.
  apply (sound_gt_num (List.length l) 0).
  apply sound_when. intros Hl. apply Nat.ltb_lt in Hl.
  eapply sound_idx; [ reflexivity | ].
  apply sound_bind; [ apply sound_call, forallb_nth; assumption | intros _ ].
  eapply sound_get; [ reflexivity | ].
  apply sound_for_loop. intros i Hi.
  eapply sound_idx; [ reflexivity | ].
  apply sound_write_bind, sound_call, forallb_nth; [ assumption | lia ].
Qed.

Lemma sound_formatSequence_maybe x :
  nullish x || node_list child x = true -> sound (formatSequence this x).
Proof.
  intros H. destruct (nullish x) eqn:E.
  - unfold formatSequence. rewrite E.
    apply sound_write_bind. apply sound_bind; [ apply sound_ret | ].
    intros _. apply sound_write.
  - cbn [orb] in H. destruct x; try discriminate H.
    apply sound_formatSequence, H.
Qed.

End Children.

Lemma sound_gt_num_end z m : sound (gt_num (VNum z) m).
Proof. intros st Hst. exact Hst. Qed.

Lemma sound_get_end v key y : get v key = Ok y -> sound (field v key).
Proof. intros H st Hst. unfold field. rewrite H. exact Hst. Qed.

Lemma sound_idx_end v i y : idx v i = Ok y -> sound (item v i).
Proof. intros H st Hst. unfold item. rewrite H. exact Hst. Qed.

Lemma harmless_strict_eq_text s b : harmless (strict_eq (VStr s) b).
Proof. destruct b; split; discriminate. Qed.

Lemma harmless_stringify v : primitive v = true -> harmless (stringify v).
Proof. destruct v; try discriminate; split; discriminate. Qed.

Lemma harmless_Ok {A : Type} (a : A) : harmless (Ok a).
Proof. split; discriminate. Qed.

(** ** The keys of the grammar *)

Lemma well_formed_shape n key v :
  well_formed n key v = true ->
  exists n' s,
    n = S n' /\ is_object v = true /\ assoc key grammar = Some s
    /\ s (well_formed n') v = true.
Proof.
  destruct n as [| n']; [ discriminate | ]. cbn [well_formed]. intros H.
  apply andb_prop in H as [Hv H].
  destruct (assoc key grammar) as [s |]; [ | discriminate ].
  exists n', s. auto.
Qed.

Lemma well_formed_as n key v s :
  assoc key grammar = Some s ->
  well_formed n key v = true ->
  exists n', n = S n' /\ is_object v = true /\ s (well_formed n') v = true.
Proof.
  intros Hs H. destruct (well_formed_shape _ _ _ H) as (n' & s' & -> & Hv & E & Hc).
  rewrite Hs in E. injection E as <-. exists n'. auto.
Qed.

Lemma grammar_key key s :
  assoc key grammar = Some s -> In key (map fst grammar).
Proof. intros H. apply assoc_In in H. apply (in_map fst) in H. exact H. Qed.

Lemma grammar_key_own key s :
  assoc key grammar = Some s -> mem key Object_prototype = false.
Proof.
  intros H. apply grammar_key in H.
  assert (Hall : forallb (fun k => negb (mem k Object_prototype))
                         (map fst grammar) = true) by reflexivity.
  apply negb_true_iff. exact (proj1 (forallb_forall _ _) Hall key H).
Qed.

Lemma precedence_key n type v :
  well_formed n type v = true ->
  forall name, precedence (VStr type) <> Inherited name.
Proof.
  intros H name. destruct (well_formed_shape _ _ _ H) as (_ & s & _ & _ & E & _).
  apply grammar_key_own in E. unfold precedence, lookup. cbn [to_str].
  destruct (assoc type EXPRESSIONS_PRECEDENCE); [ discriminate | ].
  rewrite E. discriminate.
Qed.

Lemma harmless_slot_lt_left p q :
  (forall name, p <> Inherited name) -> harmless (slot_lt p q).
Proof.
  intros H. destruct p as [x | name |], q as [y | other |]; cbn;
    try (split; discriminate).
  contradiction (H name). reflexivity.
Qed.

Lemma harmless_slot_lt_right p q :
  (forall name, q <> Inherited name) -> harmless (slot_lt p q).
Proof.
  intros H. destruct p as [x | other |], q as [y | name |]; cbn;
    try (split; discriminate).
  contradiction (H name). reflexivity.
Qed.

Lemma harmless_slot_le_right p q :
  (forall name, q <> Inherited name) -> harmless (slot_le p q).
Proof.
  intros H. destruct p as [x | other |], q as [y | name |]; cbn;
    try (split; discriminate).
  contradiction (H name). reflexivity.
Qed.

Lemma operator_precedence_own operator :
  mem operator (map fst OPERATOR_PRECEDENCE) = true ->
  forall name, operator_precedence (VStr operator) <> Inherited name.
Proof.
  intros H name. unfold operator_precedence, lookup. cbn [to_str].
  destruct (assoc operator OPERATOR_PRECEDENCE) eqn:E; [ discriminate | ].
  exfalso. apply mem_In in H. apply in_map_iff in H as ([k z] & <- & Hin).
  cbn [fst] in E. revert E.
  cbn in Hin.
  repeat (destruct Hin as [[= <- <-] | Hin]; [ discriminate | ]).
  contradiction.
Qed.

(** The only key that begins with [Mem]. *)
Lemma member_key key s :
  assoc key grammar = Some s ->
  is_str (char_at 0 (VStr key)) "M" && is_str (char_at 1 (VStr key)) "e"
  && is_str (char_at 2 (VStr key)) "m" = true ->
  key = "MemberExpression".
Proof.
  intros H. apply grammar_key in H. cbn in H.
  repeat (destruct H as [<- | H]; [ cbn; try discriminate; reflexivity | ]).
  contradiction.
Qed.

Lemma hasCallExpression_typed n :
  forall v, typed (well_formed n) v = true -> harmless (hasCallExpression v).
Proof.
  induction n as [| n IH]; intros v H.
  - destruct (typed_type _ _ H) as (type & _ & Hc). discriminate.
  - pose proof (typed_object _ _ H) as Hv.
    destruct (typed_type _ _ H) as (type & E & Hc).
    rewrite hasCallExpression_loop.
    replace (nullish v) with false by (destruct v; try discriminate; reflexivity).
    rewrite (get_prop _ "type" Hv), E.
    change (idx (VStr type) 0) with (Ok (char_at 0 (VStr type))).
    change (idx (VStr type) 1) with (Ok (char_at 1 (VStr type))).
    change (idx (VStr type) 2) with (Ok (char_at 2 (VStr type))).
    cbv iota beta.
    destruct (_ && _); [ apply harmless_Ok | ].
    destruct (_ && _ && _) eqn:Em; [ | apply harmless_Ok ].
    destruct (well_formed_shape _ _ _ Hc) as (n' & s & [= <-] & _ & Es & Hs).
    pose proof (member_key _ _ Es Em) as ->.
    rewrite (get_prop _ "object" Hv).
    apply IH.
    assert (Hm : assoc "MemberExpression" grammar
                 = Some (all [node_at "object"; node_at "property"]))
      by reflexivity.
    rewrite Hm in Es. injection Es as <-.
    cbn [all forallb] in Hs. apply andb_prop in Hs as [Hs _]. exact Hs.
Qed.

Ltac open_checks :=
  repeat match goal with
  | H : all _ _ _ = true |- _ => cbn [all forallb] in H
  | H : _ && _ = true |- _ =>
      let H1 := fresh H in apply andb_prop in H; destruct H as [H1 H]
  | H : true = true |- _ => clear H
  | H : negb _ = true |- _ => apply negb_true_iff in H
  | H : negb _ = false |- _ => apply negb_false_iff in H
  | H : (_ <? _)%nat = true |- _ => apply Nat.ltb_lt in H
  | H : nodes_at _ _ _ = true |- _ => unfold nodes_at in H
  | H : holes_at _ _ _ = true |- _ => unfold holes_at in H
  | H : each_as _ _ _ _ = true |- _ => unfold each_as in H
  | H : each_inside _ _ _ _ = true |- _ => unfold each_inside in H
  | H : node_at _ _ _ = true |- _ => unfold node_at in H
  | H : maybe_at _ _ _ = true |- _ => unfold maybe_at in H
  | H : maybe_nodes_at _ _ _ = true |- _ => unfold maybe_nodes_at in H
  | H : as_at _ _ _ _ = true |- _ => unfold as_at in H
  | H : maybe_as_at _ _ _ _ = true |- _ => unfold maybe_as_at in H
  | H : itself_as _ _ _ = true |- _ => unfold itself_as in H
  | H : text_at _ _ _ = true |- _ => unfold text_at in H
  | H : inside _ _ _ _ = true |- _ => unfold inside in H
  | H : maybe_inside _ _ _ _ = true |- _ => unfold maybe_inside in H
  | H : named_by _ _ _ = true |- _ => unfold named_by, has_name in H
  | H : has_name _ _ = true |- _ => unfold has_name in H
  | H : anything _ _ = true |- _ => clear H
  | H : regular_expression _ _ = true |- _ => unfold regular_expression in H
  | H : literal_value _ _ = true |- _ => unfold literal_value in H
  | H : (if ?b then _ else _) = true, E : ?b = _ |- _ => rewrite E in H
  | H : is_text (prop ?k ?v) = true |- _ =>
      let E := fresh "E" in
      destruct (prop k v) eqn:E; try discriminate H; clear H
  | H : match prop ?k ?v with _ => _ end = true |- _ =>
      let E := fresh "E" in
      destruct (prop k v) eqn:E; try discriminate H
  | Hm : nullish ?x || ?p = true, Ht : truthy ?x = true |- _ =>
      apply (fun H => maybe_truthy p x H Ht) in Hm
  | Hm : nullish ?x || ?p = true, Hn : nullish ?x = false |- _ =>
      apply (fun H => maybe_present p x H Hn) in Hm
  end.

Ltac known_props :=
  repeat match goal with
  | E : prop ?k ?v = _ |- context [prop ?k ?v] => rewrite E
  end.

(** The type of a node that is written under its type. *)
Ltac expose_types :=
  repeat match goal with
  | H : typed _ ?x = true |- context [prop "type" ?x] =>
      let type := fresh "type" in
      let E := fresh "E" in
      let Hc := fresh "Hc" in
      destruct (typed_type _ _ H) as (type & E & Hc);
      rewrite E in *; cbn [to_str]
  end.

(** What is known of an element of a list. *)
Ltac element_facts :=
  repeat match goal with
  | Hall : forallb ?f ?l = true |- context [nth ?i ?l VUndefined] =>
      lazymatch f with
      | typed _ => fail
      | well_formed _ _ => fail
      | _ =>
          lazymatch goal with
          | _ : context [nth i l VUndefined] |- _ => fail
          | _ =>
              let Hn := fresh "Hn" in
              pose proof (forallb_nth f l i VUndefined Hall ltac:(lia)) as Hn;
              cbn beta in Hn
          end
      end
  end.

Ltac is_node :=
  first
    [ eassumption
    | eapply forallb_nth; [ eassumption | lia ] ].

Ltac is_an_object :=
  first
    [ assumption
    | reflexivity
    | eapply typed_object; is_node ].

Ltac sound_step n this Hthis :=
  element_facts; open_checks; known_props; expose_types;
  lazymatch goal with
  | |- sound (bind (write _) _) => apply sound_write_bind
  | |- sound (bind (gets writeComments) _) =>
      apply sound_gets_writeComments
  | |- sound (bind (field (VArr ?l) "length") _) =>
      apply (sound_get _ _ (VNum (Z.of_nat (List.length l))));
      [ reflexivity | ]
  | |- sound (bind (field (VStr ?s) "length") _) =>
      apply (sound_get _ _ (VNum (Z.of_nat (String.length s))));
      [ reflexivity | ]
  | |- sound (bind (field ?v ?k) _) =>
      apply sound_field; [ is_an_object | ]
  | |- sound (bind (item (VArr ?l) ?i) _) =>
      apply (sound_idx _ _ (nth i l VUndefined)); [ reflexivity | ]
  | |- sound (bind (item (VStr ?s) ?i) _) =>
      apply (sound_idx _ _ (char_at i (VStr s))); [ reflexivity | ]
  | |- sound (bind (gt_num (VNum (Z.of_nat ?m)) 0) _) =>
      apply (sound_gt_num m 0)
  | |- sound (bind (gt_num (VNum (Z.of_nat ?m)) 1) _) =>
      apply (sound_gt_num m 1)
  | |- sound (bind _ _) => apply sound_bind; [ | intros ? ]
  | |- sound (ret _) => apply sound_ret
  | |- sound (gt_num (VNum _) _) => apply sound_gt_num_end
  | |- sound (write _) => apply sound_write
  | |- sound (gets _) => apply sound_gets
  | |- sound (modify _) => apply sound_modify; reflexivity
  | |- sound (add_indentLevel _) => apply sound_add_indentLevel
  | |- sound indent_then_increment => apply sound_indent_then_increment
  | |- sound (item (VStr ?s) ?i) =>
      apply (sound_idx_end _ _ (char_at i (VStr s))); reflexivity
  | |- sound (lift (repeat _ _)) => apply sound_lift, harmless_repeat
  | |- sound (lift (strict_eq (VStr _) _)) =>
      apply sound_lift, harmless_strict_eq_text
  | |- sound (lift (stringify _)) =>
      apply sound_lift, harmless_stringify; assumption
  | |- sound (lift (hasCallExpression _)) =>
      apply sound_lift; eapply hasCallExpression_typed; eassumption
  | |- sound (lift (slot_lt (operator_precedence _)
                           (operator_precedence (VStr _)))) =>
      apply sound_lift, harmless_slot_lt_right;
      apply operator_precedence_own; assumption
  | |- sound (lift (slot_le (operator_precedence _)
                           (operator_precedence (VStr _)))) =>
      apply sound_lift, harmless_slot_le_right;
      apply operator_precedence_own; assumption
  | |- sound (lift (slot_lt (precedence (VStr ?type)) (precedence _))) =>
      apply sound_lift;
      first
        [ apply harmless_slot_lt_left;
          lazymatch goal with
          | H : well_formed _ type _ = true |- _ =>
              exact (precedence_key _ _ _ H)
          end
        | apply harmless_slot_lt_right;
          lazymatch goal with
          | H : well_formed _ ?t _ = true
            |- forall name, precedence (VStr ?t) <> _ =>
              exact (precedence_key _ _ _ H)
          end ]
  | |- sound (comments_at false _ _ _ _) => apply sound_ret
  | |- sound (call _ _) =>
      apply (sound_call (well_formed n) this Hthis); is_node
  | |- sound (emit _ _ _) => unfold emit
  | |- sound (formatSequence _ _) =>
      first
        [ apply (sound_formatSequence_maybe (well_formed n) this Hthis);
          assumption
        | apply (sound_formatSequence (well_formed n) this Hthis);
          assumption ]
  | |- sound (this _ _) => apply Hthis; is_node
  | |- sound (when _ _) =>
      apply sound_when; let H := fresh "Hwhen" in intros H
  | |- sound (for_loop _ (VNum (Z.of_nat _)) _) =>
      apply sound_for_loop; intros ? ?
  | |- sound (loop_until _ (VNum (Z.of_nat _)) _) =>
      apply sound_loop_until; [ lia | intros ? ? ? ]
  | |- sound (if ?b then _ else _) =>
      let E := fresh "E" in destruct b eqn:E
  end.

Lemma sound_ret_bind {A B : Type} (a : A) (k : A -> M B) :
  sound (k a) -> sound (bind (ret a) k).
Proof. intros H st Hst. rewrite ret_bind. apply H, Hst. Qed.

Section Formatters.

Variable n : nat.
Variable this : Dispatch.
Hypothesis Hthis :
  forall key c, well_formed n key c = true -> sound (this key c).

Local Abbreviation child := (well_formed n).

Ltac run F :=
  intros Hv H; unfold F; repeat sound_step n this Hthis.

Lemma sound_Program v :
  is_object v = true ->
  nodes_at "body" child v = true ->
  sound (Program this v).
Proof. run Program. Qed.

Lemma sound_BlockStatement v :
  is_object v = true ->
  nodes_at "body" child v = true ->
  sound (BlockStatement this v).
Proof. run BlockStatement. Qed.

Lemma sound_IfStatement v :
  is_object v = true ->
  all [node_at "test"; node_at "consequent"; maybe_at "alternate"] child v = true ->
  sound (IfStatement this v).
Proof. run IfStatement. Qed.

Lemma sound_LabeledStatement v :
  is_object v = true ->
  all [node_at "label"; node_at "body"] child v = true ->
  sound (LabeledStatement this v).
Proof. run LabeledStatement. Qed.

Lemma sound_BreakStatement v :
  is_object v = true ->
  maybe_at "label" child v = true ->
  sound (BreakStatement this v).
Proof. run BreakStatement. Qed.

Lemma sound_ContinueStatement v :
  is_object v = true ->
  maybe_at "label" child v = true ->
  sound (ContinueStatement this v).
Proof. run ContinueStatement. Qed.

Lemma sound_WithStatement v :
  is_object v = true ->
  all [node_at "object"; node_at "body"] child v = true ->
  sound (WithStatement this v).
Proof. run WithStatement. Qed.

Lemma sound_SwitchStatement v :
  is_object v = true ->
  all [ node_at "discriminant";
        each_inside "cases" (all [maybe_at "test"; nodes_at "consequent"]) ] child v = true ->
  sound (SwitchStatement this v).
Proof. run SwitchStatement. Qed.

Lemma sound_ReturnStatement v :
  is_object v = true ->
  maybe_at "argument" child v = true ->
  sound (ReturnStatement this v).
Proof. run ReturnStatement. Qed.

Lemma sound_ThrowStatement v :
  is_object v = true ->
  node_at "argument" child v = true ->
  sound (ThrowStatement this v).
Proof. run ThrowStatement. Qed.

Lemma sound_TryStatement v :
  is_object v = true ->
  all [ node_at "block";
        maybe_inside "handler" (all [node_at "param"; node_at "body"]);
        maybe_at "finalizer" ] child v = true ->
  sound (TryStatement this v).
Proof. run TryStatement. Qed.

Lemma sound_WhileStatement v :
  is_object v = true ->
  all [node_at "test"; node_at "body"] child v = true ->
  sound (WhileStatement this v).
Proof. run WhileStatement. Qed.

Lemma sound_DoWhileStatement v :
  is_object v = true ->
  all [node_at "body"; node_at "test"] child v = true ->
  sound (DoWhileStatement this v).
Proof. run DoWhileStatement. Qed.

Lemma sound_ForStatement v :
  is_object v = true ->
  all [ maybe_at "init"; maybe_at "test"; maybe_at "update";
        node_at "body" ] child v = true ->
  sound (ForStatement this v).
Proof. run ForStatement. Qed.

Lemma sound_ForInStatement v :
  is_object v = true ->
  all [text_at "type"; node_at "left"; node_at "right"; node_at "body"] child v = true ->
  sound (ForInStatement this v).
Proof. run ForInStatement. Qed.

Lemma sound_FunctionDeclaration v :
  is_object v = true ->
  all [maybe_at "id"; maybe_nodes_at "params"; node_at "body"] child v = true ->
  sound (FunctionDeclaration this v).
Proof. run FunctionDeclaration. Qed.

Lemma sound_VariableDeclaration v :
  is_object v = true ->
  each_as "VariableDeclarator" "declarations" child v = true ->
  sound (VariableDeclaration this v).
Proof. run VariableDeclaration. Qed.

Lemma sound_VariableDeclarator v :
  is_object v = true ->
  all [node_at "id"; maybe_at "init"] child v = true ->
  sound (VariableDeclarator this v).
Proof. run VariableDeclarator. Qed.

Lemma sound_ClassDeclaration v :
  is_object v = true ->
  all [maybe_at "id"; maybe_at "superClass"; as_at "ClassBody" "body"] child v = true ->
  sound (ClassDeclaration this v).
Proof. run ClassDeclaration. Qed.

Lemma sound_ExportDefaultDeclaration v :
  is_object v = true ->
  node_at "declaration" child v = true ->
  sound (ExportDefaultDeclaration this v).
Proof. run ExportDefaultDeclaration. Qed.

Lemma sound_ExportNamedDeclaration v :
  is_object v = true ->
  all [ maybe_at "declaration";
        each_inside "specifiers"
          (all [named_by "local"; named_by "exported"]);
        maybe_as_at "Literal" "source" ] child v = true ->
  sound (ExportNamedDeclaration this v).
Proof. run ExportNamedDeclaration. Qed.

Lemma sound_ExportAllDeclaration v :
  is_object v = true ->
  as_at "Literal" "source" child v = true ->
  sound (ExportAllDeclaration this v).
Proof. run ExportAllDeclaration. Qed.

Lemma sound_MethodDefinition v :
  is_object v = true ->
  all [ text_at "kind"; node_at "key";
        inside "value" (all [maybe_nodes_at "params"; node_at "body"]) ] child v = true ->
  sound (MethodDefinition this v).
Proof. run MethodDefinition. Qed.

Lemma sound_ClassExpression v :
  is_object v = true ->
  itself_as "ClassDeclaration" child v = true ->
  sound (ClassExpression this v).
Proof. run ClassExpression. Qed.

Lemma sound_RestElement v :
  is_object v = true ->
  node_at "argument" child v = true ->
  sound (RestElement this v).
Proof. run RestElement. Qed.

Lemma sound_YieldExpression v :
  is_object v = true ->
  maybe_at "argument" child v = true ->
  sound (YieldExpression this v).
Proof. run YieldExpression. Qed.

Lemma sound_AwaitExpression v :
  is_object v = true ->
  maybe_at "argument" child v = true ->
  sound (AwaitExpression this v).
Proof. run AwaitExpression. Qed.

Lemma sound_TaggedTemplateExpression v :
  is_object v = true ->
  all [node_at "tag"; node_at "quasi"] child v = true ->
  sound (TaggedTemplateExpression this v).
Proof. run TaggedTemplateExpression. Qed.

Lemma sound_ArrayExpression v :
  is_object v = true ->
  holes_at "elements" child v = true ->
  sound (ArrayExpression this v).
Proof. run ArrayExpression. Qed.

Lemma sound_ObjectExpression v :
  is_object v = true ->
  each_as "Property" "properties" child v = true ->
  sound (ObjectExpression this v).
Proof. run ObjectExpression. Qed.

Lemma sound_ObjectPattern v :
  is_object v = true ->
  nodes_at "properties" child v = true ->
  sound (ObjectPattern this v).
Proof. run ObjectPattern. Qed.

Lemma sound_SequenceExpression v :
  is_object v = true ->
  maybe_nodes_at "expressions" child v = true ->
  sound (SequenceExpression this v).
Proof. run SequenceExpression. Qed.

Lemma sound_UnaryExpression v :
  is_object v = true ->
  all [text_at "operator"; node_at "argument"] child v = true ->
  sound (UnaryExpression this v).
Proof. run UnaryExpression. Qed.

Lemma sound_UpdateExpression v :
  is_object v = true ->
  node_at "argument" child v = true ->
  sound (UpdateExpression this v).
Proof. run UpdateExpression. Qed.

Lemma sound_AssignmentExpression v :
  is_object v = true ->
  all [node_at "left"; node_at "right"] child v = true ->
  sound (AssignmentExpression this v).
Proof. run AssignmentExpression. Qed.

Lemma sound_AssignmentPattern v :
  is_object v = true ->
  all [node_at "left"; node_at "right"] child v = true ->
  sound (AssignmentPattern this v).
Proof. run AssignmentPattern. Qed.

Lemma sound_ConditionalExpression v :
  is_object v = true ->
  all [node_at "test"; node_at "consequent"; node_at "alternate"] child v = true ->
  sound (ConditionalExpression this v).
Proof. run ConditionalExpression. Qed.

Lemma sound_NewExpression v :
  is_object v = true ->
  all [node_at "callee"; maybe_nodes_at "arguments"] child v = true ->
  sound (NewExpression this v).
Proof. run NewExpression. Qed.

Lemma sound_CallExpression v :
  is_object v = true ->
  all [node_at "callee"; maybe_nodes_at "arguments"] child v = true ->
  sound (CallExpression this v).
Proof. run CallExpression. Qed.

Lemma sound_MemberExpression v :
  is_object v = true ->
  all [node_at "object"; node_at "property"] child v = true ->
  sound (MemberExpression this v).
Proof. run MemberExpression. Qed.

Lemma sound_MetaProperty v :
  is_object v = true ->
  all [inside "meta" anything; inside "property" anything] child v = true ->
  sound (MetaProperty this v).
Proof. run MetaProperty. Qed.

Lemma sound_RegExpLiteral v :
  is_object v = true ->
  regular_expression child v = true ->
  sound (RegExpLiteral this v).
Proof. run RegExpLiteral. Qed.

Lemma sound_Literal v :
  is_object v = true ->
  literal_value child v = true ->
  sound (Literal this v).
Proof. run Literal. Qed.

Lemma sound_expressionNeedsParenthesis x parent right :
  typed child x = true ->
  is_object parent = true ->
  operator_at child parent = true ->
  sound (expressionNeedsParenthesis x parent right).
Proof.
  intros Hx Hp Hop. unfold operator_at in Hop.
  destruct (prop "operator" parent) as [| | | | operator | |] eqn:E;
    try discriminate Hop.
  unfold expressionNeedsParenthesis. cbv zeta.
  repeat sound_step n this Hthis.
Qed.

Lemma sound_formatBinaryExpressionPart x parent right :
  typed child x = true ->
  is_object parent = true ->
  operator_at child parent = true ->
  sound (formatBinaryExpressionPart this x parent right).
Proof.
  intros Hx Hp Hop. unfold formatBinaryExpressionPart.
  apply sound_bind; [ apply sound_expressionNeedsParenthesis; assumption | ].
  intros parens. repeat sound_step n this Hthis.
Qed.

Lemma sound_BinaryExpression v :
  is_object v = true ->
  all [operator_at; node_at "left"; node_at "right"] child v = true ->
  sound (BinaryExpression this v).
Proof.
  intros Hv H. unfold BinaryExpression. open_checks.
  repeat first
    [ apply sound_formatBinaryExpressionPart; assumption
    | sound_step n this Hthis ].
Qed.

(** Whether a property is written as a method. *)
Lemma sound_Property v :
  is_object v = true ->
  property child v = true ->
  sound (Property this v).
Proof.
  intros Hv H. unfold Property, property in *.
  apply sound_field; [ exact Hv | ].
  destruct (truthy (prop "method" v)) eqn:Em.
  - apply sound_ret_bind. apply Hthis, H.
  - open_checks.
    apply (sound_bind_with
             (fun b => b = negb (is_str (char_at 0 (VStr s)) "i"))).
    + intros st Hst.
      rewrite (field_bind _ _ _ _ _ (get_prop v "kind" Hv)), E.
      rewrite (item_bind (VStr s) 0 _ (char_at 0 (VStr s)) _ eq_refl).
      split; [ exact Hst | reflexivity ].
    + intros b ->.
      destruct (is_str (char_at 0 (VStr s)) "i") eqn:Ei; cbn [negb].
      * repeat sound_step n this Hthis.
      * apply Hthis, H.
Qed.

End Formatters.

Lemma skipn_cons_nth {A : Type} (d : A) l :
  forall i, i < List.length l -> skipn i l = nth i l d :: skipn (S i) l.
Proof.
  induction l as [| x l IH]; intros i Hi; [ cbn in Hi; lia | ].
  destruct i as [| i]; [ reflexivity | ].
  cbn [skipn nth]. apply IH. cbn in Hi. lia.
Qed.

Lemma forallb_skipn_nth {A : Type} (f : A -> bool) l j k d :
  forallb f (skipn j l) = true ->
  j <= k < List.length l ->
  f (nth k l d) = true.
Proof.
  intros H Hk. replace k with (j + (k - j)) by lia.
  rewrite <- nth_skipn. apply forallb_nth; [ exact H | ].
  rewrite length_skipn. lia.
Qed.

Lemma specifiers_named l :
  specifiers_in_order true l = true -> forallb named_specifier l = true.
Proof.
  induction l as [| s l IH]; [ reflexivity | ].
  cbn [specifiers_in_order negb andb orb]. intros H.
  apply andb_prop in H as [H Hl]. apply andb_prop in H as [H Himported].
  apply andb_prop in H as [H Hlocal]. apply andb_prop in H as [Hs _].
  cbn [forallb]. rewrite (IH Hl), andb_true_r.
  unfold named_specifier. rewrite Hs, Hlocal, Himported. reflexivity.
Qed.

Lemma sound_with_ret {A : Type} (Q : A -> Prop) (a : A) :
  Q a -> sound_with Q (ret a).
Proof. intros H st Hst. split; assumption. Qed.

Lemma sound_with_write_bind {B : Type} (Q : B -> Prop) v (k : M B) :
  sound_with Q k -> sound_with Q (bind (write v) (fun _ => k)).
Proof.
  intros H st Hst. rewrite write_bind. specialize (H st Hst).
  destruct (k st) as [[[b st2] w2] | [] | |]; exact H.
Qed.

Lemma sound_with_get {B : Type} (Q : B -> Prop) v key y (k : value -> M B) :
  get v key = Ok y -> sound_with Q (k y) -> sound_with Q (bind (field v key) k).
Proof.
  intros Hget H st Hst. rewrite (field_bind _ _ _ _ _ Hget). apply H, Hst.
Qed.

Lemma sound_with_idx {B : Type} (Q : B -> Prop) v i y (k : value -> M B) :
  idx v i = Ok y -> sound_with Q (k y) -> sound_with Q (bind (item v i) k).
Proof.
  intros Hidx H st Hst. rewrite (item_bind _ _ _ _ _ Hidx). apply H, Hst.
Qed.

Lemma sound_with_when_bind {B : Type} (Q : B -> Prop) b v (k : M B) :
  sound_with Q k -> sound_with Q (bind (when b (write v)) (fun _ => k)).
Proof.
  intros H. destruct b; [ apply sound_with_write_bind, H | ].
  intros st Hst. unfold when. rewrite ret_bind. apply H, Hst.
Qed.

(** The loop over the default and namespace specifiers stops at an index
    from which every specifier can be read as a named one. *)
Lemma sound_import_leading l :
  forall todo i,
    i + todo = List.length l ->
    specifiers_in_order false (skipn i l) = true ->
    sound_with (fun j => i <= j <= List.length l
                         /\ forallb named_specifier (skipn j l) = true)
               (import_leading (VArr l) i todo).
Proof.
  induction todo as [| todo IH]; intros i Hi H; cbn [import_leading].
  - apply sound_with_ret. split; [ lia | ].
    rewrite skipn_all2 by lia. reflexivity.
  - rewrite (skipn_cons_nth VUndefined) in H by lia.
    set (s := nth i l VUndefined) in *.
    cbn [specifiers_in_order negb andb] in H.
    apply andb_prop in H as [H Hrest]. apply andb_prop in H as [H Himported].
    apply andb_prop in H as [H Hlocal]. apply andb_prop in H as [Hs Htype].
    destruct (prop "type" s) as [| | | | type | |] eqn:Et;
      try discriminate Htype.
    pose proof Hlocal as Hlocal'. unfold has_name in Hlocal'.
    apply andb_prop in Hlocal' as [Hobject Hname].
    assert (Hnext :
      specifiers_in_order false (skipn (S i) l) = true ->
      sound_with (fun j => i <= j <= Datatypes.length l
                           /\ forallb named_specifier (skipn j l) = true)
                 (import_leading (VArr l) (S i) todo)).
    { intros Hn. specialize (IH (S i) ltac:(lia) Hn).
      intros st Hst. specialize (IH st Hst).
      destruct (import_leading (VArr l) (S i) todo st)
        as [[[j st'] w] | [] | |]; try exact IH.
      destruct IH as (Hst' & Hj & Hall). repeat split; try assumption; lia. }
    apply sound_with_when_bind.
    apply (sound_with_idx _ _ _ s); [ reflexivity | ].
    apply (sound_with_get _ _ _ (VStr type));
      [ rewrite (get_prop _ _ Hs), Et; reflexivity | ].
    apply (sound_with_idx _ _ _ (char_at 6 (VStr type))); [ reflexivity | ].
    destruct (is_str (char_at 6 (VStr type)) "D") eqn:Ed;
      [ | destruct (is_str (char_at 6 (VStr type)) "N") eqn:En ];
      cbn [orb negb] in Hrest, Himported.
    + apply (sound_with_get _ _ _ _ _ (get_prop _ "local" Hs)).
      apply (sound_with_get _ _ _ _ _ (get_prop _ "name" Hobject)).
      apply sound_with_write_bind, Hnext, Hrest.
    + apply (sound_with_get _ _ _ _ _ (get_prop _ "local" Hs)).
      apply (sound_with_get _ _ _ _ _ (get_prop _ "name" Hobject)).
      apply sound_with_write_bind, Hnext, Hrest.
    + apply sound_with_ret. split; [ lia | ].
      rewrite (skipn_cons_nth VUndefined) by lia. fold s.
      cbn [forallb]. rewrite (specifiers_named _ Hrest), andb_true_r.
      unfold named_specifier. rewrite Hs, Hlocal, Himported. reflexivity.
Qed.

Section SpecialFormatters.

Variable n : nat.
Variable this : Dispatch.
Hypothesis Hthis :
  forall key c, well_formed n key c = true -> sound (this key c).

Local Abbreviation child := (well_formed n).

Lemma sound_ImportDeclaration v :
  is_object v = true ->
  all [import_specifiers; as_at "Literal" "source"] child v = true ->
  sound (ImportDeclaration this v).
Proof.
  intros Hv H. unfold ImportDeclaration. open_checks.
  unfold import_specifiers in H0.
  destruct (prop "specifiers" v) as [| | | | | l |] eqn:E;
    try discriminate H0.
  apply sound_write_bind. apply sound_field; [ exact Hv | ]. rewrite E.
  apply (sound_get _ _ (VNum (Z.of_nat (List.length l)))); [ reflexivity | ].
  apply (sound_gt_num (List.length l) 0).
  apply sound_bind; [ | intros _; repeat sound_step n this Hthis ].
  apply sound_when. intros Hl. apply Nat.ltb_lt in Hl.
  cbn [to_number]. intros st Hst.
  rewrite (lift_bind (Ok (Some (Z.of_nat (List.length l)))) _ _ _ eq_refl).
  rewrite Nat2Z.id. revert st Hst.
  apply (sound_bind_with _ _ _ (sound_import_leading l (List.length l) 0
                                  eq_refl H0)).
  intros i [Hi Hall].
  apply sound_bind; [ | intros _; apply sound_write ].
  apply sound_when. intros Hlt. apply Nat.ltb_lt in Hlt.
  apply sound_write_bind.
  apply sound_bind; [ | intros _; apply sound_write ].
  apply sound_iterate_until. intros k more Hk.
  pose proof (forallb_skipn_nth _ _ i k VUndefined Hall ltac:(lia)) as Hn.
  unfold named_specifier in Hn.
  repeat sound_step n this Hthis.
Qed.

Lemma sound_TemplateLiteral v :
  is_object v = true ->
  template child v = true ->
  sound (TemplateLiteral this v).
Proof.
  intros Hv H. unfold TemplateLiteral, template in *.
  destruct (prop "quasis" v) as [| | | | | quasis |] eqn:Eq;
    try discriminate H.
  destruct (prop "expressions" v) as [| | | | | expressions |] eqn:Ee;
    try discriminate H.
  apply andb_prop in H as [H Hlen]. apply andb_prop in H as [Hq He].
  apply Nat.eqb_eq in Hlen.
  apply sound_field; [ exact Hv | ]. rewrite Eq.
  apply sound_field; [ exact Hv | ]. rewrite Ee.
  apply sound_write_bind.
  apply (sound_get _ _ (VNum (Z.of_nat (List.length expressions))));
    [ reflexivity | ].
  apply sound_bind.
  - repeat sound_step n this Hthis.
  - intros _.
    apply (sound_bind_with
             (fun quasi =>
                quasi = nth (List.length expressions) quasis VUndefined)).
    + intros st Hst. unfold last_quasi. rewrite length_bind.
      cbn [to_number].
      rewrite (lift_bind (Ok (Some _)) _ _ _ eq_refl).
      replace (1 <=? Z.of_nat (List.length quasis))%Z with true
        by (symmetry; apply Z.leb_le; lia).
      replace (Z.to_nat (Z.of_nat (List.length quasis) - 1))
        with (List.length expressions) by lia.
      rewrite nth_run. split; [ exact Hst | reflexivity ].
    + intros quasi ->.
      pose proof (forallb_nth _ _ (List.length expressions) VUndefined Hq
                    ltac:(lia)) as Hn.
      cbn beta in Hn.
      repeat sound_step n this Hthis.
Qed.

Lemma sound_ArrowFunctionExpression v :
  is_object v = true ->
  all [maybe_nodes_at "params"; arrow_body] child v = true ->
  sound (ArrowFunctionExpression this v).
Proof.
  intros Hv H. unfold ArrowFunctionExpression.
  cbn [all forallb] in H. unfold arrow_body in H. cbv zeta in H.
  open_checks.
  apply sound_field; [ exact Hv | ].
  apply sound_field; [ exact Hv | ].
  apply sound_bind; [ repeat sound_step n this Hthis | intros _ ].
  apply sound_bind; [ | intros _; repeat sound_step n this Hthis ].
  apply sound_when. intros Hparams. open_checks.
  lazymatch goal with
  | Hl : node_list _ (prop "params" v) = true |- _ =>
      unfold node_list in Hl;
      destruct (prop "params" v) as [| | | | | elems |] eqn:Ep;
      try discriminate Hl;
      rename Hl into Hall
  end.
  apply (sound_get _ _ (VNum (Z.of_nat (List.length elems))));
    [ reflexivity | ].
  destruct (is_num (VNum (Z.of_nat (List.length elems))) 1) eqn:E1.
  - cbn [is_num] in E1. apply Z.eqb_eq in E1.
    pose proof (forallb_nth _ _ 0 VUndefined Hall ltac:(lia)) as Hfirst.
    repeat sound_step n this Hthis.
  - apply sound_ret_bind. repeat sound_step n this Hthis.
Qed.

Lemma sound_ExpressionStatement v :
  is_object v = true ->
  node_at "expression" child v = true ->
  sound (ExpressionStatement this v).
Proof.
  intros Hv H. unfold ExpressionStatement. open_checks.
  apply sound_field; [ exact Hv | ].
  apply sound_field; [ exact (typed_object _ _ H) | ]. cbv zeta.
  apply sound_bind; [ | intros parens; repeat sound_step n this Hthis ].
  destruct (typed_type _ _ H) as (type & E & Hc). rewrite E.
  destruct (slot_is (precedence (VStr type)) 17); [ apply sound_ret | ].
  destruct (slot_is (precedence (VStr type)) 3) eqn:E3; [ | apply sound_ret ].
  rewrite precedence_3 in E3. cbn [to_str] in E3.
  apply String.eqb_eq in E3. rewrite E3 in Hc.
  destruct (well_formed_as n "AssignmentExpression" _
              (all [node_at "left"; node_at "right"]) eq_refl Hc)
    as (n' & _ & _ & Hs).
  repeat sound_step n this Hthis.
Qed.

End SpecialFormatters.

Create HintDb formatters.

#[export] Hint Resolve
  sound_Program sound_BlockStatement sound_IfStatement sound_LabeledStatement
  sound_BreakStatement sound_ContinueStatement sound_WithStatement
  sound_SwitchStatement sound_ReturnStatement sound_ThrowStatement
  sound_TryStatement sound_WhileStatement sound_DoWhileStatement
  sound_ForStatement sound_ForInStatement sound_FunctionDeclaration
  sound_VariableDeclaration sound_VariableDeclarator sound_ClassDeclaration
  sound_ExportDefaultDeclaration sound_ExportNamedDeclaration
  sound_ExportAllDeclaration sound_MethodDefinition sound_ClassExpression
  sound_RestElement sound_YieldExpression sound_AwaitExpression
  sound_TaggedTemplateExpression sound_ArrayExpression sound_ObjectExpression
  sound_ObjectPattern sound_SequenceExpression sound_UnaryExpression
  sound_UpdateExpression sound_AssignmentExpression sound_AssignmentPattern
  sound_ConditionalExpression sound_NewExpression sound_CallExpression
  sound_MemberExpression sound_MetaProperty sound_RegExpLiteral sound_Literal
  sound_Property sound_BinaryExpression sound_ImportDeclaration
  sound_TemplateLiteral sound_ArrowFunctionExpression
  sound_ExpressionStatement : formatters.




(* ===================================================================== *)
(** * The dangling else *)
(* ===================================================================== *)

Lemma bind_assoc {A B C : Type} (m : M A) (k : A -> M B) (h : B -> M C) st :
  bind (bind m k) h st = bind m (fun a => bind (k a) h) st.
Proof.
  unfold bind. destruct (m st) as [[[a st1] w1] | | |]; try reflexivity.
  destruct (k a st1) as [[[b st2] w2] | | |]; try reflexivity.
  destruct (h b st2) as [[[c st3] w3] | | |]; try reflexivity.
  rewrite app_assoc. reflexivity.
Qed.

Lemma bind_ret_r {A : Type} (m : M A) st : bind m (fun a => ret a) st = m st.
Proof.
  unfold bind, ret. destruct (m st) as [[[a st1] w1] | | |]; try reflexivity.
  rewrite app_nil_r. reflexivity.
Qed.

Lemma bind_unit_r (m : M unit) st : bind m (fun _ => ret tt) st = m st.
Proof.
  unfold bind, ret. destruct (m st) as [[[[] st1] w1] | | |]; try reflexivity.
  rewrite app_nil_r. reflexivity.
Qed.

Lemma bind_head {A B : Type} (m m' : M A) (k : A -> M B) st :
  m st = m' st -> bind m k st = bind m' k st.
Proof. intros H. unfold bind. rewrite H. reflexivity. Qed.

(** Two computations that begin alike and go on alike. *)
Lemma bind_eq {A B : Type} (m : M A) (k k' : A -> M B) st :
  (forall a st1 w1, m st = Ok (a, st1, w1) -> k a st1 = k' a st1) ->
  bind m k st = bind m k' st.
Proof.
  intros H. unfold bind. destruct (m st) as [[[a st1] w1] | | |];
    try reflexivity.
  rewrite (H a st1 w1 eq_refl). reflexivity.
Qed.

Lemma depth_node_of type props :
  depth (node_of type props)
  = S (list_max (map (fun p => depth (snd p)) props)).
Proof. unfold node_of. cbn [depth map snd list_max fold_right Nat.max]. reflexivity. Qed.

(** An [else] goes with the nearest [if]: the alternate of an [if] whose
    consequent is an [if] without alternate is written as the alternate
    of the inner one. *)
Lemma dangling_else_run fuel test inner_test consequent alternate st :
  callable fuel alternate ->
  dispatch (S (S fuel)) defaultGenerator "IfStatement"
    (if_else test (if_else inner_test consequent VNull) alternate) st
  = dispatch (S (S fuel)) defaultGenerator "IfStatement"
      (if_else test (if_else inner_test consequent alternate) VNull) st.
Proof.
  intros Hfuel.
  rewrite !(dispatch_Own _ _ _ IfStatement) by reflexivity.
  set (this1 := dispatch (S fuel) defaultGenerator).
  assert (Hinner : forall node st',
    get node "type" = Ok (VStr "IfStatement") ->
    call this1 node st'
    = IfStatement (dispatch fuel defaultGenerator) node st').
  { intros node st' Ht. rewrite (call_run _ _ _ _ Ht). reflexivity. }
  assert (Hmore : forall st',
    call this1 alternate st'
    = call (dispatch fuel defaultGenerator) alternate st').
  { intros st'.
    apply (refines_call _ _
             (dispatch_more_fuel _ defaultGenerator_monotone fuel)).
    apply (safe_call _ fuel (dispatch_enough fuel)), Hfuel. }
  unfold IfStatement, emit.
  apply bind_eq. intros _ st1 _ _.
  rewrite !bind_assoc, !(field_bind _ "test" _ test) by reflexivity.
  apply bind_eq. intros _ st2 _ _.
  apply bind_eq. intros _ st3 _ _.
  rewrite !bind_assoc.
  rewrite (field_bind _ "consequent" _ (if_else inner_test consequent VNull))
    by reflexivity.
  rewrite (field_bind _ "consequent" _
             (if_else inner_test consequent alternate)) by reflexivity.
  rewrite (bind_head _ _ _ _
             (Hinner (if_else inner_test consequent VNull) st3 eq_refl)).
  rewrite (bind_head _ _ _ _
             (Hinner (if_else inner_test consequent alternate) st3 eq_refl)).
  unfold IfStatement, emit.
  rewrite !bind_assoc. apply bind_eq. intros _ st4 _ _.
  rewrite !bind_assoc, !(field_bind _ "test" _ inner_test) by reflexivity.
  apply bind_eq. intros _ st5 _ _.
  rewrite !bind_assoc. apply bind_eq. intros _ st6 _ _.
  rewrite !bind_assoc, !(field_bind _ "consequent" _ consequent)
    by reflexivity.
  apply bind_eq. intros _ st7 _ _.
  rewrite !bind_assoc.
  rewrite (field_bind _ "alternate" _ VNull) by reflexivity.
  rewrite (field_bind _ "alternate" _ alternate) by reflexivity.
  cbn [nullish negb when]. rewrite ret_bind.
  rewrite (field_bind _ "alternate" _ alternate) by reflexivity.
  rewrite (bind_eq _ _ (fun _ => ret tt))
    by (intros; rewrite (field_bind _ "alternate" _ VNull) by reflexivity;
        reflexivity).
  rewrite bind_unit_r.
  destruct (nullish alternate); cbn [negb when]; [ reflexivity | ].
  apply bind_eq. intros _ st8 _ _. apply Hmore.
Qed.

(** The depth of the inner alternate bounds the fuel it needs. *)
Lemma dangling_else_fuel test inner_test consequent alternate fuel :
  4 * depth (if_else test (if_else inner_test consequent alternate) VNull) + 4
  <= S (S fuel) ->
  callable fuel alternate.
Proof.
  unfold if_else.
  repeat (rewrite depth_node_of; cbn [map snd list_max fold_right]).
  intros H. right. lia.
Qed.

(** X25.  An [else] is written after the nearest [if]: an [if] whose
    consequent is an [if] without alternate is rendered, with its
    alternate, exactly as the [if] whose consequent is that inner [if] with
    the alternate.  [IfStatement] never puts braces around a consequent, so
    the two trees give the same text. *)
Theorem dangling_else test inner_test consequent alternate options fuel :
  opt_generator (or_default options no_options) = None ->
  4 * depth (if_else test (if_else inner_test consequent alternate) VNull) + 4
  <= fuel ->
  astring fuel (if_else test (if_else inner_test consequent VNull) alternate)
          options
  = astring fuel (if_else test (if_else inner_test consequent alternate) VNull)
            options.
Proof.
  intros Hg Hfuel. unfold astring, new_State. rewrite Hg. cbn [or_default].
  set (state := {| sourceMap := _ |}).
  pose proof Hfuel as Hdepth. unfold if_else in Hdepth.
  rewrite depth_node_of in Hdepth.
  destruct fuel as [| [| fuel]]; [ lia | lia | clear Hdepth ].
  f_equal.
  rewrite !(call_run _ _ (VStr "IfStatement")) by reflexivity.
  cbn [to_str]. apply dangling_else_run.
  apply (dangling_else_fuel test inner_test consequent). exact Hfuel.
Qed.

(* ===================================================================== *)
(** * The source map *)
(* ===================================================================== *)

Lemma uniform_bind {A B : Type} (m : M A) (k : A -> M B) :
  uniform m -> (forall a, uniform (k a)) -> uniform (bind m k).
Proof.
  intros Hm Hk st1 st2 Hst. specialize (Hm st1 st2 Hst). unfold bind.
  destruct (m st1) as [[[a1 s1] w1] | e1 | |],
           (m st2) as [[[a2 s2] w2] | e2 | |]; cbn in Hm; try contradiction;
    try exact Hm; try exact I.
  destruct Hm as (<- & <- & Hs). specialize (Hk a1 s1 s2 Hs).
  destruct (k a1 s1) as [[[b1 t1] v1] | e1 | |],
           (k a1 s2) as [[[b2 t2] v2] | e2 | |]; cbn in Hk; try contradiction;
    try exact Hk; try exact I.
  destruct Hk as (<- & <- & Ht). repeat split; apply Ht.
Qed.

Lemma uniform_ret {A : Type} (a : A) : uniform (ret a).
Proof. intros st1 st2 H. repeat split; apply H. Qed.

Lemma uniform_write v : uniform (write v).
Proof. intros st1 st2 H. repeat split; apply H. Qed.

Lemma uniform_throw {A : Type} e : uniform (@throw A e).
Proof. intros st1 st2 H. reflexivity. Qed.

Lemma uniform_lift {A : Type} (o : outcome A) : uniform (lift o).
Proof.
  intros st1 st2 H. unfold lift. destruct o; cbn; auto.
Qed.

Lemma uniform_gets {A : Type} (f : State -> A) :
  (forall st1 st2, same_view st1 st2 -> f st1 = f st2) -> uniform (gets f).
Proof.
  intros Hf st1 st2 H. cbn. repeat split; try apply H. apply Hf, H.
Qed.

Lemma uniform_modify f :
  (forall st1 st2, same_view st1 st2 -> same_view (f st1) (f st2)) ->
  uniform (modify f).
Proof. intros Hf st1 st2 H. cbn. repeat split; apply Hf, H. Qed.

Lemma same_view_set_indentLevel n st1 st2 :
  same_view st1 st2 -> same_view (set_indentLevel n st1) (set_indentLevel n st2).
Proof. intros H. repeat split; apply H. Qed.

Lemma same_view_set_noTrailingSemicolon b st1 st2 :
  same_view st1 st2 ->
  same_view (set_noTrailingSemicolon b st1) (set_noTrailingSemicolon b st2).
Proof. intros H. repeat split; apply H. Qed.

Lemma uniform_when b m : uniform m -> uniform (when b m).
Proof. intros H. destruct b; [ exact H | apply uniform_ret ]. Qed.

Lemma uniform_iterate body :
  (forall i, uniform (body i)) ->
  forall count i, uniform (iterate i count body).
Proof.
  intros H count. induction count as [| c IH]; intros i; cbn [iterate].
  - apply uniform_ret.
  - apply uniform_bind; [ apply H | intros _; apply IH ].
Qed.

Lemma uniform_for_loop start length body :
  (forall i, uniform (body i)) -> uniform (for_loop start length body).
Proof.
  intros H. unfold for_loop.
  apply uniform_bind; [ apply uniform_lift | intros [z |] ].
  - apply uniform_iterate, H.
  - apply uniform_ret.
Qed.

Lemma uniform_iterate_until step :
  (forall i more, uniform (step i more)) ->
  forall further i, uniform (iterate_until i further step).
Proof.
  intros H further.
  induction further as [| f IH]; intros i; cbn [iterate_until].
  - apply H.
  - apply uniform_bind; [ apply H | intros _; apply IH ].
Qed.

Lemma uniform_loop_until start length step :
  (forall i more, uniform (step i more)) ->
  uniform (loop_until start length step).
Proof.
  intros H. unfold loop_until.
  apply uniform_bind; [ apply uniform_lift | intros [z |] ].
  - apply uniform_iterate_until, H.
  - apply H.
Qed.

Create HintDb uniform.

Ltac uniform_step :=
  lazymatch goal with
  | |- uniform (bind _ _) => apply uniform_bind; [ | intros ? ]
  | |- uniform (ret _) => apply uniform_ret
  | |- uniform (throw _) => apply uniform_throw
  | |- uniform (write _) => apply uniform_write
  | |- uniform (lift _) => apply uniform_lift
  | |- uniform (field _ _) => apply uniform_lift
  | |- uniform (item _ _) => apply uniform_lift
  | |- uniform (gets _) =>
      apply uniform_gets; intros ? ? ?;
      match goal with H : same_view _ _ |- _ => apply H end
  | |- uniform (modify (set_indentLevel _)) =>
      apply uniform_modify, same_view_set_indentLevel
  | |- uniform (modify (set_noTrailingSemicolon _)) =>
      apply uniform_modify, same_view_set_noTrailingSemicolon
  | |- uniform (gt_num _ _) => unfold gt_num
  | |- uniform (add_indentLevel _) => unfold add_indentLevel
  | |- uniform indent_then_increment => unfold indent_then_increment
  | |- uniform (when _ _) => apply uniform_when
  | |- uniform (for_loop _ _ _) => apply uniform_for_loop; intros ?
  | |- uniform (loop_until _ _ _) => apply uniform_loop_until; intros ? ?
  | |- uniform (iterate_until _ _ _) =>
      apply uniform_iterate_until; intros ? ?
  | |- uniform (if ?b then _ else _) => destruct b
  | |- uniform (match ?x with _ => _ end) => destruct x
  | |- uniform _ => solve [ eauto with uniform ]
  end.

Ltac uniformly := repeat uniform_step.

Section Uniform.

Variable this : Dispatch.
Hypothesis Hthis : forall key node, uniform (this key node).

Lemma uniform_call node : uniform (call this node).
Proof using Hthis. unfold call. uniformly. Qed.

Lemma uniform_emit node k : uniform (emit this node k).
Proof using Hthis. unfold emit. uniformly. apply uniform_call. Qed.

Lemma uniform_expressionNeedsParenthesis node parentNode isRightHand :
  uniform (expressionNeedsParenthesis node parentNode isRightHand).
Proof. unfold expressionNeedsParenthesis. cbv zeta. uniformly. Qed.

Lemma uniform_reindent text indentation :
  uniform (reindent text indentation).
Proof. unfold reindent. uniformly. Qed.

Lemma uniform_formatComments comments indent lineEnd :
  uniform (formatComments comments indent lineEnd).
Proof. unfold formatComments. uniformly. all: apply uniform_reindent. Qed.

Lemma uniform_comments_at writeComments node k indent lineEnd :
  uniform (comments_at writeComments node k indent lineEnd).
Proof. unfold comments_at. uniformly. apply uniform_formatComments. Qed.

Lemma uniform_import_leading specifiers todo :
  forall i, uniform (import_leading specifiers i todo).
Proof.
  induction todo as [| t IH]; intros i; cbn [import_leading]; uniformly.
  all: apply IH.
Qed.

Lemma uniform_last_quasi quasis : uniform (last_quasi quasis).
Proof. unfold last_quasi. uniformly. Qed.

Lemma uniform_formatSequence nodes : uniform (formatSequence this nodes).
Proof using Hthis.
  unfold formatSequence. uniformly. all: apply uniform_call.
Qed.

Lemma uniform_formatBinaryExpressionPart node parentNode isRightHand :
  uniform (formatBinaryExpressionPart this node parentNode isRightHand).
Proof using Hthis.
  unfold formatBinaryExpressionPart. uniformly.
  all: first [ apply uniform_expressionNeedsParenthesis | apply uniform_call ].
Qed.

End Uniform.

#[export] Hint Extern 1 (uniform (call _ _)) =>
  apply uniform_call; assumption : uniform.
#[export] Hint Extern 1 (uniform (emit _ _ _)) =>
  apply uniform_emit; assumption : uniform.
#[export] Hint Extern 1 (uniform (formatSequence _ _)) =>
  apply uniform_formatSequence; assumption : uniform.
#[export] Hint Extern 1 (uniform (formatBinaryExpressionPart _ _ _ _)) =>
  apply uniform_formatBinaryExpressionPart; assumption : uniform.
#[export] Hint Extern 1 (uniform (expressionNeedsParenthesis _ _ _)) =>
  apply uniform_expressionNeedsParenthesis : uniform.
#[export] Hint Extern 1 (uniform (reindent _ _)) =>
  apply uniform_reindent : uniform.
#[export] Hint Extern 1 (uniform (formatComments _ _ _)) =>
  apply uniform_formatComments : uniform.
#[export] Hint Extern 1 (uniform (comments_at _ _ _ _ _)) =>
  apply uniform_comments_at : uniform.
#[export] Hint Extern 1 (uniform (import_leading _ _ _)) =>
  apply uniform_import_leading : uniform.
#[export] Hint Extern 1 (uniform (last_quasi _)) =>
  apply uniform_last_quasi : uniform.
#[export] Hint Extern 2 (uniform (_ _ _)) =>
  match goal with
  | H : forall key node, uniform (?this key node)
    |- uniform (?this _ _) => apply H
  end : uniform.

Lemma defaultGenerator_even :
  Forall (fun entry => regular (snd entry)) defaultGenerator.
Proof.
  unfold defaultGenerator.
  repeat (apply Forall_cons;
          [ cbn [snd];
            lazymatch goal with
            | |- regular ?f =>
                intros this Hthis node; unfold f; cbv zeta; uniformly
            end
          | ]).
  apply Forall_nil.
Qed.

Lemma uniform_call_inherited generator name :
  uniform (call_inherited generator name).
Proof. unfold call_inherited. uniformly. Qed.

Lemma dispatch_uniform fuel :
  forall key node, uniform (dispatch fuel defaultGenerator key node).
Proof.
  induction fuel as [| fuel IH]; intros key node; rewrite dispatch_eq;
    destruct (lookup defaultGenerator key) as [f | name |] eqn:E;
    try apply uniform_throw; try apply uniform_call_inherited.
  - apply uniform_lift.
  - apply lookup_Own_In in E.
    pose proof (proj1 (Forall_forall _ _) defaultGenerator_even _ E) as Hf.
    cbn [snd] in Hf. apply Hf, IH.
Qed.

(** X26.  The formatters of [defaultGenerator] read neither the source
    map nor the line and column of the state: from two states that agree on
    the rest they write the same and end alike.  So the option [sourcemap]
    changes nothing of what [astring] returns. *)
Theorem sourcemap_ignored :
  (forall fuel key node st1 st2,
      same_view st1 st2 ->
      alike (dispatch fuel defaultGenerator key node st1)
            (dispatch fuel defaultGenerator key node st2))
  /\ (forall fuel node output sourcemap indent lineEnd level comments,
      astring fuel node
        (Some (mkOptions output None sourcemap indent lineEnd level comments))
      = astring fuel node
          (Some (mkOptions output None false indent lineEnd level comments))).
Proof.
  split.
  - intros fuel key node. apply dispatch_uniform.
  - intros fuel node output sourcemap indent lineEnd level comments.
    unfold astring, new_State. cbn [or_default opt_sourcemap opt_indent
      opt_lineEnd opt_startingIndentLevel opt_comments opt_generator
      opt_output].
    set (st1 := {| sourceMap := sourcemap |}).
    set (st2 := {| sourceMap := false |}).
    assert (Hview : same_view st1 st2) by (repeat split).
    pose proof (uniform_call _ (dispatch_uniform fuel) node st1 st2 Hview)
      as H.
    unfold alike in H.
    destruct (call (dispatch fuel defaultGenerator) node st1)
      as [[[a1 s1] w1] | e1 | |],
      (call (dispatch fuel defaultGenerator) node st2)
      as [[[a2 s2] w2] | e2 | |]; cbn [returned]; try contradiction;
      try reflexivity.
    + destruct H as (_ & <- & _). reflexivity.
    + rewrite H. reflexivity.
Qed.

(* ===================================================================== *)
(** * The theorems at concrete nodes *)
(* ===================================================================== *)

Lemma expressionNeedsParenthesis_rules_witness :
  get (literal "2") "type" = Ok (VStr "Literal")
  /\ get two_pow_three "type" = Ok (VStr "BinaryExpression")
  /\ slot_neq (precedence "Literal") (precedence "BinaryExpression") = true
  /\ expressionNeedsParenthesis (literal "2") two_pow_three false initial_state
     = Ok (false, initial_state, []).
Proof.
  refine (conj eq_refl (conj eq_refl (conj eq_refl _))).
  exact (proj1 expressionNeedsParenthesis_rules
               (literal "2") two_pow_three false
               (VStr "Literal") (VStr "BinaryExpression") initial_state
               eq_refl eq_refl eq_refl).
Defined.

Lemma ExpressionStatement_parens_witness :
  get (statement (object_of [])) "expression" = Ok (object_of [])
  /\ get (object_of []) "type" = Ok (VStr "ObjectExpression")
  /\ dispatch 1 defaultGenerator "ObjectExpression" (object_of [])
              initial_state
     = Ok (tt, initial_state, [VStr "{"; VStr "}"])
  /\ exists written,
      dispatch 2 defaultGenerator "ExpressionStatement"
               (statement (object_of [])) initial_state
      = Ok (tt, initial_state, written)
      /\ text_of written = "({});".
Proof.
  refine (conj eq_refl (conj eq_refl (conj eq_refl _))).
  exact (ExpressionStatement_parens
           1 (statement (object_of [])) (object_of [])
           (VStr "ObjectExpression") initial_state initial_state
           [VStr "{"; VStr "}"] eq_refl eq_refl eq_refl).
Defined.

Lemma generator_option_replaces_witness :
  opt_generator literals_only_options = Some literals_only
  /\ get (ident "x") "type" = Ok (VStr "Identifier")
  /\ lookup literals_only "Identifier" = Missing
  /\ astring 1 (ident "x") (Some literals_only_options) = Throw TypeError.
Proof.
  refine (conj eq_refl (conj eq_refl (conj eq_refl _))).
  exact (proj1 (generator_option_replaces
                  literals_only_options literals_only 1 (ident "x")
                  (VStr "Identifier") eq_refl eq_refl)
               eq_refl).
Defined.



Lemma ArrowFunctionExpression_params_witness :
  get bare_arrow "async" = Ok (VBool true)
  /\ get bare_arrow "body" = Ok (ident "y")
  /\ get (ident "y") "type" = Ok (VStr "Identifier")
  /\ idx (VStr "Identifier") 0 = Ok (VStr "I")
  /\ dispatch 1 defaultGenerator "Identifier" (ident "y") initial_state
     = Ok (tt, initial_state, [VStr "y"])
  /\ get bare_arrow "params" = Ok VNull
  /\ nullish VNull = true
  /\ exists written,
      ArrowFunctionExpression (dispatch 1 defaultGenerator) bare_arrow
                              initial_state
      = Ok (tt, initial_state, written)
      /\ text_of written = "async  => y".
Proof.
  refine (conj eq_refl (conj eq_refl (conj eq_refl (conj eq_refl
           (conj eq_refl (conj eq_refl (conj eq_refl _))))))).
  exact (proj1 (ArrowFunctionExpression_params
                  (dispatch 1 defaultGenerator) bare_arrow (VBool true)
                  (ident "y") (VStr "Identifier") (VStr "I")
                  initial_state initial_state [VStr "y"]
                  eq_refl eq_refl eq_refl eq_refl eq_refl)
               VNull eq_refl eq_refl).
Defined.


Lemma ArrayExpression_text_witness :
  exists written,
    ArrayExpression formatters array_with_hole initial_state
    = Ok (tt, initial_state, written)
    /\ text_of written = "[a, , ]".
Proof.
  refine (ArrayExpression_text
           formatters array_with_hole [ident "a"; VNull] [[VStr "a"]; []]
           initial_state eq_refl
           _).
  all: repeat constructor.
Defined.

Lemma Program_text_witness :
  exists written,
    Program formatters two_statements initial_state
    = Ok (tt, initial_state, written)
    /\ text_of written = "a;" ++ LF ++ ";" ++ LF.
Proof.
  refine (proj2 (Program_text
                   formatters two_statements
                   [statement (ident "a"); node_of "EmptyStatement" []]
                   [[VStr "a"; VStr ";"]; [VStr ";"]]
                   initial_state eq_refl eq_refl
                   _)
                _).
  all: try (cbn; lia); repeat constructor.
Defined.

Lemma BlockStatement_text_witness :
  exists written,
    BlockStatement formatters
      (block_of [statement (ident "a"); node_of "EmptyStatement" []])
      indented_state
    = Ok (tt, indented_state, written)
    /\ text_of written
       = "{" ++ LF ++ TAB ++ TAB ++ "a;" ++ LF ++ TAB ++ TAB ++ ";" ++ LF
         ++ TAB ++ "}".
Proof.
  refine (BlockStatement_text
            formatters
            (block_of [statement (ident "a"); node_of "EmptyStatement" []])
            [statement (ident "a"); node_of "EmptyStatement" []]
            [[VStr "a"; VStr ";"]; [VStr ";"]]
            indented_state eq_refl _ eq_refl
            _).
  all: try (cbn; lia); repeat constructor.
Defined.

Lemma ObjectExpression_text_witness :
  exists written,
    ObjectExpression formatters (object_of [init_property; init_property])
                     indented_state
    = Ok (tt, indented_state, written)
    /\ text_of written
       = "{" ++ LF ++ TAB ++ TAB ++ "a: 1," ++ LF ++ TAB ++ TAB ++ "a: 1"
         ++ LF ++ TAB ++ "}".
Proof.
  refine (ObjectExpression_text
            formatters (object_of [init_property; init_property])
            [init_property; init_property]
            [[VStr "a"; VStr ": "; VStr "1"]; [VStr "a"; VStr ": "; VStr "1"]]
            indented_state eq_refl _ eq_refl
            _).
  all: try (cbn; lia); repeat constructor.
Defined.

Lemma UnaryExpression_text_witness :
  exists written,
    UnaryExpression formatters negated_sum initial_state
    = Ok (tt, initial_state, written)
    /\ text_of written = "typeof (a + b)".
Proof.
  refine (UnaryExpression_text
           formatters negated_sum (VBool true) "typeof" a_plus_b
           (VStr "BinaryExpression") initial_state initial_state
           [VStr "a"; VStr " + "; VStr "b"]
           eq_refl eq_refl eq_refl eq_refl eq_refl eq_refl).
  all: repeat constructor.
Defined.

Lemma CallExpression_text_witness :
  exists written,
    CallExpression formatters (call_of a_plus_b [ident "x"; ident "y"])
                   initial_state
    = Ok (tt, initial_state, written)
    /\ text_of written = "(a + b)(x, y)".
Proof.
  refine (CallExpression_text
           formatters (call_of a_plus_b [ident "x"; ident "y"]) a_plus_b
           (VStr "BinaryExpression") [ident "x"; ident "y"]
           [[VStr "x"]; [VStr "y"]] initial_state
           [VStr "a"; VStr " + "; VStr "b"]
           eq_refl eq_refl eq_refl eq_refl
           _).
  all: repeat constructor.
Defined.

Lemma MemberExpression_text_witness :
  exists written,
    MemberExpression formatters (member_of a_plus_b (ident "g")) initial_state
    = Ok (tt, initial_state, written)
    /\ text_of written = "(a + b).g".
Proof.
  refine (MemberExpression_text
           formatters (member_of a_plus_b (ident "g")) a_plus_b
           (VStr "BinaryExpression") VUndefined (ident "g") initial_state
           [VStr "a"; VStr " + "; VStr "b"] [VStr "g"]
           eq_refl eq_refl eq_refl eq_refl eq_refl eq_refl).
  all: repeat constructor.
Defined.

Lemma NewExpression_text_witness :
  exists written,
    NewExpression formatters new_of_call initial_state
    = Ok (tt, initial_state, written)
    /\ text_of written = "new (f().g)(a)".
Proof.
  refine (proj1 NewExpression_text
           formatters new_of_call
           (member_of (call_of (ident "f") []) (ident "g"))
           (VStr "MemberExpression") true [ident "a"] [[VStr "a"]]
           initial_state
           [VStr "f"; VStr "("; VStr ")"; VStr "."; VStr "g"]
           eq_refl eq_refl eq_refl eq_refl eq_refl
           _).
  all: repeat constructor.
Defined.

Lemma ConditionalExpression_text_witness :
  exists written,
    ConditionalExpression formatters choice initial_state
    = Ok (tt, initial_state, written)
    /\ text_of written = "(a = b) ? c : d".
Proof.
  refine (ConditionalExpression_text
           formatters choice
           (node_of "AssignmentExpression"
              [("operator", VStr "="); ("left", ident "a");
               ("right", ident "b")])
           (VStr "AssignmentExpression") (ident "c") (ident "d")
           initial_state
           [VStr "a"; VStr " = "; VStr "b"]
           [VStr "c"] [VStr "d"]
           eq_refl eq_refl eq_refl eq_refl eq_refl eq_refl eq_refl).
  all: repeat constructor.
Defined.

Lemma BinaryExpression_text_witness :
  exists written,
    BinaryExpression formatters product_of_sum initial_state
    = Ok (tt, initial_state, written)
    /\ text_of written = "(a + b) * c".
Proof.
  refine (BinaryExpression_text
           formatters product_of_sum (VStr "*") a_plus_b (ident "c")
           (VStr "BinaryExpression") (VStr "BinaryExpression")
           (VStr "Identifier") (VStr "+") VUndefined true false
           initial_state
           [VStr "a"; VStr " + "; VStr "b"] [VStr "c"]
           eq_refl eq_refl eq_refl eq_refl eq_refl eq_refl eq_refl eq_refl
           eq_refl eq_refl eq_refl eq_refl).
  all: repeat constructor.
Defined.

Lemma VariableDeclaration_text_witness :
  exists written,
    VariableDeclaration formatters two_declarators initial_state
    = Ok (tt, initial_state, written)
    /\ text_of written = "let i = 0, j;".
Proof.
  refine (VariableDeclaration_text
           formatters two_declarators (VStr "let")
           [ node_of "VariableDeclarator"
               [("id", ident "i"); ("init", literal "0")];
             node_of "VariableDeclarator" [("id", ident "j")] ]
           [[VStr "i"; VStr " = "; VStr "0"]; [VStr "j"]]
           initial_state eq_refl eq_refl
           _).
  all: repeat constructor.
Defined.

Lemma TemplateLiteral_text_witness :
  exists written,
    TemplateLiteral formatters greeting initial_state
    = Ok (tt, initial_state, written)
    /\ text_of written = "`Hello ${name}!`".
Proof.
  refine (TemplateLiteral_text
           formatters greeting [quasi "Hello "] (quasi "!")
           [VStr "Hello "] (VStr "!") [ident "name"] [[VStr "name"]]
           initial_state eq_refl eq_refl _ _ _ eq_refl).
  all: repeat econstructor.
Defined.

Lemma ClassDeclaration_text_witness :
  exists written,
    ClassDeclaration formatters derived_class initial_state
    = Ok (tt, initial_state, written)
    /\ text_of written = "class Aextends B {}".
Proof.
  refine (ClassDeclaration_text
           formatters derived_class (ident "A") (VStr "A") (ident "B")
           (node_of "ClassBody" [("body", VArr [])]) initial_state
           [VStr "B"] [VStr "{"; VStr "}"]
           eq_refl (fun _ => eq_refl) eq_refl (fun _ => eq_refl) eq_refl
           eq_refl).
  all: repeat constructor.
Defined.

Lemma ImportDeclaration_text_witness :
  exists written,
    ImportDeclaration formatters mixed_import initial_state
    = Ok (tt, initial_state, written)
    /\ text_of written = "import d, {a, b as c} from 'm';".
Proof.
  refine (ImportDeclaration_text
           formatters mixed_import [ImportDefault "d"]
           [ImportNamed "a" "a"; ImportNamed "b" "c"] (literal "'m'")
           initial_state [VStr "'m'"]
           eq_refl eq_refl eq_refl eq_refl eq_refl).
  all: repeat constructor.
Defined.

Lemma FunctionDeclaration_text_witness :
  exists written,
    FunctionDeclaration formatters named_function initial_state
    = Ok (tt, initial_state, written)
    /\ text_of written = "async function f(x, y) {}".
Proof.
  refine (FunctionDeclaration_text
           formatters named_function (VBool true) VUndefined (ident "f")
           (VStr "f") [ident "x"; ident "y"] (block_of [])
           [[VStr "x"]; [VStr "y"]] initial_state initial_state
           [VStr "{"; VStr "}"]
           eq_refl eq_refl eq_refl (fun _ => eq_refl) eq_refl
           _
           eq_refl eq_refl).
  all: repeat constructor.
Defined.

Lemma comments_ignored_witness :
  astring 2 commented_statement None = Ok (Buffer ("a;"))
  /\ astring 2 (statement (ident "a")) None
     = astring 2 commented_statement None.
Proof.
  refine (conj eq_refl _).
  refine (comments_ignored 2 commented_statement None eq_refl eq_refl eq_refl
                           _).
  discriminate.
Defined.



Lemma dangling_else_witness :
  astring 20 (if_else (ident "a")
                (if_else (ident "b") (statement (ident "x")) VNull)
                (statement (ident "y")))
          None
  = Ok (Buffer "if (a) if (b) x; else y;")
  /\ astring 20 (if_else (ident "a")
                   (if_else (ident "b") (statement (ident "x"))
                            (statement (ident "y")))
                   VNull)
             None
     = Ok (Buffer "if (a) if (b) x; else y;").
Proof.
  refine (conj eq_refl _).
  rewrite <- (dangling_else (ident "a") (ident "b") (statement (ident "x"))
                (statement (ident "y")) None 20 eq_refl);
    [ reflexivity | cbn; lia ].
Defined.

Lemma formatSequence_text_witness :
  exists written,
    formatSequence formatters (VArr [ident "x"; ident "y"]) initial_state
    = Ok (tt, initial_state, written)
    /\ text_of written = "(x, y)".
Proof.
  refine (proj2 (formatSequence_text formatters initial_state)
                [ident "x"; ident "y"] [[VStr "x"]; [VStr "y"]] _).
  repeat constructor.
Defined.

Lemma reindent_own_indentation_witness :
  reindent_text block_comment "  " = "  first" ++ LF ++ "  second".
Proof. exact (reindent_own_indentation block_comment). Defined.



Lemma Literal_text_witness :
  dispatch 2 defaultGenerator "Literal" regex_literal initial_state
  = Ok (tt, initial_state,
        [VStr ("new RegExp(" ++ quote ++ "a+" ++ quote ++ ", "
               ++ quote ++ "g" ++ quote ++ ")")]).
Proof.
  exact (proj1 (proj2 Literal_text) 0 regex_literal VUndefined
               (VObj [("pattern", VStr "a+"); ("flags", VStr "g")])
               "a+" "g" initial_state eq_refl eq_refl eq_refl eq_refl eq_refl).
Defined.

Lemma sourcemap_ignored_witness :
  astring 8 two_statements
    (Some (mkOptions None None true None None None false))
  = astring 8 two_statements
      (Some (mkOptions None None false None None None false)).
Proof.
  exact (proj2 sourcemap_ignored 8 two_statements None true None None None
               false).
Defined.
